(** * go-git: the tree object model and the SSH transport session

    A shallow embedding of two source files of the repository:

    - the [git] package's tree file ([Tree], [TreeEntry], [Tree.File],
      [Tree.findHash], [Tree.dir], [Tree.entry], [Tree.Files],
      [Tree.walkEntries], [Tree.Decode], [TreeIter.Next]);
    - [plumbing/transport/ssh/common.go] ([session], [SetAuth], [Close],
      [connect], [getHostWithPort], [setAuthFromEndpoint],
      [openSSHSession]).

    Go strings and byte slices are sequences of bytes; both are [list ascii]
    here.  A Go method that mutates its receiver takes the receiver and
    returns the new one.  A run-time panic and running out of recursion
    fuel are outcomes of their own.  What the code calls but does not
    define ([bufio], [strconv], [path/filepath], the [ssh] library, the
    agent) is modelled next to the code that calls it.

    The definitions come first, in one module per package; the properties
    follow, each package's in its own sections. *)

From Stdlib Require Import Ascii String ZArith List Lia.
From stdpp Require Import gmap strings list fin_maps.

Local Open Scope Z_scope.

(** ** The [git] package: trees *)

Module git.

(** Go [string] and [[]byte]. *)
Abbreviation bytes := (list ascii).

(** A string literal as bytes. *)
Definition lit (s : string) : bytes := list_ascii_of_string s.

Definition SP : ascii := " "%char.
Definition NUL : ascii := "000"%char.
Definition SLASH : ascii := "/"%char.

(** [core.Hash] is [[20]byte]; the zero value is twenty zero bytes. *)
Abbreviation Hash := (list ascii) (only parsing).
Definition HashSize : nat := 20.
Definition ZeroHash : bytes := replicate HashSize NUL.

(** [core.ObjectType], the kinds of the data model. *)
Inductive ObjectType := CommitObject | TreeObject | BlobObject | TagObject.

#[global] Instance ObjectType_eq_dec : EqDecision ObjectType.
Proof. solve_decision. Defined.

(** The errors an [io.Reader] ends with. *)
Inductive ReadErr := io_EOF | io_ErrOther (msg : string).

(** [strconv.NumError.Err]. *)
Inductive NumErr := ErrSyntax | ErrRange.

(** The error values of the package and of the libraries it calls. *)
Inductive error :=
| ErrFileNotFound
| errDirNotFound
| errEntryNotFound
| ReadError (e : ReadErr)
| NumError (e : NumErr).

(** What a call comes to: it returns a value, returns an error, panics, or
    has not returned when the recursion fuel is spent. *)
Inductive result (A : Type) :=
| Ok (a : A)
| Err (e : error)
| Panic
| Diverge.
Arguments Ok {A} a.
Arguments Err {A} e.
Arguments Panic {A}.
Arguments Diverge {A}.

Definition bind {A B} (x : result A) (k : A -> result B) : result B :=
  match x with
  | Ok a => k a
  | Err e => Err e
  | Panic => Panic
  | Diverge => Diverge
  end.

Notation "'let?' x ':=' c 'in' k" := (bind c (fun x => k))
  (at level 10, x name, c at level 100, k at level 200).

(** The byte stream of an object: the bytes still to come and the error the
    stream ends with. *)
Record Reader := mkReader { pending : bytes; final : ReadErr }.

(** [core.Object]: [Type()], [Size()] (the declared size, an int64),
    [Hash()] and [Reader()], a fresh stream at each call. *)
Record Object := mkObject {
  oType : ObjectType;
  oSize : Z;
  oHash : Hash;
  oReader : Reader
}.

(** [Repository], of which the tree uses [Storage.Get] only. *)
Record Repository := mkRepository { Storage_Get : Hash -> option Object }.

Record TreeEntry := mkTreeEntry {
  eName : bytes;
  eMode : Z;
  eHash : Hash
}.

Record Tree := mkTree {
  Entries : gmap bytes TreeEntry;
  tHash : Hash;
  tr : Repository
}.

(** [&Tree{r: r}]: a nil entry map and the zero hash. *)
Definition newTree (r : Repository) : Tree :=
  {| Entries := ∅; tHash := ZeroHash; tr := r |}.

Record File := mkFile {
  fName : bytes;
  fReader : Reader;
  fHash : Hash;
  fSize : Z
}.

(** Modelled from the spec: [Blob] and [Blob.Decode] are not in the tree
    file.  A blob takes the object's size and hash, and reads the object's
    content. *)
Record Blob := mkBlob { bHash : Hash; bSize : Z; bObj : option Object }.

Definition newBlob : Blob := {| bHash := ZeroHash; bSize := 0; bObj := None |}.

Definition Blob_Decode (b : Blob) (o : Object) : Blob :=
  {| bHash := oHash o; bSize := oSize o; bObj := Some o |}.

Definition Blob_Reader (b : Blob) : Reader :=
  match bObj b with
  | Some o => oReader o
  | None => mkReader [] io_EOF
  end.

(** *** [s[:len(s)-1]] *)

(** Slicing off the last byte panics on the empty string. *)
Definition dropLast (s : bytes) : result bytes :=
  match s with
  | [] => Panic
  | _ => Ok (removelast s)
  end.

(** *** [strings.Split] with a one-byte separator *)

Fixpoint Split (s : bytes) (sep : ascii) : list bytes :=
  match s with
  | [] => [[]]
  | c :: s' =>
      if decide (c = sep) then [] :: Split s' sep
      else match Split s' sep with
           | p :: ps => (c :: p) :: ps
           | [] => [[c]]
           end
  end.

(** [strings.Join]. *)
Fixpoint Join_with (elems : list bytes) (sep : bytes) : bytes :=
  match elems with
  | [] => []
  | [e] => e
  | e :: es => e ++ sep ++ Join_with es sep
  end.

(** *** [path/filepath.Clean] and [filepath.Join] on a Unix path *)

(** One path element of [Clean]'s loop.  [ups] counts the leading [..]
    elements kept (a path that is not rooted cannot go back over them);
    [kept] are the elements written after them, the last one first. *)
Definition clean_step (rooted : bool) (st : nat * list bytes) (el : bytes)
  : nat * list bytes :=
  let '(ups, kept) := st in
  if decide (el = []) then st
  else if decide (el = lit ".") then st
  else if decide (el = lit "..") then
    match kept with
    | _ :: kept' => (ups, kept')
    | [] => if rooted then st else (S ups, [])
    end
  else (ups, el :: kept).

Definition Clean (path : bytes) : bytes :=
  match path with
  | [] => lit "."
  | c :: _ =>
      let rooted := bool_decide (c = SLASH) in
      let '(ups, kept) := fold_left (clean_step rooted) (Split path SLASH) (0%nat, []) in
      let out := Join_with (replicate ups (lit "..") ++ rev kept) [SLASH] in
      if rooted then SLASH :: out
      else match out with [] => lit "." | _ => out end
  end.

(** [filepath.Join(base, name)]: from the first element that is not empty
    on, the elements are joined with the separator and the result is
    cleaned; when all are empty the result is empty. *)
Definition filepath_Join (base name : bytes) : bytes :=
  match base, name with
  | [], [] => []
  | [], _ => Clean name
  | _, _ => Clean (base ++ SLASH :: name)
  end.

(** *** [strconv.ParseInt(s, 8, 32)] *)

Definition octal_digit (c : ascii) : option Z :=
  let n := Z.of_N (N_of_ascii c) in
  if (48 <=? n) && (n <=? 55) then Some (n - 48) else None.

(** [ParseUint]'s loop in base 8 with [bitSize] 32: a byte that is no octal
    digit is a syntax error, a value above [2^32 - 1] a range error,
    whichever comes first. *)
Fixpoint ParseUint_loop (n : Z) (s : bytes) : NumErr + Z :=
  match s with
  | [] => inr n
  | c :: s' =>
      match octal_digit c with
      | None => inl ErrSyntax
      | Some d =>
          let n1 := n * 8 + d in
          if n1 >? 2 ^ 32 - 1 then inl ErrRange else ParseUint_loop n1 s'
      end
  end.

Definition ParseUint (s : bytes) : NumErr + Z :=
  match s with
  | [] => inl ErrSyntax
  | _ => ParseUint_loop 0 s
  end.

(** The empty string is a syntax error; one leading sign is taken off; the
    magnitude must fit 32 signed bits. *)
Definition ParseInt (s : bytes) : NumErr + Z :=
  match s with
  | [] => inl ErrSyntax
  | c :: s' =>
      let neg := bool_decide (c = "-"%char) in
      let digits := if decide (c = "+"%char \/ c = "-"%char) then s' else s in
      match ParseUint digits with
      | inl e => inl e
      | inr un =>
          if negb neg && (un >=? 2 ^ 31) then inl ErrRange
          else if neg && (un >? 2 ^ 31) then inl ErrRange
          else inr (if neg then - un else un)
      end
  end.

(** [os.FileMode(fm)]: the conversion of an int64 to a uint32. *)
Definition FileMode (fm : Z) : Z := fm mod 2 ^ 32.

(** *** [io.Reader] and [bufio.Reader]

    The stream of an object hands over the bytes asked for, as many as it
    still has, and its final error once it has none (as the in-memory
    objects of the store do).  The buffered reader around it holds a
    window of at most [defaultBufSize] bytes, as in Go's [bufio]. *)

Definition defaultBufSize : nat := 4096.

Record bufio_Reader := mkBufio { buffered : bytes; rd : Reader }.

Definition bufio_NewReader (r : Reader) : bufio_Reader := mkBufio [] r.

(** The bytes the reader has not given out yet. *)
Definition unread (b : bufio_Reader) : bytes := buffered b ++ pending (rd b).

(** [b.fill()]: one read of the stream into the free part of the buffer. *)
Definition fill (b : bufio_Reader) : bufio_Reader :=
  let room := (defaultBufSize - length (buffered b))%nat in
  mkBufio (buffered b ++ take room (pending (rd b)))
          (mkReader (drop room (pending (rd b))) (final (rd b))).

(** The bytes up to and including the first [delim], and the rest. *)
Fixpoint cut_at (delim : ascii) (s : bytes) : option (bytes * bytes) :=
  match s with
  | [] => None
  | c :: s' =>
      if decide (c = delim) then Some ([c], s')
      else match cut_at delim s' with
           | Some (a, b) => Some (c :: a, b)
           | None => None
           end
  end.

(** The loop of [ReadBytes] around [ReadSlice]: the buffer is searched;
    without the delimiter in it, the reader returns what it has with the
    final error when the stream is at its end, and otherwise fills the
    buffer and searches again, a full buffer being put aside first with the
    pieces [frags] collected so far.  Every refill takes bytes off the
    stream, so a fuel of the stream's length is never spent. *)
Fixpoint ReadString_loop (fuel : nat) (delim : ascii) (frags : bytes) (b : bufio_Reader)
  : bytes * option ReadErr * bufio_Reader :=
  match cut_at delim (buffered b) with
  | Some (s, rest) => (frags ++ s, None, mkBufio rest (rd b))
  | None =>
      match pending (rd b), fuel with
      | _ :: _, S fuel' =>
          if (defaultBufSize <=? length (buffered b))%nat
          then ReadString_loop fuel' delim (frags ++ buffered b) (fill (mkBufio [] (rd b)))
          else ReadString_loop fuel' delim frags (fill b)
      | _, _ => (frags ++ buffered b, Some (final (rd b)), mkBufio [] (rd b))
      end
  end.

(** [r.ReadString(delim)]: the data through the delimiter and no error, or
    all the data left and the error the stream ends with. *)
Definition ReadString (delim : ascii) (b : bufio_Reader)
  : bytes * option ReadErr * bufio_Reader :=
  ReadString_loop (length (pending (rd b))) delim [] b.

(** [r.Read(p)] with [len(p) = n], for [n] below the buffer size: an empty
    buffer is filled by one read of the stream; then what is buffered, up
    to [n] bytes, is copied out, and that may be fewer than [n] though the
    stream has more.  With nothing left, no byte and the final error. *)
Definition Read (n : nat) (b : bufio_Reader) : bytes * option ReadErr * bufio_Reader :=
  let b1 := match buffered b with [] => fill b | _ => b end in
  match buffered b1 with
  | [] => ([], Some (final (rd b1)), b1)
  | _ => (take n (buffered b1), None, mkBufio (drop n (buffered b1)) (rd b1))
  end.

(** [var hash core.Hash; r.Read(hash[:])]: the bytes read overwrite the
    front of the zero hash. *)
Definition fill_hash (got : bytes) : Hash :=
  got ++ replicate (HashSize - length got) NUL.

(** [err != nil && err != io.EOF] *)
Definition other_than_EOF (err : option ReadErr) : option ReadErr :=
  match err with
  | Some (io_ErrOther m) => Some (io_ErrOther m)
  | _ => None
  end.

(** *** [Tree.Decode] *)

(** The [for] loop of [Decode].  It returns the entries as they are when
    the loop is left together with the error returned, if any. *)
Fixpoint Decode_loop (fuel : nat) (entries : gmap bytes TreeEntry) (r : bufio_Reader)
  : result (gmap bytes TreeEntry * option error) :=
  match fuel with
  | O => Diverge
  | S fuel' =>
      let '(mode, err, r1) := ReadString SP r in
      match err with
      | Some io_EOF => Ok (entries, None)
      | Some e => Ok (entries, Some (ReadError e))
      | None =>
          let? digits := dropLast mode in
          match ParseInt digits with
          | inl e => Ok (entries, Some (NumError e))
          | inr fm =>
              let '(name, err, r2) := ReadString NUL r1 in
              match other_than_EOF err with
              | Some e => Ok (entries, Some (ReadError e))
              | None =>
                  let '(got, err, r3) := Read HashSize r2 in
                  match other_than_EOF err with
                  | Some e => Ok (entries, Some (ReadError e))
                  | None =>
                      let hash := fill_hash got in
                      let? baseName := dropLast name in
                      Decode_loop fuel'
                        (<[baseName := mkTreeEntry baseName (FileMode fm) hash]> entries)
                        r3
                  end
              end
          end
      end
  end.

(** [t.Decode(o)]: the receiver after the call and the error returned.
    Every turn of the loop takes at least one byte, so the fuel given is
    never spent. *)
Definition Decode (t : Tree) (o : Object) : result (Tree * option error) :=
  let t1 := mkTree (Entries t) (oHash o) (tr t) in
  if oSize o =? 0 then Ok (t1, None)
  else
    let r := bufio_NewReader (oReader o) in
    let? out := Decode_loop (S (length (unread r))) ∅ r in
    Ok (mkTree (fst out) (oHash o) (tr t), snd out).

(** *** Path lookup *)

Definition entry (t : Tree) (baseName : bytes) : result TreeEntry :=
  match Entries t !! baseName with
  | Some e => Ok e
  | None => Err errEntryNotFound
  end.

(** [t.dir(baseName)].  The error of the [Decode] call is dropped, as in
    the source. *)
Definition dir (t : Tree) (baseName : bytes) : result Tree :=
  match entry t baseName with
  | Ok e =>
      match Storage_Get (tr t) (eHash e) with
      | None => Err errDirNotFound
      | Some obj =>
          if decide (oType obj = TreeObject) then
            let? out := Decode (newTree (tr t)) obj in
            Ok (fst out)
          else Err errDirNotFound
      end
  | Err _ => Err errDirNotFound
  | Panic => Panic
  | Diverge => Diverge
  end.

(** The loop of [findHash] and the lookup that follows it. *)
Fixpoint findHash_from (tree : Tree) (pathParts : list bytes) : result Hash :=
  match pathParts with
  | [] => Panic
  | [p] => let? e := entry tree p in Ok (eHash e)
  | p :: (_ :: _) as rest => let? tree' := dir tree p in findHash_from tree' rest
  end.

Definition findHash (t : Tree) (path : bytes) : result Hash :=
  findHash_from t (Split path SLASH).

Definition File_ (t : Tree) (path : bytes) : result File :=
  match findHash t path with
  | Err _ => Err ErrFileNotFound
  | Panic => Panic
  | Diverge => Diverge
  | Ok hash =>
      match Storage_Get (tr t) hash with
      | None => Err ErrFileNotFound
      | Some obj =>
          if decide (oType obj = BlobObject) then
            let blob := Blob_Decode newBlob obj in
            Ok {| fName := path; fReader := Blob_Reader blob;
                  fHash := hash; fSize := bSize blob |}
          else Err ErrFileNotFound
      end
  end.

(** *** Traversal *)

(** The body of the [for] loop of [walkEntries], for one entry: [ch] is the
    sequence of files sent on the channel so far, [walk] the recursive
    call. *)
Definition visit (walk : Tree -> bytes -> list File -> result (list File))
    (t : Tree) (base : bytes) (ch : list File) (entry : TreeEntry)
  : result (list File) :=
  match Storage_Get (tr t) (eHash entry) with
  | None => Ok ch
  | Some obj =>
      if decide (oType obj = TreeObject) then
        let? out := Decode (newTree (tr t)) obj in
        walk (fst out) (filepath_Join base (eName entry)) ch
      else
        let blob := Blob_Decode newBlob obj in
        Ok (ch ++ [ {| fName := filepath_Join base (eName entry);
                       fReader := Blob_Reader blob;
                       fHash := eHash entry;
                       fSize := bSize blob |} ])
  end.

(** The loop over a sequence of entries. *)
Definition visit_all (walk : Tree -> bytes -> list File -> result (list File))
    (t : Tree) (base : bytes) (entries : list (bytes * TreeEntry)) (ch : list File)
  : result (list File) :=
  fold_left (fun acc kv => let? ch := acc in visit walk t base ch (snd kv))
            entries (Ok ch).

(** [t.walkEntries(base, ch)].  The entries are visited in the order of
    [map_to_list], one of the orders the Go map may be ranged over. *)
Fixpoint walkEntries (fuel : nat) (t : Tree) (base : bytes) (ch : list File)
  : result (list File) :=
  match fuel with
  | O => Diverge
  | S fuel' => visit_all (walkEntries fuel') t base (map_to_list (Entries t)) ch
  end.

(** [t.Files()]: what has been sent on the channel when it is closed. *)
Definition Files (fuel : nat) (t : Tree) : result (list File) :=
  walkEntries fuel t [] [].

(** *** The traversal in a given order *)

(** [walkEntries] with the range order made explicit: Go ranges over a map
    in an order of its choosing, taken here from [order] for each tree and
    the base it is walked under. *)
Fixpoint walkEntries_in (order : Tree -> bytes -> list (bytes * TreeEntry))
    (fuel : nat) (t : Tree) (base : bytes) (ch : list File) : result (list File) :=
  match fuel with
  | O => Diverge
  | S fuel' => visit_all (walkEntries_in order fuel') t base (order t base) ch
  end.

(** *** [TreeIter]

    Modelled from the spec: the embedded [iter] is not in the tree file.
    Of it [Next] uses the repository [r] and the channel [ch] the objects
    are fed on.  The channel is given by the values sent and not yet
    received, a nil object being one of the values that can be sent, and
    by whether it has been closed. *)
Record TreeIter := mkTreeIter {
  ich : list (option Object);
  ich_closed : bool;
  ir : Repository
}.

(** [<-i.ch]: the value at the front of the channel; nil when the channel
    is closed and empty; while it is open and empty the receive does not
    return. *)
Definition receive (i : TreeIter) : result (option Object * TreeIter) :=
  match ich i with
  | x :: rest => Ok (x, mkTreeIter rest (ich_closed i) (ir i))
  | [] => if ich_closed i then Ok (None, i) else Diverge
  end.

(** [i.Next()]: the tree and the error returned, and the iterator
    afterwards. *)
Definition TreeIter_Next (i : TreeIter)
  : result (option Tree * option error * TreeIter) :=
  let? r := receive i in
  match fst r with
  | None => Ok (None, Some (ReadError io_EOF), snd r)
  | Some obj =>
      let? out := Decode (newTree (ir i)) obj in
      Ok (Some (fst out), snd out, snd r)
  end.

(** [n] calls of [Next], one after the other: what each returned. *)
Fixpoint TreeIter_Nexts (n : nat) (i : TreeIter)
  : result (list (option Tree * option error)) :=
  match n with
  | O => Ok []
  | S n' =>
      let? r := TreeIter_Next i in
      let? rs := TreeIter_Nexts n' (snd r) in
      Ok (fst r :: rs)
  end.

(** *** The tree format, as the specification gives it

    [<octal-mode> ' ' <name> 0x00 <20-byte-hash>], repeated. *)

Record record := mkRecord { rMode : bytes; rName : bytes; rHash : bytes }.

Definition encode_record (rec : record) : bytes :=
  rMode rec ++ SP :: rName rec ++ NUL :: rHash rec.

Definition encode (recs : list record) : bytes :=
  flat_map encode_record recs.

(** A record is well formed when its mode is a base-8 number of 32 bits,
    its name has no NUL byte and its hash has 20 bytes. *)
Definition record_ok (rec : record) : bool :=
  match ParseInt (rMode rec) with inr _ => true | inl _ => false end
  && bool_decide (NUL ∉ rName rec)
  && bool_decide (length (rHash rec) = HashSize).

(** The entry a record stands for. *)
Definition record_entry (rec : record) : TreeEntry :=
  mkTreeEntry (rName rec)
    (FileMode (match ParseInt (rMode rec) with inr fm => fm | inl _ => 0 end))
    (rHash rec).

(** The mapping a sequence of records stands for: a later record of the
    same name replaces an earlier one. *)
Definition add_records (m : gmap bytes TreeEntry) (recs : list record)
  : gmap bytes TreeEntry :=
  fold_left (fun m rec => <[rName rec := record_entry rec]> m) recs m.

(** A stream that ends in the middle of a record: well-formed records
    followed by the first [k] bytes of one more, some but not all of
    them. *)
Definition ends_mid_record (s : bytes) : Prop :=
  exists recs rec k,
    forallb record_ok recs = true /\ record_ok rec = true /\
    (0 < k < length (encode_record rec))%nat /\
    s = encode recs ++ take k (encode_record rec).

(** A stream that ends between records. *)
Definition ends_between_records (s : bytes) : Prop :=
  exists recs, forallb record_ok recs = true /\ s = encode recs.

(** [Decode] reports a failure. *)
Definition decode_fails (res : result (Tree * option error)) : Prop :=
  exists t e, res = Ok (t, Some e).

(** [Decode] reports success. *)
Definition decode_succeeds (res : result (Tree * option error)) : Prop :=
  exists t, res = Ok (t, None).

(** The error [Decode] returned, when it returned, and the entries of the
    receiver then. *)
Definition returned_error (res : result (Tree * option error))
  : option (option error) :=
  match res with
  | Ok (_, err) => Some err
  | _ => None
  end.

Definition decoded_entries (res : result (Tree * option error))
  : gmap bytes TreeEntry :=
  match res with
  | Ok (t, _) => Entries t
  | _ => ∅
  end.

(** *** Content addressing

    The store gives, for a hash, an object of that hash. *)
Definition content_addressed (r : Repository) : Prop :=
  forall h o, Storage_Get r h = Some o -> oHash o = h.

(** *** A reader that has the whole content within its buffer

    Either the stream has been emptied into the buffer, or the buffer is
    still empty and the stream holds no more than the buffer takes. *)
Definition whole (b : bufio_Reader) : Prop :=
  pending (rd b) = [] \/
  (buffered b = [] /\ (length (pending (rd b)) <= defaultBufSize)%nat).

(** *** Going down a path

    [descend t names] follows the directory names one after the other with
    [dir], as the loop of [findHash] does. *)
Fixpoint descend (t : Tree) (names : list bytes) : result Tree :=
  match names with
  | [] => Ok t
  | name :: names' => let? t' := dir t name in descend t' names'
  end.

(** *** The blob leaves of a tree, as the specification gives them

    [blob_leaf t names h o] says that the names, followed one after the
    other from [t], lead to the blob [o] stored under [h]: each name is
    looked up in the tree reached so far; the last one resolves to a blob,
    those before it to trees. *)
Inductive blob_leaf : Tree -> list bytes -> Hash -> Object -> Prop :=
| leaf_here t name e o :
    Entries t !! name = Some e ->
    Storage_Get (tr t) (eHash e) = Some o ->
    oType o = BlobObject ->
    blob_leaf t [name] (eHash e) o
| leaf_below t name e o sub err names h b :
    Entries t !! name = Some e ->
    Storage_Get (tr t) (eHash e) = Some o ->
    oType o = TreeObject ->
    Decode (newTree (tr t)) o = Ok (sub, err) ->
    blob_leaf sub names h b ->
    blob_leaf t (name :: names) h b.

(** *** The leaves the traversal reaches

    [leaf t names e o]: going down from [t] along the names of entries
    that resolve to trees, the entry [e] is reached, and it resolves to the
    object [o], which is no tree. *)
Inductive leaf : Tree -> list bytes -> TreeEntry -> Object -> Prop :=
| leaf_entry t k e o :
    Entries t !! k = Some e ->
    Storage_Get (tr t) (eHash e) = Some o ->
    oType o <> TreeObject ->
    leaf t [eName e] e o
| leaf_sub t k e o sub err names e' o' :
    Entries t !! k = Some e ->
    Storage_Get (tr t) (eHash e) = Some o ->
    oType o = TreeObject ->
    Decode (newTree (tr t)) o = Ok (sub, err) ->
    leaf sub names e' o' ->
    leaf t (eName e :: names) e' o'.

(** The file [walkEntries] sends for a leaf: the names are joined to the
    base one by one. *)
Definition file_of (base : bytes) (names : list bytes) (e : TreeEntry) (o : Object)
  : File :=
  {| fName := fold_left filepath_Join names base;
     fReader := oReader o;
     fHash := eHash e;
     fSize := oSize o |}.

(** No chain of subtrees below [t] is longer than [n]. *)
Fixpoint depth_below (n : nat) (t : Tree) : Prop :=
  match n with
  | O => False
  | S n' =>
      forall k e o sub err,
        Entries t !! k = Some e ->
        Storage_Get (tr t) (eHash e) = Some o ->
        oType o = TreeObject ->
        Decode (newTree (tr t)) o = Ok (sub, err) ->
        depth_below n' sub
  end.

(** A name as git writes it in a tree: not empty, without a slash, and
    neither [.] nor [..]. *)
Definition name_ok (name : bytes) : Prop :=
  name <> [] /\ (SLASH ∉ name) /\ name <> lit "." /\ name <> lit "..".

(** The entries of a tree are stored under their names, and the names are
    well formed. *)
Definition tree_ok (t : Tree) : Prop :=
  forall k e, Entries t !! k = Some e -> eName e = k /\ name_ok k.

(** Every tree in the store decodes to a tree that is well formed. *)
Definition store_ok (r : Repository) : Prop :=
  forall h o t err,
    Storage_Get r h = Some o ->
    oType o = TreeObject ->
    Decode (newTree r) o = Ok (t, err) ->
    tree_ok t.

(** [walk] sends files of leaves only, after those already sent. *)
Definition sends_leaves (walk : Tree -> bytes -> list File -> result (list File))
  : Prop :=
  forall t base ch out,
    walk t base ch = Ok out ->
    exists new, out = ch ++ new /\
      forall f, f ∈ new ->
        exists names e o, leaf t names e o /\ f = file_of base names e o.

(** [walk] sends the file of every leaf. *)
Definition reaches_leaves (walk : Tree -> bytes -> list File -> result (list File))
  : Prop :=
  forall t base ch out,
    walk t base ch = Ok out ->
    forall names e o, leaf t names e o -> file_of base names e o ∈ out.

(** In a well-formed store, and from a base made of well-formed names,
    [walk] sends paths that go on from the base, each of them once. *)
Definition sends_new_paths (walk : Tree -> bytes -> list File -> result (list File))
  : Prop :=
  forall t ns ch out,
    store_ok (tr t) -> tree_ok t -> Forall name_ok ns ->
    walk t (Join_with ns [SLASH]) ch = Ok out ->
    exists new, out = ch ++ new /\ NoDup (fName <$> new) /\
      forall f, f ∈ new ->
        exists names, names <> [] /\ Forall name_ok names /\
                      fName f = Join_with (ns ++ names) [SLASH].

(** No tree in the store makes [Decode] panic. *)
Definition store_decodes (r : Repository) : Prop :=
  forall h o,
    Storage_Get r h = Some o ->
    oType o = TreeObject ->
    Decode (newTree r) o <> Panic.

(** *** Notions of the further properties *)

(** Every entry is stored under its own name, with a hash of 20 bytes and
    a mode of 32 bits. *)
Definition entries_wf (m : gmap bytes TreeEntry) : Prop :=
  forall k e, m !! k = Some e ->
    eName e = k /\ length (eHash e) = HashSize /\ 0 <= eMode e < 2 ^ 32.

(** [order] ranges over the entries of each tree, each of them once. *)
Definition ranges_over_entries (order : Tree -> bytes -> list (bytes * TreeEntry))
  : Prop :=
  forall t base, order t base ≡ₚ map_to_list (Entries t).

(** [walk] puts the same files after whatever has been sent already. *)
Definition appends (walk : Tree -> bytes -> list File -> result (list File)) : Prop :=
  forall t base ch out,
    walk t base ch = Ok out ->
    exists new, out = ch ++ new /\ forall ch', walk t base ch' = Ok (ch' ++ new).

(** *** A repository to run the code on *)

Definition hash_of (c : ascii) : Hash := replicate HashSize c.

Definition blob_object (h : Hash) (content : bytes) : Object :=
  mkObject BlobObject (Z.of_nat (length content)) h (mkReader content io_EOF).

Definition tree_object (h : Hash) (recs : list record) : Object :=
  mkObject TreeObject (Z.of_nat (length (encode recs))) h
           (mkReader (encode recs) io_EOF).

Definition commit_object (h : Hash) (content : bytes) : Object :=
  mkObject CommitObject (Z.of_nat (length content)) h (mkReader content io_EOF).

(** The root directory holds a file, a directory with one file in it, and a
    submodule whose commit is not in the store. *)
Definition root_records : list record :=
  [ mkRecord (lit "100644") (lit "a.txt") (hash_of "a");
    mkRecord (lit "40000") (lit "adir") (hash_of "d");
    mkRecord (lit "160000") (lit "submodule") (hash_of "s") ].

Definition adir_records : list record :=
  [ mkRecord (lit "100644") (lit "x") (hash_of "x") ].

(** A second root: one entry, a submodule whose commit is in the store. *)
Definition pinned_records : list record :=
  [ mkRecord (lit "160000") (lit "lib") (hash_of "c") ].

Definition objects : list Object :=
  [ tree_object (hash_of "r") root_records;
    tree_object (hash_of "d") adir_records;
    tree_object (hash_of "p") pinned_records;
    blob_object (hash_of "a") (lit "hello");
    blob_object (hash_of "x") (lit "xyz");
    commit_object (hash_of "c") (lit "tree 0000 author nobody") ].

Definition repo : Repository :=
  {| Storage_Get := fun h => find (fun o => bool_decide (oHash o = h)) objects |}.

(** The tree decoded from the object stored under [h]. *)
Definition tree_at (h : Hash) : Tree :=
  match Storage_Get repo h with
  | Some o =>
      match Decode (newTree repo) o with
      | Ok (t, _) => t
      | _ => newTree repo
      end
  | None => newTree repo
  end.

Definition root : Tree := tree_at (hash_of "r").
Definition pinned_root : Tree := tree_at (hash_of "p").

(** A tree object cut off inside the mode of its second record. *)
Definition cut_in_mode : Object :=
  let content := encode adir_records ++ lit "1006" in
  mkObject TreeObject (Z.of_nat (length content)) (hash_of "t")
           (mkReader content io_EOF).

(** Cut off inside the name of its second record. *)
Definition cut_in_name : Object :=
  let content := encode adir_records ++ lit "100644 READ" in
  mkObject TreeObject (Z.of_nat (length content)) (hash_of "t")
           (mkReader content io_EOF).

(** Cut off inside the hash of its second record. *)
Definition cut_in_hash : Object :=
  let content := encode adir_records ++ lit "100644 README" ++ NUL :: lit "abc" in
  mkObject TreeObject (Z.of_nat (length content)) (hash_of "t")
           (mkReader content io_EOF).

(** Cut off right after the space that ends the mode. *)
Definition cut_after_mode : Object :=
  let content := encode adir_records ++ lit "100644 " in
  mkObject TreeObject (Z.of_nat (length content)) (hash_of "t")
           (mkReader content io_EOF).

(** A tree object of 101 well-formed records of 41 bytes each, which is
    larger than the reader's buffer: the buffer ends inside the hash of the
    hundredth record, after 16 of its bytes. *)
Definition large_records : list record :=
  replicate 101 (mkRecord (lit "100644") (lit "thirteenchars") (hash_of "a")).

Definition large_tree : Object := tree_object (hash_of "L") large_records.

(** A tree object whose mode is no octal number. *)
Definition bad_mode : Object :=
  let content := lit "10x644 README" ++ NUL :: hash_of "b" in
  mkObject TreeObject (Z.of_nat (length content)) (hash_of "t")
           (mkReader content io_EOF).

(** The entries ranged over from the last to the first. *)
Definition backwards (t : Tree) (base : bytes) : list (bytes * TreeEntry) :=
  reverse (map_to_list (Entries t)).


End git.

(** ** The [ssh] package: the transport session *)

Module ssh.

(** The error values: the package's own, [transport.ErrInvalidAuthMethod],
    the errors of the libraries called, and [fmt.Errorf]'s wrapping of a
    cause under a message. *)
Inductive error :=
| ErrAdvertistedReferencesAlreadyCalled
| ErrAlreadyConnected
| ErrAuthRequired
| ErrNotConnected
| ErrUploadPackAnswerFormat
| ErrUnsupportedVCS
| ErrUnsupportedRepo
| ErrInvalidAuthMethod
| LibraryError (msg : string)
| Errorf (msg : string) (cause : error).

(** Modelled from the spec: the package's [AuthMethod] implementations are
    not in [common.go].  The variants are the agent-based public key, the
    explicit key and the password. *)
Inductive AuthMethod :=
| Password (user pass : string)
| PublicKeys (user key : string)
| PublicKeysCallback (user : string).

(** A value of the interface [transport.AuthMethod]: nil, a value of one of
    this package's types, or a value of a type of another transport. *)
Inductive transport_AuthMethod :=
| nil_AuthMethod
| ssh_AuthMethod (a : AuthMethod)
| foreign_AuthMethod (name : string).

(** The type assertion [auth.(AuthMethod)]. *)
Definition assert_AuthMethod (auth : transport_AuthMethod) : option AuthMethod :=
  match auth with
  | ssh_AuthMethod a => Some a
  | _ => None
  end.

(** [a.clientConfig()]: the configuration handed to [ssh.Dial], which is
    determined by the method. *)
Record ClientConfig := mkClientConfig { ccUser : string; ccAuth : AuthMethod }.

Definition auth_user (a : AuthMethod) : string :=
  match a with
  | Password u _ => u
  | PublicKeys u _ => u
  | PublicKeysCallback u => u
  end.

Definition clientConfig (a : AuthMethod) : ClientConfig :=
  {| ccUser := auth_user a; ccAuth := a |}.

(** [transport.Endpoint], a URL: of its fields the session reads [Host] and
    [User]. *)
Record Userinfo := mkUserinfo { Username : string }.
Record Endpoint := mkEndpoint { Host : string; User : option Userinfo }.

(** Handles of the library objects a session points to. *)
Abbreviation handle := nat (only parsing).

Record session := mkSession {
  connected : bool;
  endpoint : Endpoint;
  client : option handle;
  session_ : option handle;
  stdin : option handle;
  stdout : option handle;
  sessionDone : option handle;
  auth : option AuthMethod
}.

(** *** The world outside the session

    [Remote] fixes how the calls into the libraries turn out: the agent
    ([NewSSHAgentAuth]), the dial, and the three steps of opening the
    command channel. *)
Record Remote := mkRemote {
  agent_auth : string -> option AuthMethod * option error;
  dial_error : string -> string -> ClientConfig -> option error;
  NewSession_error : option error;
  StdinPipe_error : option error;
  StdoutPipe_error : option error;
  Close_error : option error
}.

(** The network resources: the connections and the channels that are open
    (a channel runs over a connection), the next fresh handle, and the
    dials made so far. *)
Record Net := mkNet {
  next : handle;
  conns : list handle;
  chans : list (handle * handle);
  dialed : list (string * ClientConfig)
}.

(** [ssh.Dial]: on success a new connection is open and its handle is
    returned; on failure nothing stays open and the client is nil. *)
Definition Dial (rm : Remote) (network addr : string) (cfg : ClientConfig) (w : Net)
  : option handle * option error * Net :=
  let w1 := mkNet (next w) (conns w) (chans w) (dialed w ++ [(addr, cfg)]) in
  match dial_error rm network addr cfg with
  | Some e => (None, Some e, w1)
  | None =>
      (Some (next w), None,
       mkNet (S (next w)) (next w :: conns w) (chans w) (dialed w ++ [(addr, cfg)]))
  end.

(** [client.Close()]: the connection is closed, and its channels with it. *)
Definition Client_Close (c : handle) (w : Net) : Net :=
  mkNet (next w)
        (filter (fun c' => c' ≠ c) (conns w))
        (filter (fun ch => fst ch ≠ c) (chans w))
        (dialed w).

(** [client.NewSession()]: on success a channel is open over the
    connection. *)
Definition NewSession (rm : Remote) (c : handle) (w : Net)
  : option handle * option error * Net :=
  match NewSession_error rm with
  | Some e => (None, Some e, w)
  | None =>
      (Some (next w), None,
       mkNet (S (next w)) (conns w) ((c, next w) :: chans w) (dialed w))
  end.

(** [session.StdinPipe()] and [session.StdoutPipe()] open nothing on the
    network. *)
Definition StdinPipe (rm : Remote) (w : Net) : option handle * option error * Net :=
  match StdinPipe_error rm with
  | Some e => (None, Some e, w)
  | None => (Some (next w), None, mkNet (S (next w)) (conns w) (chans w) (dialed w))
  end.

Definition StdoutPipe (rm : Remote) (w : Net) : option handle * option error * Net :=
  match StdoutPipe_error rm with
  | Some e => (None, Some e, w)
  | None => (Some (next w), None, mkNet (S (next w)) (conns w) (chans w) (dialed w))
  end.

(** *** Field updates *)

Definition set_connected (b : bool) (s : session) : session :=
  mkSession b (endpoint s) (client s) (session_ s) (stdin s) (stdout s)
            (sessionDone s) (auth s).
Definition set_client (c : option handle) (s : session) : session :=
  mkSession (connected s) (endpoint s) c (session_ s) (stdin s) (stdout s)
            (sessionDone s) (auth s).
Definition set_session (x : option handle) (s : session) : session :=
  mkSession (connected s) (endpoint s) (client s) x (stdin s) (stdout s)
            (sessionDone s) (auth s).
Definition set_stdin (x : option handle) (s : session) : session :=
  mkSession (connected s) (endpoint s) (client s) (session_ s) x (stdout s)
            (sessionDone s) (auth s).
Definition set_stdout (x : option handle) (s : session) : session :=
  mkSession (connected s) (endpoint s) (client s) (session_ s) (stdin s) x
            (sessionDone s) (auth s).
Definition set_auth (a : option AuthMethod) (s : session) : session :=
  mkSession (connected s) (endpoint s) (client s) (session_ s) (stdin s)
            (stdout s) (sessionDone s) a.

(** *** The methods of [session]

    A method returns the error it returns in Go ([None] is nil) together
    with the session, and the network where it touches it; [panicked]
    stands for a nil dereference. *)
Inductive outcome :=
| returned (err : option error)
| panicked.

Definition SetAuth (s : session) (auth : transport_AuthMethod)
  : option error * session :=
  match assert_AuthMethod auth with
  | None => (Some ErrInvalidAuthMethod, s)
  | Some a => (None, set_auth (Some a) s)
  end.

Definition Close (rm : Remote) (s : session) (w : Net) : outcome * session * Net :=
  if negb (connected s) then (returned None, s, w)
  else
    let s1 := set_connected false s in
    match client s1 with
    | None => (panicked, s1, w)
    | Some c => (returned (Close_error rm), s1, Client_Close c w)
    end.

(** [strings.Index(host, ":") == -1] *)
Fixpoint has_colon (host : string) : bool :=
  match host with
  | EmptyString => false
  | String c rest => if decide (c = ":"%char) then true else has_colon rest
  end.

Definition getHostWithPort (s : session) : string :=
  let host := Host (endpoint s) in
  if has_colon host then host else (host ++ ":22")%string.

Definition setAuthFromEndpoint (rm : Remote) (s : session) : option error * session :=
  let u := match User (endpoint s) with
           | Some info => Username info
           | None => EmptyString
           end in
  let '(a, err) := agent_auth rm u in
  (err, set_auth a s).

Definition openSSHSession (rm : Remote) (s : session) (w : Net)
  : outcome * session * Net :=
  match client s with
  | None => (panicked, s, w)
  | Some c =>
      let '(x, err, w1) := NewSession rm c w in
      let s1 := set_session x s in
      match err with
      | Some e => (returned (Some (Errorf "cannot open SSH session: %s" e)), s1, w1)
      | None =>
          let '(x, err, w2) := StdinPipe rm w1 in
          let s2 := set_stdin x s1 in
          match err with
          | Some e => (returned (Some (Errorf "cannot pipe remote stdin: %s" e)), s2, w2)
          | None =>
              let '(x, err, w3) := StdoutPipe rm w2 in
              let s3 := set_stdout x s2 in
              match err with
              | Some e =>
                  (returned (Some (Errorf "cannot pipe remote stdout: %s" e)), s3, w3)
              | None => (returned None, s3, w3)
              end
          end
      end
  end.

Definition connect (rm : Remote) (s : session) (w : Net) : outcome * session * Net :=
  if connected s then (returned (Some ErrAlreadyConnected), s, w)
  else
    let '(err, s1) := setAuthFromEndpoint rm s in
    match err with
    | Some e => (returned (Some e), s1, w)
    | None =>
        match auth s1 with
        | None => (panicked, s1, w)
        | Some a =>
            let '(c, err, w1) := Dial rm "tcp" (getHostWithPort s1) (clientConfig a) w in
            let s2 := set_client c s1 in
            match err with
            | Some e => (returned (Some e), s2, w1)
            | None =>
                match openSSHSession rm s2 w1 with
                | (returned (Some e), s3, w2) =>
                    match client s3 with
                    | None => (panicked, s3, w2)
                    | Some c => (returned (Some e), s3, Client_Close c w2)
                    end
                | (returned None, s3, w2) => (returned None, set_connected true s3, w2)
                | (panicked, s3, w2) => (panicked, s3, w2)
                end
            end
        end
    end.

(** The user name [setAuthFromEndpoint] asks the agent with: the
    endpoint's, or the empty string. *)
Definition endpoint_user (s : session) : string :=
  match User (endpoint s) with
  | Some info => Username info
  | None => EmptyString
  end.

(** *** Sequences of calls on one session *)

Inductive call :=
| call_SetAuth (auth : transport_AuthMethod)
| call_connect (rm : Remote)
| call_Close (rm : Remote).

Definition do_call (c : call) (s : session) (w : Net) : outcome * session * Net :=
  match c with
  | call_SetAuth a => let '(err, s') := SetAuth s a in (returned err, s', w)
  | call_connect rm => connect rm s w
  | call_Close rm => Close rm s w
  end.

(** The calls are made one after the other, up to the first that panics. *)
Fixpoint do_calls (cs : list call) (s : session) (w : Net)
  : list outcome * session * Net :=
  match cs with
  | [] => ([], s, w)
  | c :: cs' =>
      let '(o, s1, w1) := do_call c s w in
      match o with
      | panicked => ([panicked], s1, w1)
      | returned _ =>
          let '(os, s2, w2) := do_calls cs' s1 w1 in (o :: os, s2, w2)
      end
  end.

(** *** Notions the properties are stated with *)

(** Every field other than [auth] is the same in both sessions. *)
Definition same_but_auth (s s' : session) : Prop :=
  connected s' = connected s /\ endpoint s' = endpoint s /\
  client s' = client s /\ session_ s' = session_ s /\
  stdin s' = stdin s /\ stdout s' = stdout s /\
  sessionDone s' = sessionDone s.

(** Nothing is open in [w'] that was not open in [w]. *)
Definition nothing_left_open (w w' : Net) : Prop :=
  (forall c, c ∈ conns w' -> c ∈ conns w) /\
  (forall ch, ch ∈ chans w' -> ch ∈ chans w).

(** The agent gives a method whenever it gives no error. *)
Definition agent_answers (rm : Remote) : Prop :=
  forall u, snd (agent_auth rm u) = None -> fst (agent_auth rm u) <> None.

Definition call_ok (c : call) : Prop :=
  match c with
  | call_connect rm => agent_answers rm
  | _ => True
  end.

(** The session and the network agree: a connected session has its
    handles set, and its connection and its channel are all that is open;
    with a disconnected session nothing is open. *)
Definition owns (s : session) (w : Net) : Prop :=
  if connected s then
    exists c ch,
      client s = Some c /\ session_ s = Some ch /\
      stdin s <> None /\ stdout s <> None /\ auth s <> None /\
      conns w = [c] /\ chans w = [(c, ch)]
  else conns w = [] /\ chans w = [].

(** *** Sessions and remotes to run the methods on *)

Definition github : Endpoint :=
  {| Host := "github.com"; User := Some (mkUserinfo "git") |}.

(** A session as its constructor leaves it: bound to the endpoint, all else
    zero. *)
Definition newSession (ep : Endpoint) : session :=
  mkSession false ep None None None None None None.

Definition idle : Net := mkNet 0 [] [] [].

(** A remote where every step succeeds and the agent offers the user's
    keys. *)
Definition willing : Remote :=
  {| agent_auth := fun u => (Some (PublicKeysCallback u), None);
     dial_error := fun _ _ _ => None;
     NewSession_error := None;
     StdinPipe_error := None;
     StdoutPipe_error := None;
     Close_error := None |}.

(** No agent is running. *)
Definition no_agent : Remote :=
  {| agent_auth := fun _ => (None, Some (LibraryError "SSH_AUTH_SOCK is empty"));
     dial_error := fun _ _ _ => None;
     NewSession_error := None;
     StdinPipe_error := None;
     StdoutPipe_error := None;
     Close_error := None |}.

(** The host refuses the connection. *)
Definition unreachable : Remote :=
  {| agent_auth := fun u => (Some (PublicKeysCallback u), None);
     dial_error := fun _ _ _ => Some (LibraryError "connection refused");
     NewSession_error := None;
     StdinPipe_error := None;
     StdoutPipe_error := None;
     Close_error := None |}.

(** The connection is made and the channel opens, but its input cannot be
    piped. *)
Definition no_stdin : Remote :=
  {| agent_auth := fun u => (Some (PublicKeysCallback u), None);
     dial_error := fun _ _ _ => None;
     NewSession_error := None;
     StdinPipe_error := Some (LibraryError "ssh: Stdin already set");
     StdoutPipe_error := None;
     Close_error := None |}.

(** A session that is connected: the result of [connect] on a willing
    remote. *)
Definition connected_session : session := snd (fst (connect willing (newSession github) idle)).
Definition connected_net : Net := snd (connect willing (newSession github) idle).

(** A session set up, connected, closed, and connected again against
    remotes that fail in different ways. *)
Definition session_calls : list call :=
  [ call_SetAuth (ssh_AuthMethod (Password "git" "secret"));
    call_SetAuth nil_AuthMethod;
    call_connect willing; call_connect willing;
    call_Close willing; call_Close willing;
    call_connect no_agent; call_connect unreachable; call_connect no_stdin;
    call_connect willing ].

End ssh.

(** * Properties of the transport session *)

Section Session.

Import ssh.

Variable rm : Remote.

(** ** [SetAuth] *)

Lemma SetAuth_rejects (s : session) (a : transport_AuthMethod) :
  assert_AuthMethod a = None -> SetAuth s a = (Some ErrInvalidAuthMethod, s).
Proof. intros Ha. unfold SetAuth. now rewrite Ha. Qed.

Lemma SetAuth_accepts (s : session) (a : transport_AuthMethod) (m : AuthMethod) :
  assert_AuthMethod a = Some m -> SetAuth s a = (None, set_auth (Some m) s).
Proof. intros Ha. unfold SetAuth. now rewrite Ha. Qed.

Lemma set_auth_same_but_auth (s : session) (a : option AuthMethod) :
  same_but_auth s (set_auth a s).
Proof. repeat split. Qed.

(** ** [connect] *)

(** The steps of [connect] never flip [connected] on their own. *)
Lemma setAuthFromEndpoint_connected (s s' : session) (err : option error) :
  setAuthFromEndpoint rm s = (err, s') -> connected s' = connected s.
Proof.
  unfold setAuthFromEndpoint. destruct (agent_auth rm _) as [a e].
  intros [= _ <-]. reflexivity.
Qed.

Lemma openSSHSession_connected (s s' : session) (w w' : Net) (o : outcome) :
  openSSHSession rm s w = (o, s', w') -> connected s' = connected s.
Proof.
  unfold openSSHSession, NewSession, StdinPipe, StdoutPipe.
  destruct (client s); [|now intros [= _ <- _]].
  destruct (NewSession_error rm); [now intros [= _ <- _]|].
  destruct (StdinPipe_error rm); [now intros [= _ <- _]|].
  destruct (StdoutPipe_error rm); now intros [= _ <- _].
Qed.

Lemma openSSHSession_client (s s' : session) (w w' : Net) (o : outcome) :
  openSSHSession rm s w = (o, s', w') -> client s' = client s.
Proof.
  unfold openSSHSession, NewSession, StdinPipe, StdoutPipe.
  destruct (client s) eqn:Hc; [|intros [= _ <- _]; exact Hc].
  destruct (NewSession_error rm); [intros [= _ <- _]; exact Hc|].
  destruct (StdinPipe_error rm); [intros [= _ <- _]; exact Hc|].
  destruct (StdoutPipe_error rm); intros [= _ <- _]; exact Hc.
Qed.

(** Opening the command channel opens no connection, and every channel it
    opens runs over the session's connection. *)
Lemma openSSHSession_net (s s' : session) (w w' : Net) (o : outcome) (c : nat) :
  client s = Some c ->
  openSSHSession rm s w = (o, s', w') ->
  conns w' = conns w /\
  (forall ch, ch ∈ chans w' -> ch ∈ chans w \/ fst ch = c).
Proof.
  unfold openSSHSession, NewSession, StdinPipe, StdoutPipe. intros ->.
  destruct (NewSession_error rm); [intros [= _ _ <-]; split; auto|].
  destruct (StdinPipe_error rm);
    [intros [= _ _ <-]; split; [reflexivity|]; simpl; intros ch Hch;
     apply elem_of_cons in Hch as [->|Hch]; auto|].
  destruct (StdoutPipe_error rm);
    intros [= _ _ <-]; (split; [reflexivity|]); simpl; intros ch Hch;
    apply elem_of_cons in Hch as [->|Hch]; auto.
Qed.

Lemma Client_Close_conns (c x : nat) (w : Net) :
  x ∈ conns (Client_Close c w) <-> x ∈ conns w /\ x ≠ c.
Proof. unfold Client_Close. simpl. rewrite list_elem_of_filter. tauto. Qed.

Lemma Client_Close_chans (c : nat) (ch : nat * nat) (w : Net) :
  ch ∈ chans (Client_Close c w) <-> ch ∈ chans w /\ fst ch ≠ c.
Proof. unfold Client_Close. simpl. rewrite list_elem_of_filter. tauto. Qed.

End Session.

Section Connect.

Import ssh.

Variable rm : Remote.

(** What [connect] does from a disconnected session, step by step. *)
Lemma connect_disconnected (s : session) (w : Net) :
  connected s = false ->
  connect rm s w =
    let '(err, s1) := setAuthFromEndpoint rm s in
    match err with
    | Some e => (returned (Some e), s1, w)
    | None =>
        match auth s1 with
        | None => (panicked, s1, w)
        | Some a =>
            let '(c, err, w1) := Dial rm "tcp" (getHostWithPort s1) (clientConfig a) w in
            let s2 := set_client c s1 in
            match err with
            | Some e => (returned (Some e), s2, w1)
            | None =>
                match openSSHSession rm s2 w1 with
                | (returned (Some e), s3, w2) =>
                    match client s3 with
                    | None => (panicked, s3, w2)
                    | Some c => (returned (Some e), s3, Client_Close c w2)
                    end
                | (returned None, s3, w2) => (returned None, set_connected true s3, w2)
                | (panicked, s3, w2) => (panicked, s3, w2)
                end
            end
        end
    end.
Proof. intros Hs. unfold connect. now rewrite Hs. Qed.

(** [connect] overwrites the [auth] field before it reads it: the method
    stored in the session has no influence on what [connect] does. *)
Lemma connect_forgets_auth (s : session) (a : option AuthMethod) (w : Net) :
  connected s = false ->
  connect rm (set_auth a s) w = connect rm s w.
Proof.
  intros Hs. rewrite !connect_disconnected by (simpl; assumption).
  unfold setAuthFromEndpoint. simpl.
  destruct (agent_auth rm _) as [a' e]. reflexivity.
Qed.

(** C8: on a session in the Connected state [connect] fails with
    [ErrAlreadyConnected]; the session and the network are as before. *)
Theorem connect_twice_AlreadyConnected (s : session) (w : Net) :
  connected s = true ->
  connect rm s w = (returned (Some ErrAlreadyConnected), s, w).
Proof. intros Hs. unfold connect. now rewrite Hs. Qed.

(** C9: when [connect], called on a disconnected session, returns an error
    (from resolving the auth method, from the dial, or from opening the
    command channel), the session is still disconnected and no connection
    or channel is open that was not open before the call. *)
Theorem connect_failure_rolled_back
    (s s' : session) (w w' : Net) (e : error) :
  connected s = false ->
  connect rm s w = (returned (Some e), s', w') ->
  connected s' = false /\ nothing_left_open w w'.
Proof.
  intros Hs. rewrite connect_disconnected by assumption.
  destruct (setAuthFromEndpoint rm s) as [err s1] eqn:Hauth.
  apply setAuthFromEndpoint_connected in Hauth. rewrite Hs in Hauth.
  destruct err as [e1|].
  { intros [= _ <- <-]. split; [assumption|]. split; auto. }
  destruct (auth s1) as [a|]; [|discriminate].
  unfold Dial. destruct (dial_error rm _ _ _) as [e2|].
  { intros [= _ <- <-]. split; [assumption|]. split; auto. }
  set (s2 := set_client (Some (next w)) s1).
  set (w1 := mkNet _ _ _ _).
  destruct (openSSHSession rm s2 w1) as [[o s3] w2] eqn:Hopen.
  pose proof (openSSHSession_connected _ _ _ _ _ _ Hopen) as Hc.
  pose proof (openSSHSession_client _ _ _ _ _ _ Hopen) as Hcl.
  destruct (openSSHSession_net rm s2 s3 w1 w2 o (next w) eq_refl Hopen) as [Hconns Hchans].
  destruct o as [[e3|]|]; [|discriminate|discriminate].
  rewrite Hcl. simpl. intros [= _ <- <-].
  split; [rewrite Hc; exact Hauth|]. split.
  - intros c [Hin Hne]%Client_Close_conns. rewrite Hconns in Hin. subst w1. simpl in Hin.
    apply elem_of_cons in Hin as [->|Hin]; [contradiction|assumption].
  - intros ch [Hin Hne]%Client_Close_chans.
    destruct (Hchans ch Hin) as [H|H]; [exact H|contradiction].
Qed.

End Connect.

Section SessionClaims.

Import ssh.

(** C10: [SetAuth] with a value that is not one of this package's auth
    methods returns [ErrInvalidAuthMethod] and leaves the session as it was;
    with one of them it returns no error and stores it, and every other
    field is as before. *)
Theorem SetAuth_checks_the_method (s : session) (a : transport_AuthMethod) :
  (assert_AuthMethod a = None ->
   SetAuth s a = (Some ErrInvalidAuthMethod, s)) /\
  (forall m, a = ssh_AuthMethod m ->
   exists s', SetAuth s a = (None, s') /\ auth s' = Some m /\ same_but_auth s s').
Proof.
  split.
  - apply SetAuth_rejects.
  - intros m ->. exists (set_auth (Some m) s). repeat split.
Qed.

Lemma SetAuth_checks_the_method_witness :
  SetAuth connected_session (foreign_AuthMethod "http-basic-auth")
    = (Some ErrInvalidAuthMethod, connected_session) /\
  SetAuth connected_session nil_AuthMethod
    = (Some ErrInvalidAuthMethod, connected_session) /\
  exists s', SetAuth (newSession github) (ssh_AuthMethod (Password "git" "secret"))
               = (None, s') /\
             auth s' = Some (Password "git" "secret") /\
             same_but_auth (newSession github) s'.
Proof.
  split; [|split].
  - apply (proj1 (SetAuth_checks_the_method connected_session
                    (foreign_AuthMethod "http-basic-auth"))).
    reflexivity.
  - apply (proj1 (SetAuth_checks_the_method connected_session nil_AuthMethod)).
    reflexivity.
  - apply (proj2 (SetAuth_checks_the_method (newSession github)
                    (ssh_AuthMethod (Password "git" "secret")))).
    reflexivity.
Defined.

Lemma connect_twice_AlreadyConnected_witness :
  connected connected_session = true /\
  connect willing connected_session connected_net
    = (returned (Some ErrAlreadyConnected), connected_session, connected_net).
Proof.
  split; [reflexivity|].
  apply (connect_twice_AlreadyConnected willing connected_session connected_net).
  reflexivity.
Defined.

(** The three steps [connect] can fail at, each on a remote that fails
    there. *)
Lemma connect_failure_rolled_back_witness :
  (fst (fst (connect no_agent (newSession github) idle))
     = returned (Some (LibraryError "SSH_AUTH_SOCK is empty")) /\
   connected (snd (fst (connect no_agent (newSession github) idle))) = false /\
   nothing_left_open idle (snd (connect no_agent (newSession github) idle))) /\
  (fst (fst (connect unreachable (newSession github) idle))
     = returned (Some (LibraryError "connection refused")) /\
   connected (snd (fst (connect unreachable (newSession github) idle))) = false /\
   nothing_left_open idle (snd (connect unreachable (newSession github) idle))) /\
  (fst (fst (connect no_stdin (newSession github) idle))
     = returned (Some (Errorf "cannot pipe remote stdin: %s"
                         (LibraryError "ssh: Stdin already set"))) /\
   connected (snd (fst (connect no_stdin (newSession github) idle))) = false /\
   nothing_left_open idle (snd (connect no_stdin (newSession github) idle))).
Proof.
  split; [|split]; (split; [reflexivity|]).
  - eapply (connect_failure_rolled_back no_agent (newSession github) _ idle _ _);
      reflexivity.
  - eapply (connect_failure_rolled_back unreachable (newSession github) _ idle _ _);
      reflexivity.
  - eapply (connect_failure_rolled_back no_stdin (newSession github) _ idle _ _);
      reflexivity.
Defined.

(** C3, on the code: a password method is set with [SetAuth] on a new
    session, then [connect] is called.  On a remote where all goes well the
    dial is made with the agent's key method, which also replaces the
    password method in the session; where no agent runs, [connect] fails
    with the agent's error before any dial.  The method set is used in
    neither case. *)
Theorem connect_discards_the_method_set :
  let chosen := Password "git" "secret" in
  let s1 := snd (SetAuth (newSession github) (ssh_AuthMethod chosen)) in
  auth s1 = Some chosen /\
  (exists s' w',
      connect willing s1 idle = (returned None, s', w') /\
      auth s' = Some (PublicKeysCallback "git") /\
      dialed w' = [("github.com:22"%string, clientConfig (PublicKeysCallback "git"))]) /\
  (exists s',
      connect no_agent s1 idle
        = (returned (Some (LibraryError "SSH_AUTH_SOCK is empty")), s', idle) /\
      auth s' = None).
Proof.
  split; [reflexivity|]. split.
  - eexists _, _. split; [reflexivity|]. split; reflexivity.
  - eexists. split; reflexivity.
Qed.

End SessionClaims.

(** * Properties of the tree decoder *)

Section Decoding.

Import git.

(** ** Reading up to a delimiter *)

Lemma cut_at_inv (d : ascii) (s a b : bytes) :
  cut_at d s = Some (a, b) ->
  exists pre, a = pre ++ [d] /\ (d ∉ pre) /\ s = a ++ b.
Proof.
  revert a b. induction s as [|c s IH]; intros a b; simpl; [discriminate|].
  destruct (decide (c = d)) as [->|Hne].
  - intros [= <- <-]. exists []. repeat split. apply not_elem_of_nil.
  - destruct (cut_at d s) as [[a' b']|]; [|discriminate].
    intros [= <- <-]. destruct (IH _ _ eq_refl) as (pre & -> & Hpre & ->).
    exists (c :: pre). repeat split.
    intros [?|?]%elem_of_cons; [congruence|contradiction].
Qed.

Lemma cut_at_app (d : ascii) (pre rest : bytes) :
  d ∉ pre -> cut_at d (pre ++ d :: rest) = Some (pre ++ [d], rest).
Proof.
  induction pre as [|c pre IH]; simpl; intros Hd.
  - now rewrite decide_True.
  - apply not_elem_of_cons in Hd as [Hc Hd].
    rewrite decide_False by congruence. now rewrite IH.
Qed.

Lemma cut_at_none (d : ascii) (s : bytes) :
  d ∉ s -> cut_at d s = None.
Proof.
  induction s as [|c s IH]; simpl; [reflexivity|]. intros Hd.
  apply not_elem_of_cons in Hd as [Hc Hd].
  rewrite decide_False by congruence. now rewrite IH.
Qed.

(** ** The buffered reader gives the stream's bytes in order *)

Lemma fill_unread (b : bufio_Reader) : unread (fill b) = unread b.
Proof.
  unfold unread, fill. cbn [buffered rd pending].
  now rewrite <- app_assoc, take_drop.
Qed.

Lemma fill_final (b : bufio_Reader) : final (rd (fill b)) = final (rd b).
Proof. reflexivity. Qed.

(** What [ReadString_loop] returns, followed by what is left unread, is
    what was collected and unread before; an error is the stream's final
    one, and without error at least one byte was taken. *)
Lemma ReadString_loop_spec (fuel : nat) (d : ascii) :
  forall (frags : bytes) (b b' : bufio_Reader) (out : bytes) (err : option ReadErr),
    ReadString_loop fuel d frags b = (out, err, b') ->
    out ++ unread b' = frags ++ unread b /\
    final (rd b') = final (rd b) /\
    (forall e, err = Some e -> e = final (rd b)) /\
    (err = None -> (length frags < length out)%nat).
Proof.
  assert (Hend : forall frags b b' out err,
             cut_at d (buffered b) = None ->
             (frags ++ buffered b, Some (final (rd b)), mkBufio [] (rd b)) = (out, err, b') ->
             out ++ unread b' = frags ++ unread b /\
             final (rd b') = final (rd b) /\
             (forall e, err = Some e -> e = final (rd b)) /\
             (err = None -> (length frags < length out)%nat)).
  { intros frags b b' out err _ [= <- <- <-]. unfold unread. cbn [buffered rd].
    rewrite <- app_assoc. split; [reflexivity|]. split; [reflexivity|].
    split; [now intros e [= <-]|discriminate]. }
  induction fuel as [|fuel IH]; intros frags b b' out err.
  - cbn [ReadString_loop].
    destruct (cut_at d (buffered b)) as [[s rest]|] eqn:Hcut.
    + intros [= <- <- <-].
      destruct (cut_at_inv _ _ _ _ Hcut) as (pre & -> & _ & Hb).
      unfold unread. cbn [buffered rd]. rewrite Hb, <- !app_assoc.
      split; [reflexivity|]. split; [reflexivity|]. split; [discriminate|].
      intros _. rewrite !length_app. simpl. lia.
    + destruct (pending (rd b)); now apply Hend.
  - cbn [ReadString_loop].
    destruct (cut_at d (buffered b)) as [[s rest]|] eqn:Hcut.
    + intros [= <- <- <-].
      destruct (cut_at_inv _ _ _ _ Hcut) as (pre & -> & _ & Hb).
      unfold unread. cbn [buffered rd]. rewrite Hb, <- !app_assoc.
      split; [reflexivity|]. split; [reflexivity|]. split; [discriminate|].
      intros _. rewrite !length_app. simpl. lia.
    + destruct (pending (rd b)) as [|c p] eqn:Hp; [now apply Hend|].
      destruct (defaultBufSize <=? length (buffered b))%nat.
      * intros H. apply IH in H as (H1 & H2 & H3 & H4).
        rewrite fill_unread in H1. unfold unread in H1 at 2. cbn [buffered rd] in H1.
        unfold unread at 2. rewrite H1, <- app_assoc.
        split; [reflexivity|]. split; [assumption|]. split; [assumption|].
        intros He. specialize (H4 He). rewrite length_app in H4. lia.
      * intros H. apply IH in H as (H1 & H2 & H3 & H4).
        rewrite fill_unread in H1. auto.
Qed.

Lemma ReadString_spec (d : ascii) (b b' : bufio_Reader) (s : bytes) (err : option ReadErr) :
  ReadString d b = (s, err, b') ->
  s ++ unread b' = unread b /\
  final (rd b') = final (rd b) /\
  (forall e, err = Some e -> e = final (rd b)) /\
  (err = None -> s <> []).
Proof.
  unfold ReadString. intros H. apply ReadString_loop_spec in H as (H1 & H2 & H3 & H4).
  split; [assumption|]. split; [assumption|]. split; [assumption|].
  intros He ->. specialize (H4 He). simpl in H4. lia.
Qed.

Lemma ReadString_unread (d : ascii) (b b' : bufio_Reader) (s : bytes) (err : option ReadErr) :
  ReadString d b = (s, err, b') ->
  (length (unread b') <= length (unread b))%nat /\
  (err = None -> (length (unread b') < length (unread b))%nat).
Proof.
  intros (H1 & _ & _ & H4)%ReadString_spec. rewrite <- H1, length_app.
  split; [lia|]. intros He. specialize (H4 He). destruct s; [contradiction|simpl; lia].
Qed.

Lemma defaultBufSize_pos : (0 < defaultBufSize)%nat.
Proof. apply Nat.ltb_lt. reflexivity. Qed.

Lemma fill_pending (b : bufio_Reader) :
  (length (buffered b) < defaultBufSize)%nat ->
  pending (rd b) <> [] ->
  (length (pending (rd (fill b))) < length (pending (rd b)))%nat.
Proof.
  intros Hroom Hp. unfold fill. cbn [rd pending]. rewrite length_drop.
  destruct (pending (rd b)); [contradiction|]. cbn [length]. lia.
Qed.

(** [ReadString] returns an error only when it has given out all the
    bytes of the stream: the fuel of [ReadString_loop] is not what stops
    it. *)
Lemma ReadString_loop_error (fuel : nat) (d : ascii) :
  forall (frags : bytes) (b b' : bufio_Reader) (out : bytes) (e : ReadErr),
    (length (pending (rd b)) <= fuel)%nat ->
    ReadString_loop fuel d frags b = (out, Some e, b') ->
    unread b' = [].
Proof.
  induction fuel as [|fuel IH]; intros frags b b' out e Hfuel.
  - cbn [ReadString_loop].
    destruct (cut_at d (buffered b)) as [[s rest]|]; [discriminate|].
    destruct (pending (rd b)) as [|c p] eqn:Hp; [|cbn [length] in Hfuel; lia].
    intros [= _ _ <-]. unfold unread. cbn [buffered rd]. now rewrite Hp.
  - cbn [ReadString_loop].
    destruct (cut_at d (buffered b)) as [[s rest]|]; [discriminate|].
    destruct (pending (rd b)) as [|c p] eqn:Hp.
    { intros [= _ _ <-]. unfold unread. cbn [buffered rd]. now rewrite Hp. }
    destruct (defaultBufSize <=? length (buffered b))%nat eqn:Hfull.
    + apply IH.
      assert (Hlt := fill_pending (mkBufio [] (rd b)) defaultBufSize_pos).
      cbn [rd] in Hlt. rewrite Hp in Hlt. specialize (Hlt ltac:(discriminate)).
      cbn [length] in *. lia.
    + apply IH. apply Nat.leb_gt in Hfull.
      assert (Hlt := fill_pending b Hfull). rewrite Hp in Hlt.
      specialize (Hlt ltac:(discriminate)). cbn [length] in *. lia.
Qed.

Lemma ReadString_error_at_end (d : ascii) (b b' : bufio_Reader) (s : bytes) (e : ReadErr) :
  ReadString d b = (s, Some e, b') -> unread b' = [] /\ s = unread b.
Proof.
  intros H. pose proof H as H'. apply ReadString_loop_error in H; [|lia].
  apply ReadString_spec in H' as (Hs & _). rewrite H, app_nil_r in Hs. auto.
Qed.

Lemma Read_spec (n : nat) (b b' : bufio_Reader) (got : bytes) (err : option ReadErr) :
  Read n b = (got, err, b') ->
  got ++ unread b' = unread b /\
  final (rd b') = final (rd b) /\
  (forall e, err = Some e -> e = final (rd b)).
Proof.
  unfold Read. set (b1 := match buffered b with [] => fill b | _ => b end).
  assert (Hb1 : unread b1 = unread b /\ final (rd b1) = final (rd b)).
  { subst b1. destruct (buffered b); [split; [apply fill_unread|reflexivity]|auto]. }
  destruct Hb1 as [Hu Hf]. clearbody b1.
  destruct (buffered b1) as [|c s] eqn:Hbuf.
  - intros [= <- <- <-]. rewrite Hf.
    split; [assumption|]. split; [reflexivity|]. now intros e [= <-].
  - intros [= <- <- <-]. cbn [rd]. rewrite Hf.
    split; [|split; [reflexivity|discriminate]].
    rewrite <- Hu. unfold unread. cbn [buffered rd]. rewrite Hbuf.
    now rewrite app_assoc, take_drop.
Qed.

Lemma Read_unread (n : nat) (b b' : bufio_Reader) (got : bytes) (err : option ReadErr) :
  Read n b = (got, err, b') ->
  (length (unread b') <= length (unread b))%nat.
Proof. intros (H1 & _)%Read_spec. rewrite <- H1, length_app. lia. Qed.

(** ** [Decode] always comes to an end *)

Lemma dropLast_cons (c : ascii) (s : bytes) :
  dropLast (c :: s) = Ok (removelast (c :: s)).
Proof. reflexivity. Qed.

Lemma dropLast_snoc (s : bytes) (c : ascii) :
  dropLast (s ++ [c]) = Ok s.
Proof.
  unfold dropLast. rewrite removelast_last.
  destruct s; reflexivity.
Qed.

(** One turn of the loop. *)
Lemma Decode_loop_S (fuel : nat) (entries : gmap bytes TreeEntry) (r : bufio_Reader) :
  Decode_loop (S fuel) entries r =
    let '(mode, err, r1) := ReadString SP r in
    match err with
    | Some io_EOF => Ok (entries, None)
    | Some e => Ok (entries, Some (ReadError e))
    | None =>
        let? digits := dropLast mode in
        match ParseInt digits with
        | inl e => Ok (entries, Some (NumError e))
        | inr fm =>
            let '(name, err, r2) := ReadString NUL r1 in
            match other_than_EOF err with
            | Some e => Ok (entries, Some (ReadError e))
            | None =>
                let '(got, err, r3) := Read HashSize r2 in
                match other_than_EOF err with
                | Some e => Ok (entries, Some (ReadError e))
                | None =>
                    let hash := fill_hash got in
                    let? baseName := dropLast name in
                    Decode_loop fuel
                      (<[baseName := mkTreeEntry baseName (FileMode fm) hash]> entries)
                      r3
                end
            end
        end
    end.
Proof. reflexivity. Qed.

(** With more fuel than bytes, the loop is left before the fuel is spent. *)
Lemma Decode_loop_terminates (fuel : nat) (acc : gmap bytes TreeEntry) (b : bufio_Reader) :
  (length (unread b) < fuel)%nat ->
  Decode_loop fuel acc b <> Diverge.
Proof.
  revert acc b. induction fuel as [|fuel IH]; intros acc b Hlen; [lia|].
  rewrite Decode_loop_S.
  destruct (ReadString SP b) as [[mode err] b1] eqn:H1.
  destruct (ReadString_unread _ _ _ _ _ H1) as [_ Hlt1].
  destruct err as [[|m]|]; [discriminate|discriminate|].
  specialize (Hlt1 eq_refl).
  destruct mode as [|c mode]; [discriminate|].
  rewrite dropLast_cons. cbn [bind].
  destruct (ParseInt _) as [e|fm]; [discriminate|].
  destruct (ReadString NUL b1) as [[name err2] b2] eqn:H2.
  destruct (ReadString_unread _ _ _ _ _ H2) as [Hle2 _].
  destruct (other_than_EOF err2); [discriminate|].
  destruct (Read HashSize b2) as [[got err3] b3] eqn:H3.
  apply Read_unread in H3.
  destruct (other_than_EOF err3); [discriminate|].
  destruct name as [|c' name]; [discriminate|].
  rewrite dropLast_cons. cbn [bind].
  apply IH. lia.
Qed.

(** What the loop returns as a Go error comes with the entries decoded so
    far: it never comes out as [Err]. *)
Lemma Decode_loop_not_Err (fuel : nat) (acc : gmap bytes TreeEntry) (b : bufio_Reader) (e : error) :
  Decode_loop fuel acc b <> Err e.
Proof.
  revert acc b. induction fuel as [|fuel IH]; intros acc b; [discriminate|].
  rewrite Decode_loop_S.
  destruct (ReadString SP b) as [[mode err] b1].
  destruct err as [[|m]|]; [discriminate|discriminate|].
  destruct mode as [|c mode]; [discriminate|].
  rewrite dropLast_cons. cbn [bind].
  destruct (ParseInt _) as [e'|fm]; [discriminate|].
  destruct (ReadString NUL b1) as [[name err2] b2].
  destruct (other_than_EOF err2); [discriminate|].
  destruct (Read HashSize b2) as [[got err3] b3].
  destruct (other_than_EOF err3); [discriminate|].
  destruct name as [|c' name]; [discriminate|].
  rewrite dropLast_cons. cbn [bind].
  apply IH.
Qed.

(** [Decode] returns, with or without an error, or panics. *)
Lemma Decode_returns_or_panics (t : Tree) (o : Object) :
  (exists t' err, Decode t o = Ok (t', err)) \/ Decode t o = Panic.
Proof.
  unfold Decode. destruct (oSize o =? 0); [left; eauto|].
  destruct (Decode_loop _ ∅ _) as [[m err]|e| |] eqn:Hloop; cbn [bind].
  - left. eauto.
  - now apply Decode_loop_not_Err in Hloop.
  - now right.
  - apply Decode_loop_terminates in Hloop; [contradiction|lia].
Qed.

(** [Decode] keeps the receiver's repository. *)
Lemma Decode_repository (t t' : Tree) (o : Object) (err : option error) :
  Decode t o = Ok (t', err) -> tr t' = tr t.
Proof.
  unfold Decode. destruct (oSize o =? 0); [now intros [= <- _]|].
  destruct (Decode_loop _ _ _) as [[m e]| | |]; cbn [bind]; try discriminate.
  now intros [= <- _].
Qed.

(** A declared size of zero: the content is not read and the receiver's
    entries stay as they are. *)
Lemma Decode_zero_size_keeps_entries (t : Tree) (o : Object) :
  oSize o = 0 ->
  Decode t o = Ok (mkTree (Entries t) (oHash o) (tr t), None).
Proof. intros Hz. unfold Decode. now rewrite Hz. Qed.

(** C6: an object of declared size zero decodes, into a new tree, without
    error and to an empty entry mapping. *)
Theorem Decode_zero_size_empty (r : Repository) (o : Object) :
  oSize o = 0 ->
  Decode (newTree r) o = Ok (mkTree ∅ (oHash o) r, None).
Proof. intros Hz. now rewrite Decode_zero_size_keeps_entries. Qed.

Lemma Decode_zero_size_empty_witness :
  let o := mkObject TreeObject 0 (hash_of "e") (mkReader [] io_EOF) in
  oSize o = 0 /\
  Decode (newTree repo) o = Ok (mkTree ∅ (hash_of "e") repo, None).
Proof.
  split; [reflexivity|].
  apply (Decode_zero_size_empty repo (mkObject TreeObject 0 (hash_of "e") (mkReader [] io_EOF))).
  reflexivity.
Defined.

End Decoding.

Section Records.

Import git.

(** ** A mode that parses holds no space *)

Lemma ParseUint_loop_digits (n un : Z) (s : bytes) :
  ParseUint_loop n s = inr un -> Forall (fun c => octal_digit c <> None) s.
Proof.
  revert n. induction s as [|c s IH]; intros n; simpl; [constructor|].
  destruct (octal_digit c) as [d|] eqn:Hd; [|discriminate].
  destruct (_ >? _); [discriminate|].
  intros H. constructor; [congruence|eauto].
Qed.

Lemma ParseInt_no_space (s : bytes) (fm : Z) :
  ParseInt s = inr fm -> SP ∉ s.
Proof.
  destruct s as [|c s]; simpl; [discriminate|].
  set (digits := if decide _ then _ else _).
  destruct (ParseUint digits) as [e|un] eqn:Hun; [discriminate|]. intros _.
  assert (Hall : Forall (fun c => octal_digit c <> None) digits).
  { unfold ParseUint in Hun. destruct digits; [discriminate|].
    eapply ParseUint_loop_digits; eassumption. }
  assert (Hsp : forall l, Forall (fun c => octal_digit c <> None) l -> SP ∉ l).
  { intros l Hl Hin. rewrite Forall_forall in Hl. now apply (Hl SP Hin). }
  subst digits. destruct (decide _) as [[->| ->]|Hns].
  - intros [?|?]%elem_of_cons; [discriminate|]. now apply (Hsp s).
  - intros [?|?]%elem_of_cons; [discriminate|]. now apply (Hsp s).
  - now apply Hsp.
Qed.

(** ** A reader that has the whole content in its buffer *)

Lemma ReadString_loop_drained (fuel : nat) (d : ascii) (frags buf : bytes) (fin : ReadErr) :
  ReadString_loop fuel d frags (mkBufio buf (mkReader [] fin)) =
    match cut_at d buf with
    | Some (s, rest) => (frags ++ s, None, mkBufio rest (mkReader [] fin))
    | None => (frags ++ buf, Some fin, mkBufio [] (mkReader [] fin))
    end.
Proof.
  destruct fuel; cbn [ReadString_loop buffered rd pending final];
    destruct (cut_at d buf) as [[s rest]|]; reflexivity.
Qed.

Lemma ReadString_whole (d : ascii) (b : bufio_Reader) :
  whole b ->
  ReadString d b =
    match cut_at d (unread b) with
    | Some (s, rest) => (s, None, mkBufio rest (mkReader [] (final (rd b))))
    | None => (unread b, Some (final (rd b)), mkBufio [] (mkReader [] (final (rd b))))
    end.
Proof.
  destruct b as [buf [pend fin]]. unfold whole, unread, ReadString.
  cbn [buffered rd pending final].
  intros [->|[-> Hlen]].
  - rewrite app_nil_r. apply ReadString_loop_drained.
  - cbn [app]. destruct pend as [|c pend]; [reflexivity|].
    cbn [length ReadString_loop buffered rd pending final].
    change (cut_at d []) with (@None (bytes * bytes)). cbv iota.
    assert (Hfull : (defaultBufSize <=? 0)%nat = false) by reflexivity.
    rewrite Hfull.
    assert (Hfill : fill (mkBufio [] (mkReader (c :: pend) fin))
                    = mkBufio (c :: pend) (mkReader [] fin)).
    { unfold fill. cbn [buffered rd pending final length app].
      rewrite Nat.sub_0_r, take_ge, drop_ge by assumption. reflexivity. }
    rewrite Hfill. apply ReadString_loop_drained.
Qed.

Lemma Read_whole (h rest : bytes) (fin : ReadErr) :
  length h = HashSize ->
  Read HashSize (mkBufio (h ++ rest) (mkReader [] fin))
    = (h, None, mkBufio rest (mkReader [] fin)).
Proof.
  intros Hlen. unfold Read. cbn [buffered rd].
  destruct (h ++ rest) as [|c s] eqn:Happ.
  - destruct h; [discriminate Hlen|discriminate Happ].
  - cbn [buffered rd]. rewrite <- Happ, <- Hlen.
    now rewrite take_app_length, drop_app_length.
Qed.

(** ** Reading well-formed records *)

Lemma record_ok_inv (rec : record) :
  record_ok rec = true ->
  (exists fm, ParseInt (rMode rec) = inr fm) /\
  (NUL ∉ rName rec) /\ length (rHash rec) = HashSize.
Proof.
  unfold record_ok. rewrite !andb_true_iff, !bool_decide_eq_true.
  intros [[Hm Hn] Hh]. split; [|split; assumption].
  destruct (ParseInt (rMode rec)) as [e|fm]; [discriminate|eauto].
Qed.

Lemma fill_hash_full (h : bytes) : length h = HashSize -> fill_hash h = h.
Proof.
  intros Hlen. unfold fill_hash. rewrite Hlen, Nat.sub_diag. simpl.
  apply app_nil_r.
Qed.

(** The loop takes the well-formed records one by one, and leaves at the
    end of the stream when what is left holds no space. *)
Lemma Decode_loop_records (recs : list record) :
  forall (fuel : nat) (acc : gmap bytes TreeEntry) (partial : bytes) (b : bufio_Reader),
    forallb record_ok recs = true ->
    SP ∉ partial ->
    whole b ->
    unread b = encode recs ++ partial ->
    final (rd b) = io_EOF ->
    (length (unread b) < fuel)%nat ->
    Decode_loop fuel acc b = Ok (add_records acc recs, None).
Proof.
  induction recs as [|rec recs IH]; intros fuel acc partial b Hok Hsp Hwhole Hdata Hfin Hfuel.
  - destruct fuel as [|fuel]; [lia|]. rewrite Decode_loop_S.
    rewrite ReadString_whole by assumption. rewrite Hdata. cbn [encode flat_map app].
    rewrite cut_at_none by assumption. now rewrite Hfin.
  - destruct fuel as [|fuel]; [lia|]. rewrite Decode_loop_S.
    simpl in Hok. apply andb_true_iff in Hok as [Hrec Hrecs].
    destruct (record_ok_inv _ Hrec) as ((fm & Hfm) & Hnul & Hhash).
    pose proof (ParseInt_no_space _ _ Hfm) as Hmode.
    assert (Hshape : unread b
              = rMode rec ++ SP :: rName rec ++ NUL :: rHash rec ++ encode recs ++ partial).
    { rewrite Hdata. change (encode (rec :: recs)) with (encode_record rec ++ encode recs).
      unfold encode_record. rewrite <- !app_assoc. cbn [app].
      rewrite <- !app_assoc. reflexivity. }
    rewrite ReadString_whole by assumption.
    rewrite Hshape, (cut_at_app SP (rMode rec)) by assumption.
    rewrite dropLast_snoc. cbn [bind]. rewrite Hfm.
    rewrite ReadString_whole by (left; reflexivity).
    unfold unread at 1. cbn [buffered rd pending final]. rewrite app_nil_r.
    rewrite (cut_at_app NUL (rName rec)) by assumption.
    cbn [other_than_EOF].
    rewrite Read_whole by assumption. cbn [other_than_EOF].
    rewrite dropLast_snoc. cbn [bind].
    rewrite fill_hash_full by assumption.
    rewrite (IH fuel _ partial).
    + unfold add_records, record_entry. simpl. now rewrite Hfm.
    + assumption.
    + assumption.
    + left. reflexivity.
    + unfold unread. cbn [buffered rd pending]. now rewrite app_nil_r.
    + exact Hfin.
    + unfold unread at 1. cbn [buffered rd pending]. rewrite app_nil_r.
      rewrite Hshape in Hfuel. rewrite !length_app in *. cbn [length] in Hfuel.
      rewrite !length_app in Hfuel. cbn [length] in Hfuel.
      rewrite !length_app in Hfuel. lia.
Qed.

(** An error returned by the loop is a mode that does not parse, or the
    error, other than the end of the stream, that the stream ends with. *)
Lemma other_than_EOF_inv (err : option ReadErr) (e : ReadErr) :
  other_than_EOF err = Some e -> err = Some e /\ e <> io_EOF.
Proof. destruct err as [[|m]|]; simpl; intros [=]; subst; split; congruence. Qed.

Lemma Decode_loop_error (fuel : nat) :
  forall (acc m : gmap bytes TreeEntry) (b : bufio_Reader) (e : error),
    Decode_loop fuel acc b = Ok (m, Some e) ->
    (exists ne, e = NumError ne) \/
    (e = ReadError (final (rd b)) /\ final (rd b) <> io_EOF).
Proof.
  induction fuel as [|fuel IH]; intros acc m b e; [discriminate|].
  rewrite Decode_loop_S.
  destruct (ReadString SP b) as [[mode err] b1] eqn:H1.
  destruct (ReadString_spec _ _ _ _ _ H1) as (_ & Hf1 & He1 & _).
  destruct err as [[|msg]|]; [discriminate| |].
  { intros [= _ <-]. right. rewrite <- (He1 _ eq_refl). split; [reflexivity|discriminate]. }
  destruct mode as [|c mode]; [discriminate|].
  rewrite dropLast_cons. cbn [bind].
  destruct (ParseInt _) as [ne|fm]; [intros [= _ <-]; left; eauto|].
  destruct (ReadString NUL b1) as [[name err2] b2] eqn:H2.
  destruct (ReadString_spec _ _ _ _ _ H2) as (_ & Hf2 & He2 & _).
  destruct (other_than_EOF err2) as [e2|] eqn:Ho2.
  { intros [= _ <-]. right. apply other_than_EOF_inv in Ho2 as [-> Hne].
    rewrite (He2 _ eq_refl) in *. rewrite Hf1 in *. split; [reflexivity|assumption]. }
  destruct (Read HashSize b2) as [[got err3] b3] eqn:H3.
  destruct (Read_spec _ _ _ _ _ H3) as (_ & Hf3 & He3).
  destruct (other_than_EOF err3) as [e3|] eqn:Ho3.
  { intros [= _ <-]. right. apply other_than_EOF_inv in Ho3 as [-> Hne].
    rewrite (He3 _ eq_refl) in *. rewrite Hf2, Hf1 in *. split; [reflexivity|assumption]. }
  destruct name as [|c' name]; [discriminate|].
  rewrite dropLast_cons. cbn [bind].
  intros H. apply IH in H. rewrite Hf3, Hf2, Hf1 in H. exact H.
Qed.

End Records.

Section TreeObjects.

Import git.

(** ** Tree objects made of well-formed records *)

Lemma encode_nil_inv (recs : list record) : encode recs = [] -> recs = [].
Proof.
  destruct recs as [|rec recs]; [reflexivity|].
  change (encode (rec :: recs)) with (encode_record rec ++ encode recs).
  unfold encode_record. intros H. apply app_eq_nil in H as [H _].
  now apply app_eq_nil in H as [_ H].
Qed.

(** A tree object of well-formed records that fits the reader's buffer
    decodes, without error, to the mapping of its records. *)
Lemma Decode_tree_object (r : Repository) (h : bytes) (recs : list record) :
  forallb record_ok recs = true ->
  (length (encode recs) <= defaultBufSize)%nat ->
  Decode (newTree r) (tree_object h recs)
    = Ok (mkTree (add_records ∅ recs) h r, None).
Proof.
  intros Hok Hfits. unfold Decode, tree_object. cbn [oSize oHash oReader newTree Entries tr].
  destruct (Z.of_nat (length (encode recs)) =? 0) eqn:Hz.
  - apply Z.eqb_eq in Hz. assert (Hnil : encode recs = [])
      by (apply length_zero_iff_nil; lia).
    now rewrite (encode_nil_inv _ Hnil).
  - rewrite (Decode_loop_records recs _ _ []).
    + reflexivity.
    + assumption.
    + apply not_elem_of_nil.
    + right. split; [reflexivity|assumption].
    + unfold unread, bufio_NewReader. cbn [buffered rd pending app].
      now rewrite app_nil_r.
    + reflexivity.
    + lia.
Qed.

Lemma add_records_lookup (recs : list record) :
  forall (m : gmap bytes TreeEntry) (k : bytes) (e : TreeEntry),
    add_records m recs !! k = Some e ->
    m !! k = Some e \/
    exists rec, rec ∈ recs /\ k = rName rec /\ e = record_entry rec.
Proof.
  induction recs as [|rec recs IH]; intros m k e; [now left|].
  cbn [add_records fold_left]. intros [H|(rec' & Hin & -> & ->)]%IH.
  - destruct (decide (rName rec = k)) as [<-|Hne].
    + rewrite lookup_insert_eq in H. injection H as <-.
      right. exists rec. split; [now left|auto].
    + rewrite lookup_insert_ne in H by assumption. now left.
  - right. exists rec'. split; [now right|auto].
Qed.

(** Records with well-formed names make a well-formed tree. *)
Lemma add_records_tree_ok (recs : list record) (h : bytes) (r : Repository) :
  Forall (fun rec => name_ok (rName rec)) recs ->
  tree_ok (mkTree (add_records ∅ recs) h r).
Proof.
  intros Hnames k e. cbn [Entries].
  intros [H|(rec & Hin & -> & ->)]%add_records_lookup; [now rewrite lookup_empty in H|].
  split; [reflexivity|]. rewrite Forall_forall in Hnames. now apply Hnames.
Qed.

Lemma tree_object_ok (r : Repository) (h : bytes) (recs : list record)
    (t : Tree) (err : option error) :
  forallb record_ok recs = true ->
  (length (encode recs) <= defaultBufSize)%nat ->
  Forall (fun rec => name_ok (rName rec)) recs ->
  Decode (newTree r) (tree_object h recs) = Ok (t, err) ->
  tree_ok t.
Proof.
  intros Hok Hfits Hnames. rewrite Decode_tree_object by assumption.
  intros [= <- <-]. now apply add_records_tree_ok.
Qed.

End TreeObjects.

Section DecodeClaims.

Import git.

(** C4, as the code has it: a stream of well-formed records that fits the
    reader's buffer, followed by nothing or by the beginning of one more
    mode (bytes without a space), decodes without error to the mapping of
    those records.  The end of the stream is never what [Decode] returns as
    an error: it returns a mode that does not parse as base 8 in 32 bits,
    or the read error, other than the end of the stream, that the stream
    ends with. *)
Theorem Decode_tolerates_end_of_stream (r : Repository) (o : Object) :
  (forall recs partial,
      forallb record_ok recs = true ->
      SP ∉ partial ->
      oReader o = mkReader (encode recs ++ partial) io_EOF ->
      (length (encode recs ++ partial) <= defaultBufSize)%nat ->
      exists t',
        Decode (newTree r) o = Ok (t', None) /\
        (oSize o <> 0 -> Entries t' = add_records ∅ recs)) /\
  (forall t t' e,
      Decode t o = Ok (t', Some e) ->
      (exists ne, e = NumError ne) \/
      (e = ReadError (final (oReader o)) /\ final (oReader o) <> io_EOF)).
Proof.
  split.
  - intros recs partial Hok Hsp Hrd Hfits. unfold Decode.
    destruct (oSize o =? 0) eqn:Hz.
    + eexists. split; [reflexivity|]. apply Z.eqb_eq in Hz. contradiction.
    + rewrite (Decode_loop_records recs _ _ partial); try assumption.
      * cbn [bind fst snd]. eexists. split; reflexivity.
      * right. rewrite Hrd. split; [reflexivity|assumption].
      * now rewrite Hrd.
      * now rewrite Hrd.
      * lia.
  - intros t t' e. unfold Decode.
    destruct (oSize o =? 0); [discriminate|].
    destruct (Decode_loop _ _ _) as [[m err]| | |] eqn:Hloop; cbn [bind]; try discriminate.
    intros [= _ ->]. apply Decode_loop_error in Hloop. exact Hloop.
Qed.

Lemma Decode_tolerates_end_of_stream_witness :
  (exists t',
      Decode (newTree repo) (tree_object (hash_of "r") root_records) = Ok (t', None) /\
      (oSize (tree_object (hash_of "r") root_records) <> 0 ->
       Entries t' = add_records ∅ root_records)) /\
  (exists t',
      Decode (newTree repo) cut_in_mode = Ok (t', None) /\
      (oSize cut_in_mode <> 0 -> Entries t' = add_records ∅ adir_records)) /\
  (returned_error (Decode (newTree repo) bad_mode) = Some (Some (NumError ErrSyntax)) /\
   ((exists ne, NumError ErrSyntax = NumError ne) \/
    (NumError ErrSyntax = ReadError (final (oReader bad_mode)) /\
     final (oReader bad_mode) <> io_EOF))).
Proof.
  split; [|split; [|split; [vm_compute; reflexivity|]]].
  - apply (proj1 (Decode_tolerates_end_of_stream repo
                    (tree_object (hash_of "r") root_records)) root_records []).
    + reflexivity.
    + apply not_elem_of_nil.
    + unfold tree_object. cbn [oReader]. now rewrite app_nil_r.
    + apply Nat.leb_le. vm_compute. reflexivity.
  - apply (proj1 (Decode_tolerates_end_of_stream repo cut_in_mode)
             adir_records (lit "1006")).
    + reflexivity.
    + apply (bool_decide_unpack _). vm_compute. exact I.
    + reflexivity.
    + apply Nat.leb_le. vm_compute. reflexivity.
  - apply (proj2 (Decode_tolerates_end_of_stream repo bad_mode) (newTree repo)
             (mkTree ∅ (hash_of "t") repo) (NumError ErrSyntax)).
    vm_compute. reflexivity.
Defined.

Lemma decode_succeeds_iff (res : result (Tree * option error)) :
  decode_succeeds res <-> returned_error res = Some None.
Proof.
  split.
  - now intros (t & ->).
  - destruct res as [[t [e|]]| | |]; try discriminate. intros _. now exists t.
Qed.

Lemma decode_fails_iff (res : result (Tree * option error)) :
  decode_fails res <-> exists e, returned_error res = Some (Some e).
Proof.
  split.
  - intros (t & e & ->). now exists e.
  - destruct res as [[t [e|]]| | |]; intros (e' & [=]). now exists t, e.
Qed.

(** C4, as stated, fails: this tree object ends inside the mode of its
    second record, and [Decode] returns no error for it. *)
Lemma Decode_accepts_cut_in_mode :
  ends_mid_record (pending (oReader cut_in_mode)) /\
  decode_succeeds (Decode (newTree repo) cut_in_mode) /\
  ~ decode_fails (Decode (newTree repo) cut_in_mode).
Proof.
  split; [|split].
  - exists adir_records, (mkRecord (lit "100644") (lit "README") (hash_of "b")), 4%nat.
    split; [reflexivity|]. split; [reflexivity|]. split; [|reflexivity].
    vm_compute. lia.
  - apply decode_succeeds_iff. vm_compute. reflexivity.
  - intros (e & H)%decode_fails_iff. vm_compute in H. discriminate H.
Qed.

(** The same when the stream ends inside the name or inside the hash: an
    entry is stored under the name less its last byte, or with the hash
    filled up with zero bytes. *)
Lemma Decode_accepts_cut_in_name_and_hash :
  (returned_error (Decode (newTree repo) cut_in_name) = Some None /\
   decoded_entries (Decode (newTree repo) cut_in_name) !! lit "READ" = None /\
   eHash <$> decoded_entries (Decode (newTree repo) cut_in_name) !! lit "REA"
     = Some ZeroHash) /\
  (returned_error (Decode (newTree repo) cut_in_hash) = Some None /\
   eHash <$> decoded_entries (Decode (newTree repo) cut_in_hash) !! lit "README"
     = Some (lit "abc" ++ replicate 17 NUL)).
Proof.
  split; [split; [|split]|split]; vm_compute; reflexivity.
Qed.

(** A stream that ends between records, but is larger than the reader's
    buffer: the read of the hundredth hash gets the 16 bytes that are in
    the buffer, the other 4 are taken for the beginning of the next mode,
    and [Decode] returns a syntax error. *)
Lemma Decode_rejects_large_tree :
  ends_between_records (pending (oReader large_tree)) /\
  (length (pending (oReader large_tree)) > defaultBufSize)%nat /\
  returned_error (Decode (newTree repo) large_tree) = Some (Some (NumError ErrSyntax)).
Proof.
  split; [|split].
  - exists large_records. split; [vm_compute; reflexivity|reflexivity].
  - apply Nat.ltb_lt. vm_compute. reflexivity.
  - vm_compute. reflexivity.
Qed.

(** When the stream ends right after the space that closes a mode, slicing
    the empty name panics. *)
Lemma Decode_panics_cut_after_mode :
  Decode (newTree repo) cut_after_mode = Panic.
Proof. vm_compute. reflexivity. Qed.

End DecodeClaims.

(** * Properties of the path lookup *)

Section Lookup.

Import git.

Lemma dir_repository (t t' : Tree) (name : bytes) :
  dir t name = Ok t' -> tr t' = tr t.
Proof.
  unfold dir, entry. destruct (Entries t !! name) as [e|]; [|discriminate].
  destruct (Storage_Get (tr t) (eHash e)) as [o|]; [|discriminate].
  destruct (decide (oType o = TreeObject)); [|discriminate].
  destruct (Decode (newTree (tr t)) o) as [[t1 err]| | |] eqn:HD; simpl; try discriminate.
  intros [= <-]. now apply Decode_repository in HD.
Qed.

Lemma descend_repository (names : list bytes) :
  forall t t', descend t names = Ok t' -> tr t' = tr t.
Proof.
  induction names as [|name names IH]; intros t t'; simpl.
  - now intros [= <-].
  - destruct (dir t name) as [t1| | |] eqn:Hdir; simpl; try discriminate.
    intros H. apply IH in H. apply dir_repository in Hdir. congruence.
Qed.

(** The loop of [findHash] goes down the leading names. *)
Lemma findHash_from_descend (before : list bytes) :
  forall t name after,
    findHash_from t (before ++ name :: after)
      = let? t' := descend t before in findHash_from t' (name :: after).
Proof.
  induction before as [|b before IH]; intros t name after; [reflexivity|].
  cbn [app descend].
  assert (Hrest : exists x rest, before ++ name :: after = x :: rest)
    by (destruct before; simpl; eauto).
  destruct Hrest as (x & rest & Hrest).
  cbn [findHash_from]. rewrite Hrest. rewrite <- Hrest.
  destruct (dir t b) as [t1| | |]; simpl; auto.
Qed.

(** The lookup of a name that leads nowhere: [dir] fails on it. *)
Lemma dir_fails_absent (t : Tree) (name : bytes) :
  Entries t !! name = None -> dir t name = Err errDirNotFound.
Proof. intros H. unfold dir, entry. now rewrite H. Qed.

Lemma dir_fails_unresolved (t : Tree) (name : bytes) (e : TreeEntry) :
  Entries t !! name = Some e -> Storage_Get (tr t) (eHash e) = None ->
  dir t name = Err errDirNotFound.
Proof. intros H1 H2. unfold dir, entry. now rewrite H1, H2. Qed.

Lemma dir_fails_not_a_tree (t : Tree) (name : bytes) (e : TreeEntry) (o : Object) :
  Entries t !! name = Some e -> Storage_Get (tr t) (eHash e) = Some o ->
  oType o <> TreeObject ->
  dir t name = Err errDirNotFound.
Proof.
  intros H1 H2 H3. unfold dir, entry. rewrite H1, H2.
  now rewrite decide_False.
Qed.

(** What [findHash_from] does at a name that is followed by others. *)
Lemma findHash_from_cons (t : Tree) (name next : bytes) (after : list bytes) :
  findHash_from t (name :: next :: after)
    = let? t' := dir t name in findHash_from t' (next :: after).
Proof. reflexivity. Qed.

(** [File] has one error value. *)
Lemma File_error (t : Tree) (path : bytes) (e : error) :
  File_ t path = Err e -> e = ErrFileNotFound.
Proof.
  unfold File_. destruct (findHash t path) as [h|e'| |]; try discriminate.
  - destruct (Storage_Get (tr t) h) as [o|]; [|now intros [= <-]].
    destruct (decide (oType o = BlobObject)); [discriminate|now intros [= <-]].
  - now intros [= <-].
Qed.

Lemma File_findHash_error (t : Tree) (path : bytes) (e : error) :
  findHash t path = Err e -> File_ t path = Err ErrFileNotFound.
Proof. intros H. unfold File_. now rewrite H. Qed.

(** C1: [File] reports [ErrFileNotFound], and no other error, when a name
    of the path, reached by going down the names before it, is absent from
    the entries; when its hash is not in the store; when it is followed by
    another name and resolves to an object that is no tree; when it is the
    last name and resolves to an object that is no blob. *)
Theorem File_reports_FileNotFound (t : Tree) (path : bytes) :
  (forall e, File_ t path = Err e -> e = ErrFileNotFound) /\
  (forall before name after t',
      Split path SLASH = before ++ name :: after ->
      descend t before = Ok t' ->
      (Entries t' !! name = None
       \/ (exists e, Entries t' !! name = Some e /\
                     Storage_Get (tr t') (eHash e) = None)
       \/ (exists e o, after <> [] /\
                       Entries t' !! name = Some e /\
                       Storage_Get (tr t') (eHash e) = Some o /\
                       oType o <> TreeObject)
       \/ (exists e o, after = [] /\
                       Entries t' !! name = Some e /\
                       Storage_Get (tr t') (eHash e) = Some o /\
                       oType o <> BlobObject)) ->
      File_ t path = Err ErrFileNotFound).
Proof.
  split; [apply File_error|].
  intros before name after t' Hsplit Hdown Hcase.
  pose proof (descend_repository _ _ _ Hdown) as Hrepo.
  assert (Hfind : findHash t path = findHash_from t' (name :: after)).
  { unfold findHash. rewrite Hsplit, findHash_from_descend, Hdown. reflexivity. }
  destruct Hcase as [Habs|[(e & He & Hget)|[(e & o & Hafter & He & Hget & Hty)
                                           |(e & o & -> & He & Hget & Hty)]]].
  - (* the name is absent *)
    destruct after as [|next after].
    + apply (File_findHash_error _ _ errEntryNotFound).
      rewrite Hfind. simpl. unfold entry. now rewrite Habs.
    + apply (File_findHash_error _ _ errDirNotFound).
      rewrite Hfind, findHash_from_cons, dir_fails_absent by assumption. reflexivity.
  - (* the hash is not in the store *)
    destruct after as [|next after].
    + unfold File_. rewrite Hfind. simpl. unfold entry. rewrite He. simpl.
      rewrite <- Hrepo. now rewrite Hget.
    + apply (File_findHash_error _ _ errDirNotFound).
      rewrite Hfind, findHash_from_cons.
      now rewrite (dir_fails_unresolved _ _ _ He Hget).
  - (* a file where a directory is asked for *)
    destruct after as [|next after]; [contradiction|].
    apply (File_findHash_error _ _ errDirNotFound).
    rewrite Hfind, findHash_from_cons.
    now rewrite (dir_fails_not_a_tree _ _ _ _ He Hget Hty).
  - (* a directory where a file is asked for *)
    unfold File_. rewrite Hfind. simpl. unfold entry. rewrite He. simpl.
    rewrite <- Hrepo, Hget. now rewrite decide_False.
Qed.

(** C7: when [File] succeeds, the file carries the path as it was given,
    the hash found for the path, and the size of the blob stored under
    that hash; its reader is the blob's.  In a store that gives for a hash
    an object of that hash, the file's hash is the blob's own. *)
Theorem File_returns_the_blob (t : Tree) (path : bytes) (f : File) :
  File_ t path = Ok f ->
  fName f = path /\
  exists o,
    findHash t path = Ok (fHash f) /\
    Storage_Get (tr t) (fHash f) = Some o /\
    oType o = BlobObject /\
    fSize f = oSize o /\
    fReader f = oReader o /\
    (content_addressed (tr t) -> fHash f = oHash o).
Proof.
  unfold File_. destruct (findHash t path) as [h| | |]; try discriminate.
  destruct (Storage_Get (tr t) h) as [o|] eqn:Hget; [|discriminate].
  destruct (decide (oType o = BlobObject)) as [Hty|]; [|discriminate].
  intros [= <-]. cbn [fName fHash fSize fReader]. split; [reflexivity|]. exists o.
  split; [reflexivity|]. split; [assumption|]. split; [assumption|].
  split; [reflexivity|]. split; [reflexivity|].
  intros Hstore. symmetry. now apply Hstore.
Qed.

End Lookup.

(** * Properties of the traversal *)

Section Traversal.

Import git.

Implicit Types (walk : Tree -> bytes -> list File -> result (list File)).

(** ** The loop over the entries *)

Lemma bind_assoc {A B C} (x : result A) (f : A -> result B) (g : B -> result C) :
  bind (bind x f) g = bind x (fun a => bind (f a) g).
Proof. destruct x; reflexivity. Qed.

Lemma visit_all_from walk (t : Tree) (base : bytes) (l : list (bytes * TreeEntry))
    (acc : result (list File)) :
  fold_left (fun acc kv => let? ch := acc in visit walk t base ch (snd kv)) l acc
    = let? ch := acc in visit_all walk t base l ch.
Proof.
  revert acc. induction l as [|kv l IH]; intros acc.
  - destruct acc; reflexivity.
  - cbn [fold_left]. rewrite IH, bind_assoc. destruct acc as [ch| | |]; try reflexivity.
    cbn [bind]. unfold visit_all at 2. cbn [fold_left]. now rewrite IH.
Qed.

Lemma visit_all_nil walk (t : Tree) (base : bytes) (ch : list File) :
  visit_all walk t base [] ch = Ok ch.
Proof. reflexivity. Qed.

Lemma visit_all_cons walk (t : Tree) (base : bytes) (kv : bytes * TreeEntry)
    (l : list (bytes * TreeEntry)) (ch : list File) :
  visit_all walk t base (kv :: l) ch
    = let? ch' := visit walk t base ch (snd kv) in visit_all walk t base l ch'.
Proof. unfold visit_all at 1. cbn [fold_left]. now rewrite visit_all_from. Qed.

(** ** What is sent comes from a leaf *)

Lemma visit_sends_leaves walk (t : Tree) (base : bytes) (ch out : list File)
    (k : bytes) (e : TreeEntry) :
  sends_leaves walk ->
  Entries t !! k = Some e ->
  visit walk t base ch e = Ok out ->
  exists new, out = ch ++ new /\
    forall f, f ∈ new ->
      exists names e' o', leaf t names e' o' /\ f = file_of base names e' o'.
Proof.
  intros Hwalk He. unfold visit.
  destruct (Storage_Get (tr t) (eHash e)) as [o|] eqn:Hget.
  - destruct (decide (oType o = TreeObject)) as [Hty|Hty].
    + destruct (Decode (newTree (tr t)) o) as [[sub err]| | |] eqn:HD;
        cbn [bind fst]; try discriminate.
      intros (new & -> & Hnew)%Hwalk. exists new. split; [reflexivity|].
      intros f (names & e' & o' & Hleaf & ->)%Hnew.
      exists (eName e :: names), e', o'. split; [|reflexivity].
      eapply leaf_sub; eassumption.
    + intros [= <-]. eexists. split; [reflexivity|].
      intros f ->%list_elem_of_singleton.
      exists [eName e], e, o. split; [|reflexivity].
      eapply leaf_entry; eassumption.
  - intros [= <-]. exists []. split; [now rewrite app_nil_r|].
    intros f Hf. now apply elem_of_nil in Hf.
Qed.

Lemma visit_all_sends_leaves walk (t : Tree) (base : bytes) (l : list (bytes * TreeEntry)) :
  sends_leaves walk ->
  (forall kv, kv ∈ l -> Entries t !! fst kv = Some (snd kv)) ->
  forall ch out,
    visit_all walk t base l ch = Ok out ->
    exists new, out = ch ++ new /\
      forall f, f ∈ new ->
        exists names e o, leaf t names e o /\ f = file_of base names e o.
Proof.
  intros Hwalk. induction l as [|kv l IH]; intros Hl ch out.
  - intros [= <-]. exists []. split; [now rewrite app_nil_r|].
    intros f Hf. now apply elem_of_nil in Hf.
  - rewrite visit_all_cons.
    destruct (visit walk t base ch (snd kv)) as [ch1| | |] eqn:Hv; cbn [bind]; try discriminate.
    intros Hrest.
    eapply visit_sends_leaves in Hv as (new1 & -> & Hnew1);
      [|assumption|apply Hl; left].
    apply IH in Hrest as (new2 & -> & Hnew2);
      [|intros kv' Hin; apply Hl; now right].
    exists (new1 ++ new2). split; [now rewrite app_assoc|].
    intros f [Hf|Hf]%elem_of_app; auto.
Qed.

Lemma walkEntries_sends_leaves (fuel : nat) : sends_leaves (walkEntries fuel).
Proof.
  induction fuel as [|fuel IH]; intros t base ch out; [discriminate|].
  cbn [walkEntries]. apply visit_all_sends_leaves; [assumption|].
  intros [k e] Hin. now apply elem_of_map_to_list in Hin.
Qed.

(** ** Every leaf is sent *)

Lemma visit_all_reaches_leaves walk (t : Tree) (base : bytes) (l : list (bytes * TreeEntry)) :
  sends_leaves walk ->
  reaches_leaves walk ->
  (forall kv, kv ∈ l -> Entries t !! fst kv = Some (snd kv)) ->
  forall ch out,
    visit_all walk t base l ch = Ok out ->
    forall k e, (k, e) ∈ l ->
      (forall o, Storage_Get (tr t) (eHash e) = Some o -> oType o <> TreeObject ->
                 file_of base [eName e] e o ∈ out) /\
      (forall o sub err names e' o',
          Storage_Get (tr t) (eHash e) = Some o -> oType o = TreeObject ->
          Decode (newTree (tr t)) o = Ok (sub, err) ->
          leaf sub names e' o' ->
          file_of base (eName e :: names) e' o' ∈ out).
Proof.
  intros Hsends Hreach. induction l as [|kv l IH]; intros Hl ch out Hout k e Hin.
  - now apply elem_of_nil in Hin.
  - rewrite visit_all_cons in Hout.
    destruct (visit walk t base ch (snd kv)) as [ch1| | |] eqn:Hv;
      cbn [bind] in Hout; try discriminate.
    assert (Hl' : forall kv', kv' ∈ l -> Entries t !! fst kv' = Some (snd kv'))
      by (intros kv' Hin'; apply Hl; now right).
    destruct (visit_all_sends_leaves walk t base l Hsends Hl' _ _ Hout) as (new & -> & _).
    apply elem_of_cons in Hin as [<-|Hin]; [|now apply (IH Hl' _ _ Hout k e)].
    cbn [snd] in Hv. unfold visit in Hv. split.
    + intros o Hget Hty. rewrite Hget in Hv. rewrite decide_False in Hv by assumption.
      injection Hv as <-. apply elem_of_app. left. apply elem_of_app. right.
      now apply list_elem_of_singleton.
    + intros o sub err names e' o' Hget Hty HD Hleaf.
      rewrite Hget in Hv. rewrite decide_True in Hv by assumption.
      rewrite HD in Hv. cbn [bind fst] in Hv.
      apply elem_of_app. left.
      exact (Hreach _ _ _ _ Hv _ _ _ Hleaf).
Qed.

Lemma walkEntries_reaches_leaves (fuel : nat) : reaches_leaves (walkEntries fuel).
Proof.
  induction fuel as [|fuel IH]; intros t base ch out; [discriminate|].
  cbn [walkEntries]. intros Hout names e' o' Hleaf.
  assert (Hl : forall kv, kv ∈ map_to_list (Entries t) -> Entries t !! fst kv = Some (snd kv))
    by (intros [k e] Hin; now apply elem_of_map_to_list in Hin).
  pose proof (visit_all_reaches_leaves _ t base _ (walkEntries_sends_leaves fuel) IH Hl
                _ _ Hout) as Hall.
  inversion Hleaf as [t0 k e o He Hget Hty|t0 k e o sub err names' e0 o0 He Hget Hty HD Hsub];
    subst.
  - apply (Hall k e'); [now apply elem_of_map_to_list|assumption|assumption].
  - eapply (Hall k e); [now apply elem_of_map_to_list|eassumption..].
Qed.

(** ** The traversal returns no error, and ends on a tree of finite depth *)

Lemma visit_all_not_Err walk (t : Tree) (base : bytes) (l : list (bytes * TreeEntry)) :
  (forall t base ch e, walk t base ch <> Err e) ->
  forall ch e, visit_all walk t base l ch <> Err e.
Proof.
  intros Hwalk. induction l as [|kv l IH]; intros ch e; [discriminate|].
  rewrite visit_all_cons.
  destruct (visit walk t base ch (snd kv)) as [ch1|e1| |] eqn:Hv; cbn [bind];
    try discriminate; [apply IH|].
  exfalso. unfold visit in Hv.
  destruct (Storage_Get (tr t) (eHash (snd kv))) as [o|]; [|discriminate].
  destruct (decide (oType o = TreeObject)); [|discriminate].
  destruct (Decode_returns_or_panics (newTree (tr t)) o) as [(sub & err & HD)|HD];
    rewrite HD in Hv; cbn [bind] in Hv; [|discriminate].
  now apply Hwalk in Hv.
Qed.

Lemma walkEntries_not_Err (fuel : nat) (t : Tree) (base : bytes) (ch : list File) (e : error) :
  walkEntries fuel t base ch <> Err e.
Proof.
  revert t base ch e. induction fuel as [|fuel IH]; intros t base ch e; [discriminate|].
  cbn [walkEntries]. now apply visit_all_not_Err.
Qed.

Lemma visit_all_ends walk (t : Tree) (base : bytes) (l : list (bytes * TreeEntry)) (n : nat) :
  (forall t base ch, depth_below n t -> walk t base ch <> Diverge) ->
  depth_below (S n) t ->
  (forall kv, kv ∈ l -> Entries t !! fst kv = Some (snd kv)) ->
  forall ch, visit_all walk t base l ch <> Diverge.
Proof.
  intros Hwalk Hdepth. induction l as [|kv l IH]; intros Hl ch; [discriminate|].
  rewrite visit_all_cons.
  destruct (visit walk t base ch (snd kv)) as [ch1|e1| |] eqn:Hv; cbn [bind];
    try discriminate; [apply IH; intros kv' Hin; apply Hl; now right|].
  exfalso. unfold visit in Hv.
  destruct (Storage_Get (tr t) (eHash (snd kv))) as [o|] eqn:Hget; [|discriminate].
  destruct (decide (oType o = TreeObject)) as [Hty|]; [|discriminate].
  destruct (Decode_returns_or_panics (newTree (tr t)) o) as [(sub & err & HD)|HD];
    rewrite HD in Hv; cbn [bind fst] in Hv; [|discriminate].
  apply Hwalk in Hv; [assumption|].
  eapply (Hdepth (fst kv) (snd kv)); [apply Hl; left|eassumption..].
Qed.

Lemma walkEntries_ends (n : nat) (t : Tree) (base : bytes) (ch : list File) :
  depth_below n t -> walkEntries n t base ch <> Diverge.
Proof.
  revert t base ch. induction n as [|n IH]; intros t base ch Hdepth; [contradiction|].
  cbn [walkEntries]. eapply visit_all_ends; [exact IH|exact Hdepth|].
  intros [k e] Hin. now apply elem_of_map_to_list in Hin.
Qed.

(** ** More fuel does not change what the traversal returns *)

Lemma visit_all_more_fuel (walk walk' : Tree -> bytes -> list File -> result (list File))
    (t : Tree) (base : bytes) (l : list (bytes * TreeEntry)) :
  (forall t base ch, walk t base ch <> Diverge -> walk' t base ch = walk t base ch) ->
  forall ch, visit_all walk t base l ch <> Diverge ->
             visit_all walk' t base l ch = visit_all walk t base l ch.
Proof.
  intros Hwalk. induction l as [|kv l IH]; intros ch; [reflexivity|].
  rewrite !visit_all_cons.
  assert (Hv : visit walk t base ch (snd kv) <> Diverge ->
               visit walk' t base ch (snd kv) = visit walk t base ch (snd kv)).
  { unfold visit. destruct (Storage_Get (tr t) (eHash (snd kv))) as [o|]; [|reflexivity].
    destruct (decide (oType o = TreeObject)); [|reflexivity].
    destruct (Decode (newTree (tr t)) o) as [[sub err]| | |]; cbn [bind fst]; auto. }
  destruct (visit walk t base ch (snd kv)) as [ch1|e| |] eqn:Hvisit.
  - rewrite Hv by discriminate. cbn [bind]. apply IH.
  - now rewrite Hv by discriminate.
  - now rewrite Hv by discriminate.
  - intros Hdiv. now contradiction Hdiv.
Qed.

Lemma walkEntries_more_fuel (fuel : nat) (t : Tree) (base : bytes) (ch : list File) :
  walkEntries fuel t base ch <> Diverge ->
  walkEntries (S fuel) t base ch = walkEntries fuel t base ch.
Proof.
  revert t base ch. induction fuel as [|fuel IH]; intros t base ch Hdiv;
    [now contradiction Hdiv|].
  change (walkEntries (S (S fuel)) t base ch)
    with (visit_all (walkEntries (S fuel)) t base (map_to_list (Entries t)) ch).
  change (walkEntries (S fuel) t base ch)
    with (visit_all (walkEntries fuel) t base (map_to_list (Entries t)) ch) in *.
  now apply visit_all_more_fuel.
Qed.

(** [Files] sends the files of the leaves of the tree, all of them and
    nothing else. *)
Lemma Files_sends_the_leaves (fuel : nat) (t : Tree) (out : list File) :
  Files fuel t = Ok out ->
  forall f, f ∈ out <-> exists names e o, leaf t names e o /\ f = file_of [] names e o.
Proof.
  unfold Files. intros Hout f. split.
  - destruct (walkEntries_sends_leaves fuel _ _ _ _ Hout) as (new & -> & Hnew).
    cbn [app]. apply Hnew.
  - intros (names & e & o & Hleaf & ->).
    eapply walkEntries_reaches_leaves; eassumption.
Qed.

End Traversal.

(** * Paths made of well-formed names *)

Section PathsOfNames.

Import git.

Lemma Split_no_sep (s : bytes) (sep : ascii) :
  sep ∉ s -> Split s sep = [s].
Proof.
  induction s as [|c s IH]; [reflexivity|]. intros Hs.
  apply not_elem_of_cons in Hs as [Hc Hs]. cbn [Split].
  rewrite decide_False by congruence. now rewrite IH.
Qed.

Lemma Split_app_sep (a b : bytes) (sep : ascii) :
  sep ∉ a -> Split (a ++ sep :: b) sep = a :: Split b sep.
Proof.
  induction a as [|c a IH]; intros Ha.
  - cbn [app Split]. now rewrite decide_True.
  - apply not_elem_of_cons in Ha as [Hc Ha]. cbn [app Split].
    rewrite decide_False by congruence. now rewrite IH.
Qed.

Lemma Join_with_cons (n : bytes) (ns : list bytes) (sep : bytes) :
  ns <> [] -> Join_with (n :: ns) sep = n ++ sep ++ Join_with ns sep.
Proof. destruct ns; [contradiction|reflexivity]. Qed.

Lemma Join_with_snoc (ns : list bytes) (n sep : bytes) :
  ns <> [] -> Join_with (ns ++ [n]) sep = Join_with ns sep ++ sep ++ n.
Proof.
  induction ns as [|m ns IH]; [contradiction|]. intros _.
  destruct ns as [|m' ns]; [reflexivity|].
  change ((m :: m' :: ns) ++ [n]) with (m :: ((m' :: ns) ++ [n])).
  rewrite Join_with_cons by (destruct ns; discriminate).
  rewrite IH by discriminate.
  rewrite (Join_with_cons m (m' :: ns)) by discriminate.
  now rewrite <- !app_assoc.
Qed.

Lemma Split_Join (ns : list bytes) :
  ns <> [] -> Forall (fun n => SLASH ∉ n) ns ->
  Split (Join_with ns [SLASH]) SLASH = ns.
Proof.
  induction ns as [|n ns IH]; [contradiction|]. intros _ Hns.
  apply Forall_cons in Hns as [Hn Hns].
  destruct ns as [|m ns]; [now apply Split_no_sep|].
  rewrite Join_with_cons by discriminate. cbn [app].
  rewrite Split_app_sep by assumption. now rewrite IH.
Qed.

Lemma clean_step_name (rooted : bool) (ups : nat) (kept : list bytes) (n : bytes) :
  name_ok n -> clean_step rooted (ups, kept) n = (ups, n :: kept).
Proof.
  intros (H1 & _ & H2 & H3). unfold clean_step.
  now rewrite !decide_False by assumption.
Qed.

Lemma clean_names (rooted : bool) (ns : list bytes) :
  Forall name_ok ns ->
  forall ups kept,
    fold_left (clean_step rooted) ns (ups, kept) = (ups, rev ns ++ kept).
Proof.
  induction ns as [|n ns IH]; intros Hns ups kept; [reflexivity|].
  apply Forall_cons in Hns as [Hn Hns]. cbn [fold_left rev].
  rewrite clean_step_name by assumption. rewrite IH by assumption.
  now rewrite <- app_assoc.
Qed.

Lemma name_ok_no_slash (ns : list bytes) :
  Forall name_ok ns -> Forall (fun n => SLASH ∉ n) ns.
Proof. intros H. eapply Forall_impl; [exact H|]. now intros n (_ & Hn & _). Qed.

(** A path of well-formed names is clean. *)
Lemma Clean_Join (ns : list bytes) :
  ns <> [] -> Forall name_ok ns ->
  Clean (Join_with ns [SLASH]) = Join_with ns [SLASH].
Proof.
  intros Hne Hns. unfold Clean.
  destruct (Join_with ns [SLASH]) as [|c path] eqn:Hpath.
  - exfalso. destruct ns as [|n ns]; [contradiction|].
    apply Forall_cons in Hns as [(Hn & _) _].
    destruct ns; [now cbn in Hpath|].
    rewrite Join_with_cons in Hpath by discriminate.
    destruct n; [contradiction|discriminate].
  - assert (Hc : c <> SLASH).
    { destruct ns as [|n ns]; [contradiction|].
      apply Forall_cons in Hns as [(Hn & Hs & _) _].
      destruct n as [|c' n]; [contradiction|].
      assert (c = c') as ->.
      { destruct ns; [cbn in Hpath|rewrite Join_with_cons in Hpath by discriminate];
          now injection Hpath. }
      intros ->. apply Hs. now left. }
    rewrite bool_decide_eq_false_2 by assumption.
    rewrite <- Hpath, Split_Join by (try assumption; now apply name_ok_no_slash).
    rewrite clean_names by assumption. cbn [replicate app].
    rewrite app_nil_r, rev_involutive, Hpath. reflexivity.
Qed.

(** Joining one more well-formed name to a path of such names. *)
Lemma filepath_Join_name (ns : list bytes) (n : bytes) :
  Forall name_ok ns -> name_ok n ->
  filepath_Join (Join_with ns [SLASH]) n = Join_with (ns ++ [n]) [SLASH].
Proof.
  intros Hns Hn.
  assert (Hall : Forall name_ok (ns ++ [n])) by (apply Forall_app; auto).
  destruct ns as [|m ns].
  - cbn [Join_with app]. unfold filepath_Join.
    destruct n as [|c n]; [now destruct Hn|].
    now apply (Clean_Join [c :: n]).
  - assert (Hjoin : Join_with ((m :: ns) ++ [n]) [SLASH]
                    = Join_with (m :: ns) [SLASH] ++ SLASH :: n)
      by (now rewrite Join_with_snoc by discriminate).
    assert (HC : Clean (Join_with ((m :: ns) ++ [n]) [SLASH])
                 = Join_with ((m :: ns) ++ [n]) [SLASH])
      by (now apply Clean_Join).
    rewrite Hjoin in HC |- *. unfold filepath_Join.
    destruct (Join_with (m :: ns) [SLASH]) eqn:Hbase; [|exact HC].
    exfalso. apply Forall_cons in Hns as [(Hm & _) _].
    destruct ns; [now cbn in Hbase|].
    rewrite Join_with_cons in Hbase by discriminate.
    destruct m; [contradiction|discriminate].
Qed.

Lemma fold_filepath_Join (names : list bytes) :
  Forall name_ok names ->
  forall ns, Forall name_ok ns ->
    fold_left filepath_Join names (Join_with ns [SLASH])
      = Join_with (ns ++ names) [SLASH].
Proof.
  induction names as [|n names IH]; intros Hnames ns Hns.
  - now rewrite app_nil_r.
  - apply Forall_cons in Hnames as [Hn Hnames]. cbn [fold_left].
    rewrite filepath_Join_name by assumption.
    rewrite IH by (try assumption; apply Forall_app; auto).
    now rewrite <- app_assoc.
Qed.

End PathsOfNames.

(** * The traversal and the lookup together *)

Section Agreement.

Import git.

(** ** [File] on the paths [Files] sends *)

(** The object of a leaf is in the store of the tree the walk began at. *)
Lemma leaf_in_store (t : Tree) (names : list bytes) (e : TreeEntry) (o : Object) :
  leaf t names e o ->
  Storage_Get (tr t) (eHash e) = Some o /\ oType o <> TreeObject.
Proof.
  induction 1 as [t k e o He Hget Hty|t k e o sub err names e' o' He Hget Hty HD Hleaf IH].
  - auto.
  - apply Decode_repository in HD. cbn [newTree tr] in HD. now rewrite <- HD.
Qed.

(** In a well-formed store the names that lead to a leaf are well formed,
    and [findHash_from] follows them to the leaf's hash. *)
Lemma leaf_found (t : Tree) (names : list bytes) (e : TreeEntry) (o : Object) :
  leaf t names e o ->
  store_ok (tr t) -> tree_ok t ->
  names <> [] /\ Forall name_ok names /\ findHash_from t names = Ok (eHash e).
Proof.
  induction 1 as [t k e o He Hget Hty|t k e o sub err names e' o' He Hget Hty HD Hleaf IH];
    intros Hstore Htree.
  - destruct (Htree _ _ He) as [-> Hk].
    split; [discriminate|]. split; [now constructor|].
    cbn [findHash_from]. unfold entry. now rewrite He.
  - destruct (Htree _ _ He) as [-> Hk].
    pose proof (Decode_repository _ _ _ _ HD) as Hrepo. cbn [newTree tr] in Hrepo.
    destruct IH as (Hne & Hnames & Hfind).
    { now rewrite Hrepo. }
    { eapply Hstore; eassumption. }
    split; [discriminate|]. split; [now constructor|].
    destruct names as [|n names]; [contradiction|].
    rewrite findHash_from_cons. unfold dir, entry. rewrite He, Hget.
    rewrite decide_True by assumption. rewrite HD. cbn [bind fst]. exact Hfind.
Qed.

(** In a well-formed store, every file [Files] sends has its object in the
    store, no tree; [File], asked for the name sent, returns that very file
    when the object is a blob, and [ErrFileNotFound] when it is not. *)
Lemma Files_then_File (fuel : nat) (t : Tree) (out : list File) (f : File) :
  store_ok (tr t) -> tree_ok t ->
  Files fuel t = Ok out ->
  f ∈ out ->
  exists o,
    Storage_Get (tr t) (fHash f) = Some o /\
    oType o <> TreeObject /\
    fSize f = oSize o /\
    (oType o = BlobObject -> File_ t (fName f) = Ok f) /\
    (oType o <> BlobObject -> File_ t (fName f) = Err ErrFileNotFound).
Proof.
  intros Hstore Htree Hout Hf.
  apply (Files_sends_the_leaves _ _ _ Hout) in Hf as (names & e & o & Hleaf & ->).
  destruct (leaf_in_store _ _ _ _ Hleaf) as [Hget Hty].
  destruct (leaf_found _ _ _ _ Hleaf Hstore Htree) as (Hne & Hnames & Hfind).
  exists o. split; [exact Hget|]. split; [exact Hty|]. split; [reflexivity|].
  assert (Hpath : findHash t (fName (file_of [] names e o)) = Ok (eHash e)).
  { unfold findHash, file_of. cbn [fName].
    change (fold_left filepath_Join names [])
      with (fold_left filepath_Join names (Join_with [] [SLASH])).
    rewrite (fold_filepath_Join names Hnames [] (Forall_nil_2 _)). cbn [app].
    rewrite Split_Join by (try assumption; now apply name_ok_no_slash).
    exact Hfind. }
  unfold File_. rewrite Hpath, Hget. split; intros Hblob.
  - now rewrite decide_True.
  - now rewrite decide_False.
Qed.

(** ** The traversal returns *)

Lemma visit_all_not_Panic (walk : Tree -> bytes -> list File -> result (list File))
    (t : Tree) (base : bytes) (l : list (bytes * TreeEntry)) :
  store_decodes (tr t) ->
  (forall t' base ch, tr t' = tr t -> walk t' base ch <> Panic) ->
  forall ch, visit_all walk t base l ch <> Panic.
Proof.
  intros Hstore Hwalk. induction l as [|kv l IH]; intros ch; [discriminate|].
  rewrite visit_all_cons.
  destruct (visit walk t base ch (snd kv)) as [ch1|e1| |] eqn:Hv; cbn [bind];
    try discriminate; [apply IH|].
  exfalso. unfold visit in Hv.
  destruct (Storage_Get (tr t) (eHash (snd kv))) as [o|] eqn:Hget; [|discriminate].
  destruct (decide (oType o = TreeObject)) as [Hty|]; [|discriminate].
  destruct (Decode (newTree (tr t)) o) as [[sub err]| | |] eqn:HD; cbn [bind fst] in Hv.
  - apply Hwalk in Hv; [assumption|]. now apply Decode_repository in HD.
  - discriminate.
  - now apply (Hstore _ _ Hget Hty).
  - discriminate.
Qed.

Lemma walkEntries_not_Panic (fuel : nat) (t : Tree) (base : bytes) (ch : list File) :
  store_decodes (tr t) -> walkEntries fuel t base ch <> Panic.
Proof.
  revert t base ch. induction fuel as [|fuel IH]; intros t base ch Hstore; [discriminate|].
  cbn [walkEntries]. apply visit_all_not_Panic; [assumption|].
  intros t' base' ch' Hrepo. apply IH. now rewrite Hrepo.
Qed.

(** On a tree of finite depth, in a store whose trees decode without a
    panic, [Files] returns the files it has sent. *)
Lemma Files_returns (n : nat) (t : Tree) :
  depth_below n t -> store_decodes (tr t) ->
  exists out, Files n t = Ok out.
Proof.
  intros Hdepth Hstore. unfold Files.
  destruct (walkEntries n t [] []) as [out|e| |] eqn:Hwalk.
  - eauto.
  - now apply walkEntries_not_Err in Hwalk.
  - now apply walkEntries_not_Panic in Hwalk.
  - now apply walkEntries_ends in Hwalk.
Qed.

End Agreement.

Section Unique.

Import git.

(** ** No path is sent twice *)

Lemma Join_with_inj (ns ms : list bytes) :
  ns <> [] -> ms <> [] -> Forall name_ok ns -> Forall name_ok ms ->
  Join_with ns [SLASH] = Join_with ms [SLASH] -> ns = ms.
Proof.
  intros Hns Hms Hokn Hokm Heq.
  rewrite <- (Split_Join ns), <- (Split_Join ms), Heq;
    auto using name_ok_no_slash.
Qed.

Lemma visit_all_sends_new (walk : Tree -> bytes -> list File -> result (list File))
    (t : Tree) (ns : list bytes) (l : list (bytes * TreeEntry)) :
  sends_new_paths walk ->
  store_ok (tr t) -> tree_ok t -> Forall name_ok ns ->
  (forall kv, kv ∈ l -> Entries t !! fst kv = Some (snd kv)) ->
  NoDup (fst <$> l) ->
  forall ch out,
    visit_all walk t (Join_with ns [SLASH]) l ch = Ok out ->
    exists new, out = ch ++ new /\ NoDup (fName <$> new) /\
      forall f, f ∈ new ->
        exists k rest, k ∈ (fst <$> l) /\ name_ok k /\ Forall name_ok rest /\
                       fName f = Join_with (ns ++ k :: rest) [SLASH].
Proof.
  intros Hwalk Hstore Htree Hns. induction l as [|[k e] l IH]; intros Hl Hkeys ch out.
  - intros [= <-]. exists []. split; [now rewrite app_nil_r|]. split; [constructor|].
    intros f Hf. now apply elem_of_nil in Hf.
  - rewrite visit_all_cons. cbn [snd].
    destruct (visit walk t (Join_with ns [SLASH]) ch e) as [ch1| | |] eqn:Hv;
      cbn [bind]; try discriminate.
    intros Hrest. cbn [fmap list_fmap fst] in Hkeys.
    apply NoDup_cons in Hkeys as [Hk Hkeys].
    apply IH in Hrest as (new2 & -> & Hdup2 & Hnew2);
      [|intros kv' Hin; apply Hl; now right|assumption].
    assert (He : Entries t !! k = Some e) by (apply (Hl (k, e)); left).
    destruct (Htree _ _ He) as [Hname Hok].
    assert (Hone : exists new1, ch1 = ch ++ new1 /\ NoDup (fName <$> new1) /\
               forall f, f ∈ new1 ->
                 exists rest, Forall name_ok rest /\
                              fName f = Join_with (ns ++ k :: rest) [SLASH]).
    { unfold visit in Hv.
      destruct (Storage_Get (tr t) (eHash e)) as [o|] eqn:Hget.
      - rewrite Hname, filepath_Join_name in Hv by assumption.
        destruct (decide (oType o = TreeObject)) as [Hty|Hty].
        + destruct (Decode (newTree (tr t)) o) as [[sub err]| | |] eqn:HD;
            cbn [bind fst] in Hv; try discriminate.
          apply Hwalk in Hv as (new1 & -> & Hdup1 & Hnew1).
          * exists new1. split; [reflexivity|]. split; [assumption|].
            intros f (names & _ & Hnames & ->)%Hnew1. exists names.
            split; [assumption|]. now rewrite <- app_assoc.
          * apply Decode_repository in HD. cbn [newTree tr] in HD. now rewrite HD.
          * eapply Hstore; eassumption.
          * apply Forall_app. auto.
        + injection Hv as <-. eexists. split; [reflexivity|].
          split; [apply NoDup_singleton|].
          intros f ->%list_elem_of_singleton. exists []. split; [constructor|reflexivity].
      - injection Hv as <-. exists []. split; [now rewrite app_nil_r|].
        split; [constructor|]. intros f Hf. now apply elem_of_nil in Hf. }
    destruct Hone as (new1 & -> & Hdup1 & Hnew1).
    exists (new1 ++ new2). split; [now rewrite app_assoc|]. split.
    + rewrite fmap_app. apply NoDup_app. split; [assumption|]. split; [|assumption].
      intros p (f1 & -> & Hf1)%list_elem_of_fmap (f2 & Heq & Hf2)%list_elem_of_fmap.
      destruct (Hnew1 _ Hf1) as (rest1 & Hrest1 & Hp1).
      destruct (Hnew2 _ Hf2) as (k2 & rest2 & Hk2 & Hok2 & Hrest2 & Hp2).
      rewrite Hp1, Hp2 in Heq. apply Join_with_inj in Heq.
      * apply app_inv_head in Heq. injection Heq as -> _. contradiction.
      * now destruct ns.
      * now destruct ns.
      * apply Forall_app. split; [assumption|]. now constructor.
      * apply Forall_app. split; [assumption|]. now constructor.
    + intros f [Hf|Hf]%elem_of_app.
      * destruct (Hnew1 _ Hf) as (rest & Hrest & Hp).
        exists k, rest. split; [now left|]. auto.
      * destruct (Hnew2 _ Hf) as (k2 & rest & Hk2 & Hok2 & Hrest & Hp).
        exists k2, rest. split; [now right|]. auto.
Qed.

Lemma walkEntries_sends_new (fuel : nat) : sends_new_paths (walkEntries fuel).
Proof.
  induction fuel as [|fuel IH]; intros t ns ch out Hstore Htree Hns; [discriminate|].
  cbn [walkEntries]. intros Hout.
  eapply visit_all_sends_new in Hout as (new & -> & Hdup & Hnew); try eassumption.
  - exists new. split; [reflexivity|]. split; [assumption|].
    intros f (k & rest & _ & Hk & Hrest & ->)%Hnew.
    exists (k :: rest). split; [discriminate|]. split; [now constructor|reflexivity].
  - intros [k e] Hin. now apply elem_of_map_to_list in Hin.
  - apply NoDup_fst_map_to_list.
Qed.

(** In a well-formed store [Files] sends no path twice. *)
Lemma Files_sends_once (fuel : nat) (t : Tree) (out : list File) :
  store_ok (tr t) -> tree_ok t ->
  Files fuel t = Ok out ->
  NoDup (fName <$> out).
Proof.
  intros Hstore Htree Hout. unfold Files in Hout.
  change (@nil ascii) with (Join_with [] [SLASH]) in Hout at 1.
  apply walkEntries_sends_new in Hout as (new & -> & Hdup & _);
    [assumption|assumption|assumption|constructor].
Qed.

End Unique.

Section BlobLeaves.

Import git.

(** ** The blob leaves among the leaves *)

(** In a well-formed store a blob leaf is a leaf, under the same names. *)
Lemma blob_leaf_leaf (t : Tree) (names : list bytes) (h : bytes) (o : Object) :
  blob_leaf t names h o ->
  store_ok (tr t) -> tree_ok t ->
  exists e, leaf t names e o /\ eHash e = h /\ oType o = BlobObject.
Proof.
  induction 1 as [t name e o He Hget Hty|t name e o sub err names h b He Hget Hty HD Hleaf IH];
    intros Hstore Htree.
  - destruct (Htree _ _ He) as [Hname _]. exists e. rewrite <- Hname at 1.
    split; [|auto]. eapply leaf_entry; [eassumption..|]. rewrite Hty. discriminate.
  - destruct (Htree _ _ He) as [Hname _].
    pose proof (Decode_repository _ _ _ _ HD) as Hrepo. cbn [newTree tr] in Hrepo.
    destruct IH as (e' & Hleaf' & Hh & Hb).
    { now rewrite Hrepo. }
    { eapply Hstore; eassumption. }
    exists e'. rewrite <- Hname at 1. split; [|auto]. eapply leaf_sub; eassumption.
Qed.

(** In a well-formed store [Files] sends every blob leaf, under the path
    made of its names, with the blob's hash and size. *)
Lemma Files_sends_every_blob (fuel : nat) (t : Tree) (out : list File)
    (names : list bytes) (h : bytes) (o : Object) :
  store_ok (tr t) -> tree_ok t ->
  Files fuel t = Ok out ->
  blob_leaf t names h o ->
  mkFile (Join_with names [SLASH]) (oReader o) h (oSize o) ∈ out.
Proof.
  intros Hstore Htree Hout Hblob.
  destruct (blob_leaf_leaf _ _ _ _ Hblob Hstore Htree) as (e & Hleaf & <- & _).
  destruct (leaf_found _ _ _ _ Hleaf Hstore Htree) as (_ & Hnames & _).
  apply (Files_sends_the_leaves _ _ _ Hout). exists names, e, o.
  split; [assumption|]. unfold file_of. f_equal.
  change (fold_left filepath_Join names [])
    with (fold_left filepath_Join names (Join_with [] [SLASH])).
  now rewrite (fold_filepath_Join names Hnames [] (Forall_nil_2 _)).
Qed.

End BlobLeaves.

Section OnTheRepository.

Import git.

(** ** The repository of the examples is well formed *)

Lemma repo_objects (h : bytes) (o : Object) :
  Storage_Get repo h = Some o -> In o objects.
Proof. intros H. now apply find_some in H as [H _]. Qed.

Ltac name_is_ok :=
  split; [discriminate|];
  split; [apply (bool_decide_unpack _); vm_compute; exact I|];
  split; discriminate.

Ltac fits_buffer := apply Nat.leb_le; vm_compute; reflexivity.

Lemma tree_at_root : root = mkTree (add_records ∅ root_records) (hash_of "r") repo.
Proof.
  unfold root, tree_at.
  change (Storage_Get repo (hash_of "r")) with (Some (tree_object (hash_of "r") root_records)).
  cbv beta iota.
  now rewrite Decode_tree_object by (reflexivity || fits_buffer).
Qed.

Lemma tree_at_pinned_root :
  pinned_root = mkTree (add_records ∅ pinned_records) (hash_of "p") repo.
Proof.
  unfold pinned_root, tree_at.
  change (Storage_Get repo (hash_of "p")) with (Some (tree_object (hash_of "p") pinned_records)).
  cbv beta iota.
  now rewrite Decode_tree_object by (reflexivity || fits_buffer).
Qed.

Lemma root_repository : tr root = repo.
Proof. now rewrite tree_at_root. Qed.

Lemma repo_store_ok : store_ok repo.
Proof.
  intros h o t err Hget Hty HD. apply repo_objects in Hget.
  unfold objects in Hget. cbn [In] in Hget.
  destruct Hget as [<-|[<-|[<-|[<-|[<-|[<-|[]]]]]]]; try discriminate Hty;
    (eapply tree_object_ok; [| | |exact HD];
     [reflexivity|fits_buffer|repeat (constructor; [name_is_ok|]); constructor]).
Qed.

Lemma repo_store_decodes : store_decodes repo.
Proof.
  intros h o Hget Hty. apply repo_objects in Hget.
  unfold objects in Hget. cbn [In] in Hget.
  destruct Hget as [<-|[<-|[<-|[<-|[<-|[<-|[]]]]]]]; try discriminate Hty;
    rewrite Decode_tree_object by (reflexivity || fits_buffer); discriminate.
Qed.

Lemma root_tree_ok : tree_ok root.
Proof.
  rewrite tree_at_root. apply add_records_tree_ok.
  repeat (constructor; [name_is_ok|]); constructor.
Qed.

Lemma root_depth : depth_below 2 root.
Proof.
  intros k e o sub err He Hget Hty HD. rewrite root_repository in *.
  rewrite tree_at_root in He. cbn [Entries] in He.
  apply add_records_lookup in He as [He|(rec & Hin & -> & ->)];
    [now rewrite lookup_empty in He|].
  apply list_elem_of_In in Hin. unfold root_records in Hin. cbn [In] in Hin.
  destruct Hin as [<-|[<-|[<-|[]]]];
    [injection Hget as <-; discriminate Hty| |discriminate Hget].
  change (Storage_Get repo _) with (Some (tree_object (hash_of "d") adir_records)) in Hget.
  injection Hget as <-.
  rewrite Decode_tree_object in HD by (reflexivity || fits_buffer).
  assert (sub = mkTree (add_records ∅ adir_records) (hash_of "d") repo) as ->
    by congruence.
  intros k' e' o' sub' err' He' Hget' Hty' HD'. cbn [Entries tr] in *.
  apply add_records_lookup in He' as [He'|(rec & Hin & -> & ->)];
    [now rewrite lookup_empty in He'|].
  apply list_elem_of_In in Hin. unfold adir_records in Hin. cbn [In] in Hin.
  destruct Hin as [<-|[]]. injection Hget' as <-. discriminate Hty'.
Qed.

(** The general results apply to the root of the examples: [Files]
    returns, the paths sent are different, and [File] finds each of them
    that is a blob. *)
Lemma Files_and_File_on_root :
  exists out,
    Files 2 root = Ok out /\
    NoDup (fName <$> out) /\
    forall f, f ∈ out ->
      exists o, Storage_Get repo (fHash f) = Some o /\
                (oType o = BlobObject -> File_ root (fName f) = Ok f).
Proof.
  pose proof repo_store_ok as Hstore. rewrite <- root_repository in Hstore.
  destruct (Files_returns 2 root root_depth) as [out Hout].
  { rewrite root_repository. apply repo_store_decodes. }
  exists out. split; [exact Hout|]. split.
  - eapply Files_sends_once; [exact Hstore|apply root_tree_ok|exact Hout].
  - intros f Hf.
    destruct (Files_then_File _ _ _ f Hstore root_tree_ok Hout Hf)
      as (o & Hget & _ & _ & Hblob & _).
    rewrite root_repository in Hget. eauto.
Qed.

End OnTheRepository.

Section LookupClaims.

Import git.

(** The five ways of the theorem on one tree: a directory that is not
    there, a file that is not there in a directory that is, a submodule
    without its object, a file taken for a directory, a directory taken
    for a file. *)
Lemma File_reports_FileNotFound_witness :
  File_ root (lit "missing/x") = Err ErrFileNotFound /\
  File_ root (lit "adir/missing") = Err ErrFileNotFound /\
  File_ root (lit "submodule/x") = Err ErrFileNotFound /\
  File_ root (lit "a.txt/x") = Err ErrFileNotFound /\
  File_ root (lit "adir") = Err ErrFileNotFound.
Proof.
  split; [|split; [|split; [|split]]].
  - apply (proj2 (File_reports_FileNotFound root (lit "missing/x"))
             [] (lit "missing") [lit "x"] root);
      [reflexivity|reflexivity|].
    left. reflexivity.
  - apply (proj2 (File_reports_FileNotFound root (lit "adir/missing"))
             [lit "adir"] (lit "missing") [] (tree_at (hash_of "d")));
      [reflexivity|vm_compute; reflexivity|].
    left. vm_compute. reflexivity.
  - apply (proj2 (File_reports_FileNotFound root (lit "submodule/x"))
             [] (lit "submodule") [lit "x"] root);
      [reflexivity|reflexivity|].
    right. left. exists (record_entry (mkRecord (lit "160000") (lit "submodule") (hash_of "s"))).
    split; vm_compute; reflexivity.
  - apply (proj2 (File_reports_FileNotFound root (lit "a.txt/x"))
             [] (lit "a.txt") [lit "x"] root);
      [reflexivity|reflexivity|].
    right. right. left.
    exists (record_entry (mkRecord (lit "100644") (lit "a.txt") (hash_of "a"))),
           (blob_object (hash_of "a") (lit "hello")).
    split; [discriminate|]. split; [vm_compute; reflexivity|].
    split; [vm_compute; reflexivity|]. discriminate.
  - apply (proj2 (File_reports_FileNotFound root (lit "adir"))
             [] (lit "adir") [] root);
      [reflexivity|reflexivity|].
    right. right. right.
    exists (record_entry (mkRecord (lit "40000") (lit "adir") (hash_of "d"))),
           (tree_object (hash_of "d") adir_records).
    split; [reflexivity|]. split; [vm_compute; reflexivity|].
    split; [vm_compute; reflexivity|]. discriminate.
Defined.

Lemma repo_content_addressed : content_addressed repo.
Proof.
  intros h o Hget. apply find_some in Hget as [_ Hh].
  now apply bool_decide_eq_true in Hh.
Qed.

Lemma File_returns_the_blob_witness :
  let f := mkFile (lit "adir/x") (mkReader (lit "xyz") io_EOF) (hash_of "x") 3 in
  File_ root (lit "adir/x") = Ok f /\
  fName f = lit "adir/x" /\
  exists o,
    findHash root (lit "adir/x") = Ok (fHash f) /\
    Storage_Get (tr root) (fHash f) = Some o /\
    oType o = BlobObject /\
    fSize f = oSize o /\
    fReader f = oReader o /\
    fHash f = oHash o.
Proof.
  split; [vm_compute; reflexivity|].
  destruct (File_returns_the_blob root (lit "adir/x")
              (mkFile (lit "adir/x") (mkReader (lit "xyz") io_EOF) (hash_of "x") 3))
    as (Hname & o & Hfind & Hget & Hty & Hsize & Hrd & Hhash);
    [vm_compute; reflexivity|].
  split; [exact Hname|]. exists o.
  split; [exact Hfind|]. split; [exact Hget|]. split; [exact Hty|].
  split; [exact Hsize|]. split; [exact Hrd|].
  apply Hhash. rewrite root_repository. exact repo_content_addressed.
Defined.

(** C2, on the code: the root has one entry, a submodule whose commit is in
    the store.  [Files] sends it as a file; [File], asked for the name
    sent, reports [ErrFileNotFound]. *)
Theorem Files_sends_what_File_rejects :
  exists f,
    (forall fuel, Files (S fuel) pinned_root = Ok [f]) /\
    fName f = lit "lib" /\
    File_ pinned_root (fName f) = Err ErrFileNotFound.
Proof.
  eexists. split; [intros fuel; vm_compute; reflexivity|].
  split; vm_compute; reflexivity.
Qed.

(** C5, on the code: on the same root [Files] sends one file, and the
    object of that file is a commit; the root has no blob leaf at that
    path, nor anywhere. *)
Theorem Files_sends_a_commit :
  exists f o,
    (forall fuel, Files (S fuel) pinned_root = Ok [f]) /\
    fName f = lit "lib" /\
    Storage_Get (tr pinned_root) (fHash f) = Some o /\
    oType o = CommitObject /\
    (forall names h b, ~ blob_leaf pinned_root names h b).
Proof.
  eexists _, _. split; [intros fuel; vm_compute; reflexivity|].
  split; [vm_compute; reflexivity|]. split; [vm_compute; reflexivity|].
  split; [reflexivity|].
  assert (Hlib : forall name e, Entries pinned_root !! name = Some e ->
                   Storage_Get (tr pinned_root) (eHash e)
                     = Some (commit_object (hash_of "c") (lit "tree 0000 author nobody"))).
  { intros name e He.
    assert (Hin : (name, e) ∈ map_to_list (Entries pinned_root))
      by now apply elem_of_map_to_list.
    vm_compute in Hin. apply list_elem_of_In in Hin. simpl in Hin.
    destruct Hin as [[= <- <-]|[]]. vm_compute. reflexivity. }
  intros names h b Hleaf.
  inversion Hleaf as [t name e o He Hget Hty|t name e o sub err names' h' b' He Hget Hty];
    subst; rewrite (Hlib _ _ He) in Hget; injection Hget as <-; discriminate Hty.
Qed.

End LookupClaims.

(** * Further properties of the tree decoder *)

Section MoreDecoding.

Import git.

(** ** What [Decode] keeps true of the entries *)

Lemma Read_got_length (n : nat) (b b' : bufio_Reader) (got : bytes) (err : option ReadErr) :
  Read n b = (got, err, b') -> (length got <= n)%nat.
Proof.
  unfold Read. destruct (buffered _) as [|c s].
  - intros [= <- _ _]. cbn [length]. lia.
  - intros [= <- _ _]. rewrite length_take. lia.
Qed.

Lemma fill_hash_length (got : bytes) :
  (length got <= HashSize)%nat -> length (fill_hash got) = HashSize.
Proof.
  intros H. unfold fill_hash. rewrite length_app, length_replicate. lia.
Qed.

Lemma FileMode_range (fm : Z) : 0 <= FileMode fm < 2 ^ 32.
Proof. unfold FileMode. apply Z.mod_pos_bound. lia. Qed.

Lemma entries_wf_insert (m : gmap bytes TreeEntry) (name : bytes) (fm : Z) (got : bytes) :
  entries_wf m -> (length got <= HashSize)%nat ->
  entries_wf (<[name := mkTreeEntry name (FileMode fm) (fill_hash got)]> m).
Proof.
  intros Hm Hgot k e. destruct (decide (name = k)) as [<-|Hne].
  - rewrite lookup_insert_eq. intros [= <-]. cbn [eName eHash eMode].
    split; [reflexivity|]. split; [now apply fill_hash_length|apply FileMode_range].
  - rewrite lookup_insert_ne by assumption. apply Hm.
Qed.

Lemma Decode_loop_entries_wf (fuel : nat) :
  forall (acc m : gmap bytes TreeEntry) (b : bufio_Reader) (err : option error),
    Decode_loop fuel acc b = Ok (m, err) -> entries_wf acc -> entries_wf m.
Proof.
  induction fuel as [|fuel IH]; intros acc m b err; [discriminate|].
  rewrite Decode_loop_S.
  destruct (ReadString SP b) as [[mode e1] b1].
  destruct e1 as [[|msg]|]; [now intros [= <- _]|now intros [= <- _]|].
  destruct mode as [|c mode]; [discriminate|].
  rewrite dropLast_cons. cbn [bind].
  destruct (ParseInt _) as [ne|fm]; [now intros [= <- _]|].
  destruct (ReadString NUL b1) as [[name e2] b2].
  destruct (other_than_EOF e2); [now intros [= <- _]|].
  destruct (Read HashSize b2) as [[got e3] b3] eqn:H3.
  apply Read_got_length in H3.
  destruct (other_than_EOF e3); [now intros [= <- _]|].
  destruct name as [|c' name]; [discriminate|].
  rewrite dropLast_cons. cbn [bind].
  intros Hloop Hacc. eapply IH; [exact Hloop|]. now apply entries_wf_insert.
Qed.

(** X1: whatever the object holds, the entries [Decode] leaves in the tree
    are stored under their own names, with hashes of 20 bytes and modes of
    32 bits, when the declared size is not zero or the receiver's entries
    were so before; the tree takes the object's hash and keeps its
    repository. *)
Theorem Decode_entries_well_formed (t t' : Tree) (o : Object) (err : option error) :
  Decode t o = Ok (t', err) ->
  oSize o <> 0 \/ entries_wf (Entries t) ->
  entries_wf (Entries t') /\ tHash t' = oHash o /\ tr t' = tr t.
Proof.
  unfold Decode. destruct (oSize o =? 0) eqn:Hz.
  - intros [= <- _] [Hnz|Hwf]; [apply Z.eqb_eq in Hz; contradiction|].
    cbn [Entries tHash tr]. auto.
  - destruct (Decode_loop _ _ _) as [[m e]| | |] eqn:Hloop; cbn [bind]; try discriminate.
    intros [= <- _] _. cbn [Entries tHash tr fst]. split; [|auto].
    eapply Decode_loop_entries_wf; [exact Hloop|].
    intros k e'. now rewrite lookup_empty.
Qed.

(** ** The loop on a stream that begins with well-formed records *)


(** One turn of the loop on a well-formed record. *)
Lemma Decode_loop_record (fuel : nat) (acc : gmap bytes TreeEntry) (b : bufio_Reader)
    (rec : record) (rest : bytes) :
  record_ok rec = true ->
  whole b ->
  unread b = encode_record rec ++ rest ->
  Decode_loop (S fuel) acc b
    = Decode_loop fuel (<[rName rec := record_entry rec]> acc)
        (mkBufio rest (mkReader [] (final (rd b)))).
Proof.
  intros Hrec Hwhole Hdata. rewrite Decode_loop_S.
  destruct (record_ok_inv _ Hrec) as ((fm & Hfm) & Hnul & Hhash).
  pose proof (ParseInt_no_space _ _ Hfm) as Hmode.
  assert (Hshape : unread b = rMode rec ++ SP :: rName rec ++ NUL :: rHash rec ++ rest).
  { rewrite Hdata. unfold encode_record. rewrite <- !app_assoc. cbn [app].
    rewrite <- !app_assoc. reflexivity. }
  rewrite ReadString_whole by assumption.
  rewrite Hshape, (cut_at_app SP (rMode rec)) by assumption.
  rewrite dropLast_snoc. cbn [bind]. rewrite Hfm.
  rewrite ReadString_whole by (left; reflexivity).
  unfold unread at 1. cbn [buffered rd pending final]. rewrite app_nil_r.
  rewrite (cut_at_app NUL (rName rec)) by assumption.
  cbn [other_than_EOF].
  rewrite Read_whole by assumption. cbn [other_than_EOF].
  rewrite dropLast_snoc. cbn [bind].
  rewrite fill_hash_full by assumption.
  unfold record_entry. now rewrite Hfm.
Qed.

(** The loop takes the well-formed records at the head of the stream and
    goes on with what follows them. *)
Lemma Decode_loop_prefix (recs : list record) :
  forall (fuel : nat) (acc : gmap bytes TreeEntry) (rest : bytes) (b : bufio_Reader),
    forallb record_ok recs = true ->
    whole b ->
    unread b = encode recs ++ rest ->
    (length (unread b) < fuel)%nat ->
    exists fuel' b',
      whole b' /\ unread b' = rest /\ final (rd b') = final (rd b) /\
      (length rest < fuel')%nat /\
      Decode_loop fuel acc b = Decode_loop fuel' (add_records acc recs) b'.
Proof.
  induction recs as [|rec recs IH]; intros fuel acc rest b Hok Hwhole Hdata Hfuel.
  - exists fuel, b. rewrite Hdata in Hfuel. auto.
  - destruct fuel as [|fuel]; [lia|].
    simpl in Hok. apply andb_true_iff in Hok as [Hrec Hrecs].
    change (encode (rec :: recs)) with (encode_record rec ++ encode recs) in Hdata.
    rewrite <- app_assoc in Hdata.
    rewrite (Decode_loop_record fuel acc b rec (encode recs ++ rest)) by assumption.
    destruct (IH fuel (<[rName rec := record_entry rec]> acc)
                rest (mkBufio (encode recs ++ rest) (mkReader [] (final (rd b)))))
      as (fuel' & b' & Hw' & Hu' & Hf' & Hlen' & Heq).
    + assumption.
    + left. reflexivity.
    + unfold unread. cbn [buffered rd pending]. now rewrite app_nil_r.
    + unfold unread at 1. cbn [buffered rd pending]. rewrite app_nil_r.
      rewrite Hdata in Hfuel. rewrite length_app in Hfuel.
      assert (0 < length (encode_record rec))%nat.
      { unfold encode_record. rewrite length_app. cbn [length]. lia. }
      cbn [length] in Hfuel. lia.
    + exists fuel', b'. split; [assumption|]. split; [assumption|].
      split; [exact Hf'|]. split; [assumption|]. exact Heq.
Qed.

(** The loop leaves at the end of the stream. *)
Lemma Decode_loop_at_end (fuel : nat) (acc : gmap bytes TreeEntry) (b : bufio_Reader) :
  whole b -> (SP ∉ unread b) -> final (rd b) = io_EOF -> (0 < fuel)%nat ->
  Decode_loop fuel acc b = Ok (acc, None).
Proof.
  intros Hwhole Hsp Hfin Hfuel. destruct fuel as [|fuel]; [lia|].
  rewrite Decode_loop_S, ReadString_whole by assumption.
  now rewrite cut_at_none, Hfin by assumption.
Qed.





End MoreDecoding.

Section DecodeBehaviour.

Import git.

(** ** [Decode] on a stream that begins with well-formed records *)

(** With a declared size that is not zero, [Decode] takes the well-formed
    records at the head of a stream that fits the buffer, and the loop goes
    on with what follows them. *)
Lemma Decode_after_records (t : Tree) (o : Object) (recs : list record)
    (tail : bytes) (fin : ReadErr) :
  oSize o <> 0 ->
  oReader o = mkReader (encode recs ++ tail) fin ->
  forallb record_ok recs = true ->
  (length (encode recs ++ tail) <= defaultBufSize)%nat ->
  exists fuel b,
    whole b /\ unread b = tail /\ final (rd b) = fin /\ (length tail < fuel)%nat /\
    Decode t o =
      let? out := Decode_loop fuel (add_records ∅ recs) b in
      Ok (mkTree (fst out) (oHash o) (tr t), snd out).
Proof.
  intros Hsize Hrd Hok Hfits. unfold Decode.
  apply Z.eqb_neq in Hsize. rewrite Hsize.
  destruct (Decode_loop_prefix recs (S (length (unread (bufio_NewReader (oReader o)))))
              ∅ tail (bufio_NewReader (oReader o)))
    as (fuel & b & Hw & Hu & Hf & Hlen & Heq).
  - assumption.
  - right. rewrite Hrd. split; [reflexivity|assumption].
  - now rewrite Hrd.
  - lia.
  - exists fuel, b. rewrite Hrd in Hf. cbn [bufio_NewReader rd final] in Hf.
    split; [assumption|]. split; [assumption|]. split; [assumption|].
    split; [assumption|]. now rewrite Heq.
Qed.

Lemma add_records_other (recs : list record) :
  forall (m : gmap bytes TreeEntry) (k : bytes),
    k ∉ (rName <$> recs) -> add_records m recs !! k = m !! k.
Proof.
  induction recs as [|rec recs IH]; intros m k Hk; [reflexivity|].
  cbn [fmap list_fmap] in Hk. apply not_elem_of_cons in Hk as [Hne Hk].
  cbn [add_records fold_left]. fold (add_records (<[rName rec := record_entry rec]> m) recs).
  rewrite IH by assumption. now rewrite lookup_insert_ne by congruence.
Qed.

Lemma add_records_member (recs : list record) :
  forall (m : gmap bytes TreeEntry) (rec : record),
    NoDup (rName <$> recs) -> rec ∈ recs ->
    add_records m recs !! rName rec = Some (record_entry rec).
Proof.
  induction recs as [|r0 recs IH]; intros m rec Hdup Hin; [now apply elem_of_nil in Hin|].
  cbn [fmap list_fmap] in Hdup. apply NoDup_cons in Hdup as [Hfresh Hdup].
  cbn [add_records fold_left]. fold (add_records (<[rName r0 := record_entry r0]> m) recs).
  apply elem_of_cons in Hin as [->|Hin].
  - rewrite add_records_other by assumption. apply lookup_insert_eq.
  - now apply IH.
Qed.

(** X2: the round trip.  Well-formed records of different names, written
    one after the other in a stream that fits the reader's buffer, decode
    without error to the mapping that has, under each name, the entry of
    its record, and nothing else. *)
Theorem Decode_encode_round_trip (t : Tree) (o : Object) (recs : list record) :
  forallb record_ok recs = true ->
  NoDup (rName <$> recs) ->
  oReader o = mkReader (encode recs) io_EOF ->
  oSize o <> 0 ->
  (length (encode recs) <= defaultBufSize)%nat ->
  exists t',
    Decode t o = Ok (t', None) /\
    forall k e,
      Entries t' !! k = Some e <->
      exists rec, rec ∈ recs /\ k = rName rec /\ e = record_entry rec.
Proof.
  intros Hok Hdup Hrd Hsize Hfits.
  destruct (Decode_after_records t o recs [] io_EOF) as (fuel & b & Hw & Hu & Hf & Hlen & ->);
    try assumption; try (now rewrite app_nil_r).
  rewrite Decode_loop_at_end; [|assumption|rewrite Hu; apply not_elem_of_nil|assumption|lia].
  cbn [bind fst snd]. eexists. split; [reflexivity|]. cbn [Entries]. intros k e. split.
  - intros [H|H]%add_records_lookup; [now rewrite lookup_empty in H|exact H].
  - intros (rec & Hin & -> & ->). now apply add_records_member.
Qed.





End DecodeBehaviour.

Section DecodeEnds.

Import git.

(** ** Records of the same name *)

Lemma add_records_last (recs : list record) :
  forall (m : gmap bytes TreeEntry) (k : bytes),
    add_records m recs !! k =
      match last (filter (fun rec => rName rec = k) recs) with
      | Some rec => Some (record_entry rec)
      | None => m !! k
      end.
Proof.
  induction recs as [|r recs IH]; intros m k; [reflexivity|].
  change (add_records m (r :: recs))
    with (add_records (<[rName r := record_entry r]> m) recs).
  rewrite IH, filter_cons. destruct (decide (rName r = k)) as [<-|Hne].
  - rewrite last_cons. destruct (last (filter _ recs)); [reflexivity|].
    apply lookup_insert_eq.
  - destruct (last (filter _ recs)); [reflexivity|]. now apply lookup_insert_ne.
Qed.

(** X25: records of the same name do not make [Decode] fail: of
    well-formed records in a stream that fits the reader's buffer, the
    tree holds under each name the entry of the last record of that
    name, and no entry under any other name. *)
Theorem Decode_last_record_wins (t : Tree) (o : Object) (recs : list record) :
  forallb record_ok recs = true ->
  oReader o = mkReader (encode recs) io_EOF ->
  oSize o <> 0 ->
  (length (encode recs) <= defaultBufSize)%nat ->
  exists t',
    Decode t o = Ok (t', None) /\
    forall k,
      Entries t' !! k
        = record_entry <$> last (filter (fun rec => rName rec = k) recs).
Proof.
  intros Hok Hrd Hsize Hfits.
  destruct (Decode_after_records t o recs [] io_EOF) as (fuel & b & Hw & Hu & Hf & Hlen & ->);
    try assumption; try (now rewrite app_nil_r).
  rewrite Decode_loop_at_end; [|assumption|rewrite Hu; apply not_elem_of_nil|assumption|lia].
  cbn [bind fst snd]. eexists. split; [reflexivity|]. cbn [Entries]. intros k.
  rewrite add_records_last, lookup_empty.
  now destruct (last (filter _ recs)).
Qed.

(** ** The loop of [Decode] ends *)

Lemma Decode_loop_more_fuel (fuel : nat) :
  forall (acc : gmap bytes TreeEntry) (b : bufio_Reader),
    Decode_loop fuel acc b <> Diverge ->
    Decode_loop (S fuel) acc b = Decode_loop fuel acc b.
Proof.
  induction fuel as [|fuel IH]; intros acc b Hend; [now destruct Hend|].
  rewrite (Decode_loop_S (S fuel)). rewrite Decode_loop_S in Hend |- *.
  destruct (ReadString SP b) as [[mode err] r1].
  destruct err as [[|msg]|]; try reflexivity.
  destruct (dropLast mode) as [digits| | |]; cbn [bind] in *; try reflexivity.
  destruct (ParseInt digits) as [ne|fm]; [reflexivity|].
  destruct (ReadString NUL r1) as [[name err] r2].
  destruct (other_than_EOF err); [reflexivity|].
  destruct (Read HashSize r2) as [[got err'] r3].
  destruct (other_than_EOF err'); [reflexivity|].
  destruct (dropLast name) as [baseName| | |]; cbn [bind] in *; try reflexivity.
  now apply IH.
Qed.

Lemma Decode_loop_fuel_le (n fuel : nat) (acc : gmap bytes TreeEntry) (b : bufio_Reader) :
  (n <= fuel)%nat ->
  Decode_loop n acc b <> Diverge ->
  Decode_loop fuel acc b = Decode_loop n acc b.
Proof.
  intros Hle Hend. induction Hle as [|fuel Hle IH]; [reflexivity|].
  rewrite Decode_loop_more_fuel; [exact IH|]. now rewrite IH.
Qed.

(** X26: [Decode] ends on every object: it returns, with or without an
    error, or it panics.  Every turn of its loop takes at least one byte,
    so that more turns than there are bytes unread are never made: with
    any bound above that number the loop comes to the same result, which
    is not that of a loop cut short. *)
Theorem Decode_always_ends (t : Tree) (o : Object) :
  ((exists t' err, Decode t o = Ok (t', err)) \/ Decode t o = Panic) /\
  (forall fuel acc b,
     (length (unread b) < fuel)%nat ->
     Decode_loop fuel acc b = Decode_loop (S (length (unread b))) acc b /\
     Decode_loop fuel acc b <> Diverge).
Proof.
  split; [apply Decode_returns_or_panics|].
  intros fuel acc b Hlt. split.
  - apply Decode_loop_fuel_le; [lia|]. apply Decode_loop_terminates. lia.
  - now apply Decode_loop_terminates.
Qed.

(** The object cut off inside a name, with a hundred turns allowed. *)
Lemma Decode_always_ends_witness :
  let b := bufio_NewReader (oReader cut_in_name) in
  Decode_loop 100 ∅ b = Decode_loop (S (length (unread b))) ∅ b /\
  Decode_loop 100 ∅ b <> Diverge.
Proof.
  apply (proj2 (Decode_always_ends (newTree repo) cut_in_name)).
  vm_compute. lia.
Defined.

(** Two records of the name [x], the second with another hash. *)
Lemma Decode_last_record_wins_witness :
  let recs := adir_records ++ [mkRecord (lit "100755") (lit "x") (hash_of "y")] in
  exists t',
    Decode (newTree repo) (tree_object (hash_of "t") recs) = Ok (t', None) /\
    forall k,
      Entries t' !! k
        = record_entry <$> last (filter (fun rec => rName rec = k) recs).
Proof.
  apply (Decode_last_record_wins (newTree repo)
           (tree_object (hash_of "t")
              (adir_records ++ [mkRecord (lit "100755") (lit "x") (hash_of "y")]))).
  - reflexivity.
  - reflexivity.
  - vm_compute. discriminate.
  - apply Nat.leb_le. vm_compute. reflexivity.
Defined.

End DecodeEnds.

(** * Further properties of the path lookup *)

Section MoreLookup.

Import git.

(** ** Where the lookup stops *)

Lemma dir_error (t : Tree) (name : bytes) (e : error) :
  dir t name = Err e -> e = errDirNotFound.
Proof.
  unfold dir, entry. destruct (Entries t !! name) as [en|]; [|now intros [= <-]].
  destruct (Storage_Get (tr t) (eHash en)) as [o|]; [|now intros [= <-]].
  destruct (decide (oType o = TreeObject)); [|now intros [= <-]].
  destruct (Decode_returns_or_panics (newTree (tr t)) o) as [(sub & err & ->)| ->];
    discriminate.
Qed.

Lemma findHash_from_error (names : list bytes) :
  forall (t : Tree) (e : error),
    findHash_from t names = Err e ->
    exists before name after t',
      names = before ++ name :: after /\
      descend t before = Ok t' /\
      ((after = [] /\ e = errEntryNotFound /\ Entries t' !! name = None) \/
       (after <> [] /\ e = errDirNotFound /\ dir t' name = Err errDirNotFound)).
Proof.
  induction names as [|p names IH]; intros t e; [discriminate|].
  destruct names as [|q names].
  - cbn [findHash_from]. unfold entry.
    destruct (Entries t !! p) as [en|] eqn:Hp; [discriminate|]. intros [= <-].
    exists [], p, [], t. split; [reflexivity|]. split; [reflexivity|]. left. auto.
  - rewrite findHash_from_cons.
    destruct (dir t p) as [t1|e1| |] eqn:Hdir; cbn [bind]; try discriminate.
    + intros (before & name & after & t' & Hnames & Hdown & Hcase)%IH.
      exists (p :: before), name, after, t'. split; [now rewrite Hnames|].
      split; [|exact Hcase]. cbn [descend]. now rewrite Hdir.
    + intros [= <-]. pose proof (dir_error _ _ _ Hdir) as ->.
      exists [], p, (q :: names), t. split; [reflexivity|]. split; [reflexivity|].
      right. split; [discriminate|]. auto.
Qed.

(** X7: [findHash] fails in two ways only.  It returns the "entry not
    found" error when all the directories of the path were found and the
    last name is absent from the last of them, and the "directory not
    found" error when the lookup stops at a name before the last. *)
Theorem findHash_stops_at (t : Tree) (path : bytes) (e : error) :
  findHash t path = Err e ->
  exists before name after t',
    Split path SLASH = before ++ name :: after /\
    descend t before = Ok t' /\
    ((after = [] /\ e = errEntryNotFound /\ Entries t' !! name = None) \/
     (after <> [] /\ e = errDirNotFound /\ dir t' name = Err errDirNotFound)).
Proof. unfold findHash. apply findHash_from_error. Qed.

(** ** Looking up below a directory *)

Lemma Split_cons (s : bytes) (sep : ascii) :
  exists x xs, Split s sep = x :: xs.
Proof.
  induction s as [|c s (x & xs & IH)]; cbn [Split]; [eauto|].
  destruct (decide (c = sep)); [eauto|]. rewrite IH. eauto.
Qed.

Lemma findHash_below (t : Tree) (name rest : bytes) :
  SLASH ∉ name ->
  findHash t (name ++ SLASH :: rest) = let? sub := dir t name in findHash sub rest.
Proof.
  intros Hname. unfold findHash. rewrite Split_app_sep by assumption.
  destruct (Split_cons rest SLASH) as (x & xs & ->). apply findHash_from_cons.
Qed.

(** X8: the lookup of [name/rest] is the lookup of [rest] in the directory
    [name]: [File] returns the file found there, under the whole path, and
    fails or panics as the step into the directory or the lookup there
    does. *)
Theorem File_below_dir (t : Tree) (name rest : bytes) :
  SLASH ∉ name ->
  File_ t (name ++ SLASH :: rest) =
    match dir t name with
    | Ok sub =>
        match File_ sub rest with
        | Ok f => Ok (mkFile (name ++ SLASH :: rest) (fReader f) (fHash f) (fSize f))
        | other => other
        end
    | Err _ => Err ErrFileNotFound
    | Panic => Panic
    | Diverge => Diverge
    end.
Proof.
  intros Hname. unfold File_ at 1. rewrite findHash_below by assumption.
  destruct (dir t name) as [sub| | |] eqn:Hdir; cbn [bind]; try reflexivity.
  apply dir_repository in Hdir. unfold File_. rewrite Hdir.
  destruct (findHash sub rest) as [h| | |]; try reflexivity.
  destruct (Storage_Get (tr t) h) as [o|]; [|reflexivity].
  destruct (decide (oType o = BlobObject)); reflexivity.
Qed.

(** ** The paths [File] finds *)

Lemma blob_leaf_found (t : Tree) (names : list bytes) (h : bytes) (o : Object) :
  blob_leaf t names h o ->
  findHash_from t names = Ok h /\
  Storage_Get (tr t) h = Some o /\ oType o = BlobObject.
Proof.
  induction 1 as [t name e o He Hget Hty
                 |t name e o sub err names h b He Hget Hty HD Hleaf (Hfind & Hget' & Hty')].
  - cbn [findHash_from]. unfold entry. rewrite He. auto.
  - apply Decode_repository in HD as Hrepo. cbn [newTree tr] in Hrepo.
    rewrite Hrepo in Hget'. split; [|auto].
    assert (Hnames : exists x xs, names = x :: xs).
    { inversion Hleaf; eauto. }
    destruct Hnames as (x & xs & ->). rewrite findHash_from_cons.
    unfold dir, entry. rewrite He, Hget. rewrite decide_True by assumption.
    rewrite HD. exact Hfind.
Qed.

Lemma found_blob_leaf (names : list bytes) :
  forall (t : Tree) (h : bytes) (o : Object),
    findHash_from t names = Ok h ->
    Storage_Get (tr t) h = Some o -> oType o = BlobObject ->
    blob_leaf t names h o.
Proof.
  induction names as [|p names IH]; intros t h o; [discriminate|].
  destruct names as [|q names].
  - cbn [findHash_from]. unfold entry.
    destruct (Entries t !! p) as [e|] eqn:He; [|discriminate].
    intros [= <-] Hget Hty. now apply leaf_here.
  - rewrite findHash_from_cons. unfold dir, entry.
    destruct (Entries t !! p) as [e|] eqn:He; [|discriminate].
    destruct (Storage_Get (tr t) (eHash e)) as [o1|] eqn:Hget1; [|discriminate].
    destruct (decide (oType o1 = TreeObject)) as [Hty1|]; [|discriminate].
    destruct (Decode (newTree (tr t)) o1) as [[sub err]| | |] eqn:HD; cbn [bind fst];
      try discriminate.
    intros Hfind Hget Hty. eapply leaf_below; try eassumption.
    apply IH; try assumption.
    apply Decode_repository in HD. cbn [newTree tr] in HD. now rewrite HD.
Qed.

Lemma File_Ok_iff (t : Tree) (path : bytes) (f : File) :
  File_ t path = Ok f <->
  exists o, blob_leaf t (Split path SLASH) (fHash f) o /\
            f = mkFile path (oReader o) (fHash f) (oSize o).
Proof.
  unfold File_, findHash. split.
  - destruct (findHash_from t (Split path SLASH)) as [h| | |] eqn:Hfind; try discriminate.
    destruct (Storage_Get (tr t) h) as [o|] eqn:Hget; [|discriminate].
    destruct (decide (oType o = BlobObject)) as [Hty|]; [|discriminate].
    intros [= <-]. cbn [fHash]. exists o. split; [|reflexivity].
    now apply found_blob_leaf.
  - intros (o & (Hfind & Hget & Hty)%blob_leaf_found & ->). cbn [fHash] in *.
    rewrite Hfind, Hget. now rewrite decide_True.
Qed.

(** X9: [File] succeeds on a path exactly when its names, from the tree,
    lead to a blob: through entries that resolve to trees, to a last entry
    that resolves to a blob.  The file returned carries the path, the
    entry's hash and the blob's size and content. *)
Theorem File_succeeds_on_blob_leaves (t : Tree) (path : bytes) (f : File) :
  File_ t path = Ok f <->
  exists o, blob_leaf t (Split path SLASH) (fHash f) o /\
            f = mkFile path (oReader o) (fHash f) (oSize o).
Proof. apply File_Ok_iff. Qed.

Lemma blob_leaf_names_ok (t : Tree) (names : list bytes) (h : bytes) (o : Object) :
  blob_leaf t names h o ->
  store_ok (tr t) -> tree_ok t -> Forall name_ok names.
Proof.
  induction 1 as [t name e o He Hget Hty
                 |t name e o sub err names h b He Hget Hty HD Hleaf IH];
    intros Hstore Htree.
  - destruct (Htree _ _ He) as [_ Hok]. now constructor.
  - destruct (Htree _ _ He) as [_ Hok]. constructor; [assumption|].
    apply IH; [|eapply Hstore; eassumption].
    apply Decode_repository in HD. cbn [newTree tr] in HD. now rewrite HD.
Qed.

(** X10: [File] does not clean the path.  In a store of well-formed trees
    it succeeds only on a path whose names, between the slashes, are all
    well formed: a path with an empty name (a leading, doubled or trailing
    slash), with [.] or with [..] is never found. *)
Theorem File_takes_the_path_literally (t : Tree) (path : bytes) (f : File) :
  store_ok (tr t) -> tree_ok t ->
  File_ t path = Ok f ->
  Forall name_ok (Split path SLASH).
Proof.
  intros Hstore Htree (o & Hleaf & _)%File_Ok_iff.
  eapply blob_leaf_names_ok; eassumption.
Qed.

End MoreLookup.

(** * Further properties of the traversal *)

Section FilesAndFile.

Import git.

Lemma Split_not_nil (s : bytes) (sep : ascii) : Split s sep <> [].
Proof.
  destruct s as [|c s]; cbn [Split]; [discriminate|].
  destruct (decide (c = sep)); [discriminate|]. destruct (Split s sep); discriminate.
Qed.

(** [strings.Join] undoes [strings.Split]. *)
Lemma Join_Split (s : bytes) (sep : ascii) : Join_with (Split s sep) [sep] = s.
Proof.
  induction s as [|c s IH]; [reflexivity|]. cbn [Split].
  destruct (decide (c = sep)) as [->|Hc].
  - rewrite Join_with_cons by apply Split_not_nil. now rewrite IH.
  - pose proof (Split_not_nil s sep) as Hne.
    destruct (Split s sep) as [|p ps]; [contradiction|].
    destruct ps as [|q ps]; cbn [Join_with] in *; [now rewrite IH|].
    cbn [app]. now rewrite <- IH.
Qed.

Lemma walkEntries_fuel_le (n fuel : nat) (t : Tree) (base : bytes) (ch : list File) :
  (n <= fuel)%nat ->
  walkEntries n t base ch <> Diverge ->
  walkEntries fuel t base ch = walkEntries n t base ch.
Proof.
  intros Hle Hend. induction Hle as [|fuel Hle IH]; [reflexivity|].
  rewrite walkEntries_more_fuel; [exact IH|]. now rewrite IH.
Qed.

(** X11: on a tree whose chains of subtrees are no longer than [n], in a
    store none of whose trees makes [Decode] panic, the traversal ends:
    [Files] returns a list of files, the same with any number of nested
    calls allowed from [n] on.  It returns no error in any case. *)
Theorem Files_ends_within_depth (n : nat) (t : Tree) :
  depth_below n t -> store_decodes (tr t) ->
  (exists out, forall fuel, (n <= fuel)%nat -> Files fuel t = Ok out) /\
  (forall fuel e, Files fuel t <> Err e).
Proof.
  intros Hdepth Hstore. split.
  - destruct (Files_returns n t Hdepth Hstore) as [out Hout]. exists out.
    intros fuel Hle. unfold Files in *. rewrite (walkEntries_fuel_le n) by
      (try assumption; rewrite Hout; discriminate).
    exact Hout.
  - intros fuel e. apply walkEntries_not_Err.
Qed.

(** X12: in a store of well-formed trees, [Files] sends one file for each
    entry reached through trees that resolves to an object that is no
    tree, and nothing else: the file's path is the names on the way
    joined with slashes, its hash the entry's, its size and content the
    object's.  No path is sent twice. *)
Theorem Files_sends_each_leaf_once (fuel : nat) (t : Tree) (out : list File) :
  store_ok (tr t) -> tree_ok t ->
  Files fuel t = Ok out ->
  NoDup (fName <$> out) /\
  forall f, f ∈ out <->
    exists names e o,
      leaf t names e o /\ Forall name_ok names /\
      f = mkFile (Join_with names [SLASH]) (oReader o) (eHash e) (oSize o).
Proof.
  intros Hstore Htree Hout. split; [now apply (Files_sends_once fuel t)|].
  intros f. rewrite (Files_sends_the_leaves fuel t out Hout f).
  assert (Hfile : forall names e o, leaf t names e o ->
            Forall name_ok names /\
            file_of [] names e o
              = mkFile (Join_with names [SLASH]) (oReader o) (eHash e) (oSize o)).
  { intros names e o Hleaf.
    destruct (leaf_found t names e o Hleaf Hstore Htree) as (_ & Hnames & _).
    split; [exact Hnames|]. unfold file_of. f_equal.
    exact (fold_filepath_Join names Hnames [] (Forall_nil_2 _)). }
  split.
  - intros (names & e & o & Hleaf & ->). destruct (Hfile names e o Hleaf) as [Hn Hf].
    exists names, e, o. auto.
  - intros (names & e & o & Hleaf & _ & ->). destruct (Hfile names e o Hleaf) as [Hn Hf].
    exists names, e, o. auto.
Qed.

(** X13: in a store of well-formed trees, the files [File] returns are
    the files [Files] sends whose object is a blob: [File] succeeds on a
    path with a file exactly when [Files] sends that file under that
    path and the store holds a blob under its hash. *)
Theorem File_finds_what_Files_sends (fuel : nat) (t : Tree) (out : list File)
    (path : bytes) (f : File) :
  store_ok (tr t) -> tree_ok t ->
  Files fuel t = Ok out ->
  File_ t path = Ok f <->
  f ∈ out /\ fName f = path /\
  exists o, Storage_Get (tr t) (fHash f) = Some o /\ oType o = BlobObject.
Proof.
  intros Hstore Htree Hout. split.
  - intros (o & Hleaf & Hf)%File_Ok_iff.
    pose proof (Files_sends_every_blob fuel t out _ _ _ Hstore Htree Hout Hleaf) as Hin.
    rewrite Join_Split, <- Hf in Hin. split; [exact Hin|]. split; [now rewrite Hf|].
    destruct (blob_leaf_leaf _ _ _ _ Hleaf Hstore Htree) as (e & Hl & He & Hty).
    apply leaf_in_store in Hl as [Hget _]. rewrite He in Hget. eauto.
  - intros (Hin & <- & o & Hget & Hty).
    destruct (Files_then_File fuel t out f Hstore Htree Hout Hin)
      as (o' & Hget' & _ & _ & Hblob & _).
    apply Hblob. congruence.
Qed.

End FilesAndFile.

Section WalkOrder.

Import git.

Implicit Types walk : Tree -> bytes -> list File -> result (list File).

Lemma visit_appends walk (t : Tree) (base : bytes) (ch out : list File) (e : TreeEntry) :
  appends walk ->
  visit walk t base ch e = Ok out ->
  exists new, out = ch ++ new /\
    forall ch', visit walk t base ch' e = Ok (ch' ++ new).
Proof.
  intros Hw. unfold visit. destruct (Storage_Get (tr t) (eHash e)) as [obj|].
  - destruct (decide (oType obj = TreeObject)).
    + destruct (Decode (newTree (tr t)) obj) as [d| | |]; cbn [bind]; try discriminate.
      apply Hw.
    + intros [= <-]. eexists. split; [reflexivity|]. reflexivity.
  - intros [= <-]. exists []. split; [now rewrite app_nil_r|].
    intros ch'. now rewrite app_nil_r.
Qed.

(** The files a loop over entries sends are those each entry sends on
    its own, one after the other. *)
Lemma visit_all_concat walk (t : Tree) (base : bytes) (l : list (bytes * TreeEntry)) :
  appends walk ->
  forall ch out,
    visit_all walk t base l ch = Ok out <->
    exists news,
      Forall2 (fun kv new => visit walk t base [] (snd kv) = Ok new) l news /\
      out = ch ++ concat news.
Proof.
  intros Hw. induction l as [|kv l IH]; intros ch out.
  - rewrite visit_all_nil. split.
    + intros [= <-]. exists []. split; [constructor|]. cbn. now rewrite app_nil_r.
    + intros (news & HF & ->). inversion HF; subst. cbn. now rewrite app_nil_r.
  - rewrite visit_all_cons. split.
    + destruct (visit walk t base ch (snd kv)) as [mid| | |] eqn:Hv; cbn [bind];
        try discriminate.
      destruct (visit_appends _ _ _ _ _ _ Hw Hv) as (new & -> & Hnew).
      intros (news & HF & ->)%IH. exists (new :: news). split.
      * constructor; [exact (Hnew [])|exact HF].
      * cbn [concat]. now rewrite app_assoc.
    + intros (news & HF & ->). inversion HF as [|? new ? news' Hv HF']; subst.
      destruct (visit_appends _ _ _ _ _ _ Hw Hv) as (new' & Heq & Hnew).
      cbn [app] in Heq. subst new'. rewrite (Hnew ch). cbn [bind].
      apply IH. exists news'. split; [exact HF'|]. cbn [concat]. now rewrite app_assoc.
Qed.

Lemma visit_all_appends walk (t : Tree) (base : bytes) (l : list (bytes * TreeEntry))
    (ch out : list File) :
  appends walk ->
  visit_all walk t base l ch = Ok out ->
  exists new, out = ch ++ new /\
    forall ch', visit_all walk t base l ch' = Ok (ch' ++ new).
Proof.
  intros Hw (news & HF & ->)%visit_all_concat; [|exact Hw].
  exists (concat news). split; [reflexivity|]. intros ch'.
  apply visit_all_concat; eauto.
Qed.

Lemma walkEntries_in_appends order (fuel : nat) : appends (walkEntries_in order fuel).
Proof.
  induction fuel as [|fuel IH]; intros t base ch out; [discriminate|].
  cbn [walkEntries_in]. now apply visit_all_appends.
Qed.

Lemma concat_Permutation {A} (l l' : list (list A)) :
  l ≡ₚ l' -> concat l ≡ₚ concat l'.
Proof.
  induction 1 as [|x l l' _ IH|x y l|l l' l'' _ IH1 _ IH2]; cbn [concat].
  - reflexivity.
  - now rewrite IH.
  - rewrite !app_assoc. f_equiv. apply Permutation_app_comm.
  - now rewrite IH1.
Qed.

Lemma concat_Forall2_Permutation {A} (l l' : list (list A)) :
  Forall2 Permutation l l' -> concat l ≡ₚ concat l'.
Proof.
  induction 1 as [|x y l l' Hxy _ IH]; cbn [concat]; [reflexivity|].
  now rewrite Hxy, IH.
Qed.

(** Two walks that send the same files up to their order do so within a
    loop over entries taken in two orders. *)
Lemma visit_all_Permutation walk1 walk2 (t : Tree) (base : bytes)
    (l1 l2 : list (bytes * TreeEntry)) (ch out1 : list File) :
  appends walk1 -> appends walk2 ->
  (forall t' base' new1,
     walk1 t' base' [] = Ok new1 ->
     exists new2, walk2 t' base' [] = Ok new2 /\ new1 ≡ₚ new2) ->
  l1 ≡ₚ l2 ->
  visit_all walk1 t base l1 ch = Ok out1 ->
  exists new1 new2,
    out1 = ch ++ new1 /\ visit_all walk2 t base l2 ch = Ok (ch ++ new2) /\
    new1 ≡ₚ new2.
Proof.
  intros Hw1 Hw2 Hrel Hperm (news1 & HF & ->)%visit_all_concat; [|exact Hw1].
  destruct (Permutation_Forall2 Hperm HF) as (news1' & Hp & HF').
  assert (exists news2,
            Forall2 (fun kv new => visit walk2 t base [] (snd kv) = Ok new) l2 news2 /\
            Forall2 Permutation news1' news2) as (news2 & HF2 & Hp2).
  { clear -HF' Hrel. induction HF' as [|kv new l news Hv _ IH].
    - exists []. split; constructor.
    - destruct IH as (news2 & HF2 & Hp2).
      assert (exists new2, visit walk2 t base [] (snd kv) = Ok new2 /\ new ≡ₚ new2)
        as (new2 & Hv2 & Hpn).
      { revert Hv. unfold visit.
        destruct (Storage_Get (tr t) (eHash (snd kv))) as [obj|]; [|eauto].
        destruct (decide (oType obj = TreeObject)); [|eauto].
        destruct (Decode (newTree (tr t)) obj) as [d| | |]; cbn [bind]; try discriminate.
        apply Hrel. }
      exists (new2 :: news2). split; constructor; assumption. }
  exists (concat news1), (concat news2). split; [reflexivity|]. split.
  - apply visit_all_concat; eauto.
  - rewrite (concat_Permutation _ _ Hp). now apply concat_Forall2_Permutation.
Qed.

Lemma walkEntries_in_Permutation order1 order2 (fuel : nat) :
  (forall t base, order1 t base ≡ₚ order2 t base) ->
  forall t base ch out1,
    walkEntries_in order1 fuel t base ch = Ok out1 ->
    exists new1 new2,
      out1 = ch ++ new1 /\
      walkEntries_in order2 fuel t base ch = Ok (ch ++ new2) /\
      new1 ≡ₚ new2.
Proof.
  intros Horder. induction fuel as [|fuel IH]; intros t base ch out1; [discriminate|].
  cbn [walkEntries_in].
  apply visit_all_Permutation; try apply walkEntries_in_appends; [|apply Horder].
  intros t' base' new1 (n1 & n2 & -> & H2 & Hp)%IH. eauto.
Qed.

Lemma visit_all_ext walk1 walk2 (t : Tree) (base : bytes)
    (l : list (bytes * TreeEntry)) :
  (forall t' base' ch', walk1 t' base' ch' = walk2 t' base' ch') ->
  forall ch, visit_all walk1 t base l ch = visit_all walk2 t base l ch.
Proof.
  intros Hext. induction l as [|kv l IH]; intros ch; [reflexivity|].
  rewrite !visit_all_cons.
  replace (visit walk2 t base ch (snd kv)) with (visit walk1 t base ch (snd kv)).
  - destruct (visit walk1 t base ch (snd kv)); cbn [bind]; auto.
  - unfold visit. destruct (Storage_Get (tr t) (eHash (snd kv))) as [obj|]; [|reflexivity].
    destruct (decide (oType obj = TreeObject)); [|reflexivity].
    destruct (Decode (newTree (tr t)) obj); cbn [bind]; auto.
Qed.

Lemma walkEntries_in_map_to_list (fuel : nat) (t : Tree) (base : bytes) (ch : list File) :
  walkEntries_in (fun t _ => map_to_list (Entries t)) fuel t base ch
    = walkEntries fuel t base ch.
Proof.
  revert t base ch. induction fuel as [|fuel IH]; intros t base ch; [reflexivity|].
  cbn [walkEntries_in walkEntries]. now apply visit_all_ext.
Qed.

(** X14: the order in which the entries of the trees are ranged over
    changes nothing but the order of the files sent: if the traversal
    returns with some order, it returns with the order of the model, and
    with any other, and the files sent are the same up to their order. *)
Theorem Files_whatever_the_order order (fuel : nat) (t : Tree) :
  ranges_over_entries order ->
  (forall out, walkEntries_in order fuel t [] [] = Ok out ->
     exists out', Files fuel t = Ok out' /\ out ≡ₚ out') /\
  (forall out', Files fuel t = Ok out' ->
     exists out, walkEntries_in order fuel t [] [] = Ok out /\ out ≡ₚ out').
Proof.
  intros Horder. unfold Files. split.
  - intros out H.
    apply (walkEntries_in_Permutation order (fun t _ => map_to_list (Entries t))) in H
      as (n1 & n2 & -> & H2 & Hp); [|exact Horder].
    rewrite walkEntries_in_map_to_list in H2. eauto.
  - intros out' H. rewrite <- walkEntries_in_map_to_list in H.
    apply (walkEntries_in_Permutation _ order) in H
      as (n1 & n2 & -> & H2 & Hp); [|intros; symmetry; apply Horder].
    cbn [app] in *. eexists. split; [exact H2|]. now symmetry.
Qed.

End WalkOrder.

(** * Properties of the tree iterator *)

Section Iteration.

Import git.

Lemma Decode_error_not_EOF (t t' : Tree) (o : Object) (e : error) :
  Decode t o = Ok (t', Some e) -> e <> ReadError io_EOF.
Proof.
  unfold Decode. destruct (oSize o =? 0); [discriminate|].
  destruct (Decode_loop _ _ _) as [[m err]| | |] eqn:HD; cbn [bind]; try discriminate.
  intros [= _ ->]. apply Decode_loop_error in HD as [[ne ->]|[-> Hne]]; congruence.
Qed.

(** X15: [Next] returns [io.EOF] for the end of the feed only: it does so
    exactly when it receives nil, from a closed channel that is empty or
    as a value sent, and it returns no tree then; an error of [Decode]
    comes with the tree and is never [io.EOF]. *)
Theorem TreeIter_Next_EOF_is_the_end (i i' : TreeIter) (t : option Tree) (err : option error) :
  TreeIter_Next i = Ok (t, err, i') ->
  (err = Some (ReadError io_EOF) <-> t = None) /\
  (t = None <->
   (ich i = [] /\ ich_closed i = true /\ i' = i) \/
   (exists rest, ich i = None :: rest)).
Proof.
  unfold TreeIter_Next, receive. destruct (ich i) as [|[obj|] rest] eqn:Hch.
  - destruct (ich_closed i); cbn [bind fst snd]; [|discriminate].
    intros [= <- <- <-]. split; split; auto.
  - cbn [bind fst snd].
    destruct (Decode (newTree (ir i)) obj) as [[t' e]| | |] eqn:HD; cbn [bind fst snd];
      try discriminate.
    intros [= <- <- <-]. split; split; try discriminate.
    + intros ->. now apply Decode_error_not_EOF in HD.
    + intros [(? & _)|(rest' & ?)]; discriminate.
  - cbn [bind fst snd]. intros [= <- <- <-]. split; split; eauto.
Qed.

(** X16: on a feed that has been closed, of objects none of which makes
    [Decode] panic, as many calls of [Next] as there are objects return
    the trees they decode to, in the order of the feed, each decoded
    into a tree of its own, and every call after those returns
    [io.EOF]. *)
Theorem TreeIter_drains_the_feed (r : Repository) (objs : list Object) (k : nat) :
  Forall (fun o => Decode (newTree r) o <> Panic) objs ->
  exists outs,
    Forall2 (fun o out => Decode (newTree r) o = Ok out) objs outs /\
    TreeIter_Nexts (length objs + k) (mkTreeIter (Some <$> objs) true r)
      = Ok (((fun out => (Some (fst out), snd out)) <$> outs)
            ++ replicate k (None, Some (ReadError io_EOF))).
Proof.
  induction 1 as [|o objs Ho _ IH].
  - exists []. split; [constructor|]. cbn [length fmap list_fmap Nat.add app].
    induction k as [|k IHk]; [reflexivity|].
    cbn [TreeIter_Nexts]. unfold TreeIter_Next at 1, receive. cbn [ich ich_closed bind fst snd].
    cbn [fmap list_fmap] in IHk. rewrite IHk. reflexivity.
  - destruct IH as (outs & HF & Hrun).
    destruct (Decode_returns_or_panics (newTree r) o) as [(t' & err & HD)|HD];
      [|contradiction].
    exists ((t', err) :: outs). split; [now constructor|].
    cbn [length Nat.add TreeIter_Nexts fmap list_fmap].
    unfold TreeIter_Next at 1, receive. cbn [ich ich_closed ir bind fst snd].
    rewrite HD. cbn [bind fst snd]. cbn [fmap] in Hrun. rewrite Hrun. reflexivity.
Qed.

End Iteration.

(** * Further properties of the transport session *)

Section MoreSession.

Import ssh.

(** ** The host dialled *)

Lemma has_colon_app (a b : string) :
  has_colon (a ++ b) = has_colon a || has_colon b.
Proof.
  induction a as [|c a IH]; [reflexivity|]. simpl.
  destruct (decide (c = ":"%char)); [reflexivity|exact IH].
Qed.

(** X17: the address [connect] dials always names a port: a host that
    holds a colon is taken as it is, and [:22] is put after any other. *)
Theorem getHostWithPort_names_a_port (s : session) :
  has_colon (getHostWithPort s) = true /\
  getHostWithPort s =
    (if has_colon (Host (endpoint s)) then Host (endpoint s)
     else Host (endpoint s) ++ ":22")%string.
Proof.
  unfold getHostWithPort. split; [|reflexivity].
  destruct (has_colon (Host (endpoint s))) eqn:Hc; [exact Hc|].
  rewrite has_colon_app. apply orb_true_r.
Qed.

(** ** When [connect] succeeds, and with what *)

Lemma setAuthFromEndpoint_eq (rm : Remote) (s : session) :
  setAuthFromEndpoint rm s
    = (snd (agent_auth rm (endpoint_user s)),
       set_auth (fst (agent_auth rm (endpoint_user s))) s).
Proof.
  unfold setAuthFromEndpoint, endpoint_user.
  now destruct (agent_auth rm _) as [a e].
Qed.

Lemma openSSHSession_eq (rm : Remote) (s : session) (w : Net) (c : nat) :
  client s = Some c ->
  openSSHSession rm s w =
    match NewSession_error rm with
    | Some e => (returned (Some (Errorf "cannot open SSH session: %s" e)),
                 set_session None s, w)
    | None =>
        let w1 := mkNet (S (next w)) (conns w) ((c, next w) :: chans w) (dialed w) in
        let s1 := set_session (Some (next w)) s in
        match StdinPipe_error rm with
        | Some e => (returned (Some (Errorf "cannot pipe remote stdin: %s" e)),
                     set_stdin None s1, w1)
        | None =>
            let w2 := mkNet (S (S (next w))) (conns w) ((c, next w) :: chans w) (dialed w) in
            let s2 := set_stdin (Some (S (next w))) s1 in
            match StdoutPipe_error rm with
            | Some e => (returned (Some (Errorf "cannot pipe remote stdout: %s" e)),
                         set_stdout None s2, w2)
            | None =>
                (returned None, set_stdout (Some (S (S (next w)))) s2,
                 mkNet (S (S (S (next w)))) (conns w) ((c, next w) :: chans w) (dialed w))
            end
        end
    end.
Proof.
  intros Hc. unfold openSSHSession, NewSession, StdinPipe, StdoutPipe. rewrite Hc.
  destruct (NewSession_error rm); [reflexivity|].
  destruct (StdinPipe_error rm); [reflexivity|].
  destruct (StdoutPipe_error rm); reflexivity.
Qed.

Lemma connect_success_inv (rm : Remote) (s s' : session) (w w' : Net) :
  connect rm s w = (returned None, s', w') ->
  connected s = false /\
  exists a,
    agent_auth rm (endpoint_user s) = (Some a, None) /\
    dial_error rm "tcp" (getHostWithPort s) (clientConfig a) = None /\
    NewSession_error rm = None /\ StdinPipe_error rm = None /\
    StdoutPipe_error rm = None /\
    s' = mkSession true (endpoint s) (Some (next w)) (Some (S (next w)))
           (Some (S (S (next w)))) (Some (S (S (S (next w))))) (sessionDone s) (Some a) /\
    w' = mkNet (S (S (S (S (next w))))) (next w :: conns w)
           ((next w, S (next w)) :: chans w)
           (dialed w ++ [(getHostWithPort s, clientConfig a)]).
Proof.
  destruct (connected s) eqn:Hs; [unfold connect; rewrite Hs; discriminate|].
  rewrite connect_disconnected, setAuthFromEndpoint_eq by assumption.
  destruct (agent_auth rm (endpoint_user s)) as [a [e|]]; cbn [fst snd]; [discriminate|].
  destruct a as [a|]; cbn [auth set_auth]; [|discriminate].
  change (getHostWithPort (set_auth (Some a) s)) with (getHostWithPort s).
  unfold Dial. destruct (dial_error rm _ _ _) as [e|] eqn:Hdial; [discriminate|].
  rewrite (openSSHSession_eq rm _ _ (next w)) by reflexivity.
  cbn [next conns chans dialed].
  destruct (NewSession_error rm); [discriminate|].
  destruct (StdinPipe_error rm); [discriminate|].
  destruct (StdoutPipe_error rm); [discriminate|].
  intros [= <- <-]. split; [reflexivity|]. exists a. repeat split; assumption.
Qed.


Lemma connect_succeeds_iff (rm : Remote) (s : session) (w : Net) :
  (exists s' w', connect rm s w = (returned None, s', w')) <->
  connected s = false /\
  (exists a, agent_auth rm (endpoint_user s) = (Some a, None) /\
             dial_error rm "tcp" (getHostWithPort s) (clientConfig a) = None) /\
  NewSession_error rm = None /\ StdinPipe_error rm = None /\
  StdoutPipe_error rm = None.
Proof.
  split.
  - intros (s' & w' & (Hs & a & Hagent & Hdial & Hn & Hi & Ho & _)%connect_success_inv).
    eauto 10.
  - intros (Hs & (a & Hagent & Hdial) & Hn & Hi & Ho).
    rewrite connect_disconnected, setAuthFromEndpoint_eq, Hagent by assumption.
    cbn [fst snd auth set_auth].
    change (getHostWithPort (set_auth (Some a) s)) with (getHostWithPort s).
    unfold Dial. rewrite Hdial.
    rewrite (openSSHSession_eq rm _ _ (next w)) by reflexivity.
    rewrite Hn, Hi, Ho. eauto.
Qed.

(** X19: [connect] returns without error exactly when the session is
    disconnected, the agent gives a method and no error, and the dial and
    the three steps of opening the channel all succeed. *)
Theorem connect_succeeds_exactly_when (rm : Remote) (s : session) (w : Net) :
  (exists s' w', connect rm s w = (returned None, s', w')) <->
  connected s = false /\
  (exists a, agent_auth rm (endpoint_user s) = (Some a, None) /\
             dial_error rm "tcp" (getHostWithPort s) (clientConfig a) = None) /\
  NewSession_error rm = None /\ StdinPipe_error rm = None /\
  StdoutPipe_error rm = None.
Proof. apply connect_succeeds_iff. Qed.

(** X20: an error [connect] returns is [ErrAlreadyConnected] on a connected
    session, and otherwise the agent's error or the dial's, passed on as
    they are, or the error of one of the three steps of opening the
    channel, under the message of that step. *)
Theorem connect_error_comes_from (rm : Remote) (s s' : session) (w w' : Net) (e : error) :
  connect rm s w = (returned (Some e), s', w') ->
  (connected s = true /\ e = ErrAlreadyConnected) \/
  (connected s = false /\
   (snd (agent_auth rm (endpoint_user s)) = Some e \/
    (exists a, agent_auth rm (endpoint_user s) = (Some a, None) /\
       (dial_error rm "tcp" (getHostWithPort s) (clientConfig a) = Some e \/
        (exists e', NewSession_error rm = Some e' /\
                    e = Errorf "cannot open SSH session: %s" e') \/
        (exists e', StdinPipe_error rm = Some e' /\
                    e = Errorf "cannot pipe remote stdin: %s" e') \/
        (exists e', StdoutPipe_error rm = Some e' /\
                    e = Errorf "cannot pipe remote stdout: %s" e'))))).
Proof.
  intros H. destruct (connected s) eqn:Hs.
  { unfold connect in H. rewrite Hs in H. injection H as <- _ _. now left. }
  right. split; [reflexivity|]. revert H.
  rewrite connect_disconnected, setAuthFromEndpoint_eq by assumption.
  destruct (agent_auth rm (endpoint_user s)) as [a [e0|]]; cbn [fst snd].
  { intros [= <- _ _]. now left. }
  destruct a as [a|]; cbn [auth set_auth]; [|discriminate].
  change (getHostWithPort (set_auth (Some a) s)) with (getHostWithPort s).
  right. exists a. split; [reflexivity|]. revert H.
  unfold Dial. destruct (dial_error rm _ _ _) as [e1|] eqn:Hdial.
  { intros [= <- _ _]. now left. }
  rewrite (openSSHSession_eq rm _ _ (next w)) by reflexivity.
  destruct (NewSession_error rm) as [e2|]; cbn.
  { intros [= <- _ _]. right. left. eauto. }
  destruct (StdinPipe_error rm) as [e3|]; cbn.
  { intros [= <- _ _]. right. right. left. eauto. }
  destruct (StdoutPipe_error rm) as [e4|]; cbn; [|discriminate].
  intros [= <- _ _]. right. right. right. eauto.
Qed.

End MoreSession.

Section SessionLife.

Import ssh.

Lemma filter_other_conn (c : nat) : filter (fun c' => c' ≠ c) [c] = [].
Proof. rewrite filter_cons. destruct (decide (c ≠ c)); [congruence|reflexivity]. Qed.

Lemma filter_other_chan (c ch : nat) :
  filter (fun x : nat * nat => fst x ≠ c) [(c, ch)] = [].
Proof.
  rewrite filter_cons. cbn [fst]. destruct (decide (c ≠ c)); [congruence|reflexivity].
Qed.

Lemma Client_Close_subset (c : nat) (w : Net) : nothing_left_open w (Client_Close c w).
Proof.
  split; cbn [Client_Close conns chans]; intros x Hx;
    apply list_elem_of_filter in Hx; tauto.
Qed.

Lemma Client_Close_closes (c : nat) (w : Net) :
  (c ∉ conns (Client_Close c w)) /\
  forall ch, (c, ch) ∉ chans (Client_Close c w).
Proof.
  split; [|intros ch]; cbn [Client_Close conns chans];
    intros Hx; apply list_elem_of_filter in Hx; cbn in Hx; tauto.
Qed.

(** X21: [Close] on a connected session with its client set returns the
    error of closing the client, whatever it is, and disconnects all the
    same: the client's connection and its channels are closed, nothing
    else is opened, and a second [Close] does nothing and returns nil. *)
Theorem Close_disconnects (rm rm' : Remote) (s : session) (w : Net) (c : nat) :
  connected s = true -> client s = Some c ->
  exists s' w',
    Close rm s w = (returned (Close_error rm), s', w') /\
    connected s' = false /\ same_but_auth (set_connected true s') s /\
    auth s' = auth s /\
    (c ∉ conns w') /\ (forall ch, (c, ch) ∉ chans w') /\
    nothing_left_open w w' /\
    Close rm' s' w' = (returned None, s', w').
Proof.
  intros Hs Hc. exists (set_connected false s), (Client_Close c w).
  unfold Close. rewrite Hs. cbn [negb set_connected client connected]. rewrite Hc.
  split; [reflexivity|]. split; [reflexivity|].
  split; [unfold same_but_auth; cbn; rewrite Hs; tauto|].
  split; [reflexivity|].
  destruct (Client_Close_closes c w) as [H1 H2].
  split; [exact H1|]. split; [exact H2|].
  split; [apply Client_Close_subset|reflexivity].
Qed.

(** X22: a successful [connect] followed by [Close] leaves the session
    disconnected and nothing open that was not open before the
    [connect]; the session can then be connected again. *)
Theorem connect_then_Close (rm rm1 rm2 : Remote) (s s1 : session) (w w1 : Net) :
  connect rm s w = (returned None, s1, w1) ->
  exists s2 w2,
    Close rm1 s1 w1 = (returned (Close_error rm1), s2, w2) /\
    connected s2 = false /\ endpoint s2 = endpoint s /\
    nothing_left_open w w2 /\
    ((exists s3 w3, connect rm2 s2 w2 = (returned None, s3, w3)) <->
     (exists s3 w3, connect rm2 s w = (returned None, s3, w3))).
Proof.
  intros (Hs & a & Hagent & _ & _ & _ & _ & -> & ->)%connect_success_inv.
  eexists _, _. split; [reflexivity|]. cbn [set_connected connected endpoint client].
  split; [reflexivity|]. split; [reflexivity|]. split.
  - split; cbn [Client_Close conns chans]; intros x Hx;
      apply list_elem_of_filter in Hx; destruct Hx as [Hne Hx];
      apply elem_of_cons in Hx as [->|Hx]; cbn in Hne; congruence.
  - rewrite !connect_succeeds_iff. cbn. rewrite Hs. reflexivity.
Qed.

End SessionLife.

Section CallSequences.

Import ssh.

(** X23: [openSSHSession] does not close the channel it has opened when a
    later step fails: after a failed pipe the channel is still open over
    the client's connection, and no connection was opened or closed.
    (Its caller [connect] closes the client then.) *)
Theorem openSSHSession_leaves_the_channel (rm : Remote) (s : session) (w : Net) (c : nat) :
  client s = Some c -> NewSession_error rm = None ->
  StdinPipe_error rm <> None \/ StdoutPipe_error rm <> None ->
  exists e s' w',
    openSSHSession rm s w = (returned (Some e), s', w') /\
    session_ s' = Some (next w) /\
    chans w' = (c, next w) :: chans w /\ conns w' = conns w /\
    connected s' = connected s /\ client s' = Some c.
Proof.
  intros Hc Hn Hpipe. rewrite (openSSHSession_eq rm s w c Hc), Hn.
  destruct (StdinPipe_error rm) as [e|].
  { eexists _, _, _. split; [reflexivity|]. cbn. auto. }
  destruct (StdoutPipe_error rm) as [e|].
  { eexists _, _, _. split; [reflexivity|]. cbn. auto. }
  destruct Hpipe; congruence.
Qed.

Lemma connect_owns (rm : Remote) (s s' : session) (w w' : Net) (o : outcome) :
  agent_answers rm -> owns s w -> connect rm s w = (o, s', w') ->
  owns s' w' /\ o <> panicked.
Proof.
  intros Hagent Hown. destruct (connected s) eqn:Hs.
  { unfold connect. rewrite Hs. intros [= <- <- <-]. split; [exact Hown|discriminate]. }
  unfold owns in Hown. rewrite Hs in Hown. destruct Hown as [Hconns Hchans].
  rewrite connect_disconnected, setAuthFromEndpoint_eq by assumption.
  specialize (Hagent (endpoint_user s)).
  destruct (agent_auth rm (endpoint_user s)) as [a [e|]]; cbn [fst snd] in *.
  { intros [= <- <- <-]. unfold owns. cbn. rewrite Hs. split; [auto|discriminate]. }
  destruct a as [a|]; [|now destruct Hagent]. cbn [auth set_auth].
  change (getHostWithPort (set_auth (Some a) s)) with (getHostWithPort s).
  unfold Dial. destruct (dial_error rm _ _ _) as [e|].
  { intros [= <- <- <-]. unfold owns. cbn. rewrite Hs. split; [auto|discriminate]. }
  rewrite (openSSHSession_eq rm _ _ (next w)) by reflexivity.
  cbn [next conns chans dialed]. rewrite Hconns, Hchans.
  destruct (NewSession_error rm) as [e|].
  { cbn -[filter]. intros [= <- <- <-]. unfold owns. cbn -[filter].
    rewrite Hs, filter_other_conn. split; [auto|discriminate]. }
  destruct (StdinPipe_error rm) as [e|].
  { cbn -[filter]. intros [= <- <- <-]. unfold owns. cbn -[filter].
    rewrite Hs, filter_other_conn, filter_other_chan. split; [auto|discriminate]. }
  destruct (StdoutPipe_error rm) as [e|].
  { cbn -[filter]. intros [= <- <- <-]. unfold owns. cbn -[filter].
    rewrite Hs, filter_other_conn, filter_other_chan. split; [auto|discriminate]. }
  intros [= <- <- <-]. split; [|discriminate]. unfold owns. cbn.
  exists (next w), (S (next w)). repeat split; auto; discriminate.
Qed.

Lemma Close_owns (rm : Remote) (s s' : session) (w w' : Net) (o : outcome) :
  owns s w -> Close rm s w = (o, s', w') -> owns s' w' /\ o <> panicked.
Proof.
  intros Hown. unfold Close. unfold owns in Hown.
  destruct (connected s) eqn:Hs; cbn [negb].
  - destruct Hown as (c & ch & Hc & _ & _ & _ & _ & Hconns & Hchans).
    cbn [set_connected client]. rewrite Hc. intros [= <- <- <-].
    split; [|discriminate]. unfold owns. cbn -[filter].
    rewrite Hconns, Hchans, filter_other_conn, filter_other_chan. auto.
  - intros [= <- <- <-]. split; [|discriminate]. unfold owns. now rewrite Hs.
Qed.

Lemma SetAuth_owns (s s' : session) (w : Net) (a : transport_AuthMethod) (err : option error) :
  owns s w -> SetAuth s a = (err, s') -> owns s' w.
Proof.
  intros Hown. unfold SetAuth. destruct (assert_AuthMethod a) as [m|].
  - intros [= <- <-]. unfold owns in *. cbn. destruct (connected s); [|exact Hown].
    destruct Hown as (c & ch & ? & ? & ? & ? & ? & ? & ?).
    exists c, ch. repeat split; auto; discriminate.
  - now intros [= <- <-].
Qed.

Lemma do_call_owns (c : call) (s s' : session) (w w' : Net) (o : outcome) :
  call_ok c -> owns s w -> do_call c s w = (o, s', w') ->
  owns s' w' /\ o <> panicked.
Proof.
  destruct c as [a|rm|rm]; cbn [call_ok do_call].
  - intros _ Hown. destruct (SetAuth s a) as [err s1] eqn:HS. intros [= <- <- <-].
    split; [eapply SetAuth_owns; eassumption|discriminate].
  - apply connect_owns.
  - intros _. apply Close_owns.
Qed.

(** X24: whatever sequence of [SetAuth], [connect] and [Close] is made on
    a session that starts disconnected with nothing open, no call
    panics, and after the last one the session is connected exactly when
    a connection is open: a connected session has its client, channel
    and pipes set and they are the one connection and the one channel
    open; a disconnected one has nothing open.  The agent is supposed to
    give a method whenever it gives no error. *)
Theorem session_owns_what_is_open (cs : list call) (s s' : session) (w w' : Net)
    (os : list outcome) :
  Forall call_ok cs -> owns s w -> do_calls cs s w = (os, s', w') ->
  owns s' w' /\ length os = length cs /\ Forall (fun o => o <> panicked) os.
Proof.
  intros Hcs. revert s w os. induction Hcs as [|c cs Hc Hcs IH]; intros s w os Hown.
  { intros [= <- <- <-]. auto. }
  cbn [do_calls]. destruct (do_call c s w) as [[o s1] w1] eqn:Hcall.
  destruct (do_call_owns c s s1 w w1 o Hc Hown Hcall) as [Hown1 Hno].
  destruct o as [err|]; [|congruence].
  destruct (do_calls cs s1 w1) as [[os1 s2] w2] eqn:Hrest.
  intros [= <- <- <-]. destruct (IH s1 w1 os1 Hown1 Hrest) as (H1 & H2 & H3).
  split; [exact H1|]. split; [cbn [length]; congruence|].
  constructor; [discriminate|exact H3].
Qed.

End CallSequences.

(** * The further properties on the examples *)

Section TreeExamples.
Import git.

(** The entries decoded from the root object of the examples. *)
Lemma Decode_entries_well_formed_witness :
  let t' := mkTree (add_records ∅ root_records) (hash_of "r") repo in
  entries_wf (Entries t') /\
  tHash t' = oHash (tree_object (hash_of "r") root_records) /\
  tr t' = tr (newTree repo).
Proof.
  apply (Decode_entries_well_formed (newTree repo) _
           (tree_object (hash_of "r") root_records) None).
  - apply Decode_tree_object; [reflexivity|apply Nat.leb_le; vm_compute; reflexivity].
  - left. vm_compute. discriminate.
Defined.

(** The round trip on the records of the root. *)
Lemma Decode_encode_round_trip_witness :
  exists t',
    Decode (newTree repo) (tree_object (hash_of "r") root_records) = Ok (t', None) /\
    forall k e,
      Entries t' !! k = Some e <->
      exists rec, rec ∈ root_records /\ k = rName rec /\ e = record_entry rec.
Proof.
  apply (Decode_encode_round_trip (newTree repo)
           (tree_object (hash_of "r") root_records) root_records).
  - reflexivity.
  - apply (bool_decide_unpack _). vm_compute. exact I.
  - reflexivity.
  - vm_compute. discriminate.
  - apply Nat.leb_le. vm_compute. reflexivity.
Defined.





(** A directory that is not there, below one that is. *)
Lemma findHash_stops_at_witness :
  exists before name after t',
    Split (lit "adir/missing/x") SLASH = before ++ name :: after /\
    descend root before = Ok t' /\
    ((after = [] /\ errDirNotFound = errEntryNotFound /\ Entries t' !! name = None) \/
     (after <> [] /\ errDirNotFound = errDirNotFound /\
      dir t' name = Err errDirNotFound)).
Proof.
  apply (findHash_stops_at root (lit "adir/missing/x") errDirNotFound).
  vm_compute. reflexivity.
Defined.

(** The file [x] of the directory [adir]. *)
Lemma File_below_dir_witness :
  File_ root (lit "adir" ++ SLASH :: lit "x") =
    match dir root (lit "adir") with
    | Ok sub =>
        match File_ sub (lit "x") with
        | Ok f => Ok (mkFile (lit "adir" ++ SLASH :: lit "x") (fReader f) (fHash f) (fSize f))
        | other => other
        end
    | Err _ => Err ErrFileNotFound
    | Panic => Panic
    | Diverge => Diverge
    end.
Proof.
  apply (File_below_dir root (lit "adir") (lit "x")).
  apply (bool_decide_unpack _). vm_compute. exact I.
Defined.

(** The path of the file [File] finds in [adir]. *)
Lemma File_takes_the_path_literally_witness :
  Forall name_ok (Split (lit "adir/x") SLASH).
Proof.
  apply (File_takes_the_path_literally root (lit "adir/x")
           (mkFile (lit "adir/x") (mkReader (lit "xyz") io_EOF) (hash_of "x") 3)).
  - rewrite root_repository. exact repo_store_ok.
  - exact root_tree_ok.
  - vm_compute. reflexivity.
Defined.

(** The root of the examples has subtrees one level deep. *)
Lemma Files_ends_within_depth_witness :
  (exists out, forall fuel, (2 <= fuel)%nat -> Files fuel root = Ok out) /\
  (forall fuel e, Files fuel root <> Err e).
Proof.
  apply (Files_ends_within_depth 2 root).
  - exact root_depth.
  - rewrite root_repository. exact repo_store_decodes.
Defined.

(** The files of the root of the examples. *)
Lemma Files_sends_each_leaf_once_witness :
  exists out,
    Files 2 root = Ok out /\
    NoDup (fName <$> out) /\
    forall f, f ∈ out <->
      exists names e o,
        leaf root names e o /\ Forall name_ok names /\
        f = mkFile (Join_with names [SLASH]) (oReader o) (eHash e) (oSize o).
Proof.
  destruct (Files_returns 2 root root_depth) as [out Hout].
  { rewrite root_repository. exact repo_store_decodes. }
  exists out. split; [exact Hout|].
  apply (Files_sends_each_leaf_once 2 root out).
  - rewrite root_repository. exact repo_store_ok.
  - exact root_tree_ok.
  - exact Hout.
Defined.

(** [File] on [adir/x] and the files of the root. *)
Lemma File_finds_what_Files_sends_witness :
  exists out,
    Files 2 root = Ok out /\
    forall f,
      File_ root (lit "adir/x") = Ok f <->
      f ∈ out /\ fName f = lit "adir/x" /\
      exists o, Storage_Get (tr root) (fHash f) = Some o /\ oType o = BlobObject.
Proof.
  destruct (Files_returns 2 root root_depth) as [out Hout].
  { rewrite root_repository. exact repo_store_decodes. }
  exists out. split; [exact Hout|]. intros f.
  apply (File_finds_what_Files_sends 2 root out (lit "adir/x") f).
  - rewrite root_repository. exact repo_store_ok.
  - exact root_tree_ok.
  - exact Hout.
Defined.

(** The entries of every tree ranged over backwards. *)
Lemma Files_whatever_the_order_witness :
  (forall out, walkEntries_in backwards 2 root [] [] = Ok out ->
     exists out', Files 2 root = Ok out' /\ out ≡ₚ out') /\
  (forall out', Files 2 root = Ok out' ->
     exists out, walkEntries_in backwards 2 root [] [] = Ok out /\ out ≡ₚ out').
Proof.
  apply (Files_whatever_the_order backwards 2 root).
  intros t base. apply reverse_Permutation.
Defined.

(** [Next] on a closed feed that is empty. *)
Lemma TreeIter_Next_EOF_is_the_end_witness :
  let i := mkTreeIter [] true repo in
  (Some (ReadError io_EOF) = Some (ReadError io_EOF) <-> @None Tree = None) /\
  (@None Tree = None <->
   (ich i = [] /\ ich_closed i = true /\ i = i) \/
   (exists rest, ich i = None :: rest)).
Proof.
  apply (TreeIter_Next_EOF_is_the_end (mkTreeIter [] true repo) (mkTreeIter [] true repo)
           None (Some (ReadError io_EOF))).
  reflexivity.
Defined.

(** A feed of two trees, read four times. *)
Lemma TreeIter_drains_the_feed_witness :
  let objs := [tree_object (hash_of "r") root_records;
               tree_object (hash_of "d") adir_records] in
  exists outs,
    Forall2 (fun o out => Decode (newTree repo) o = Ok out) objs outs /\
    TreeIter_Nexts (length objs + 2) (mkTreeIter (Some <$> objs) true repo)
      = Ok (((fun out => (Some (fst out), snd out)) <$> outs)
            ++ replicate 2 (None, Some (ReadError io_EOF))).
Proof.
  apply (TreeIter_drains_the_feed repo
           [tree_object (hash_of "r") root_records;
            tree_object (hash_of "d") adir_records] 2).
  repeat constructor;
    (rewrite Decode_tree_object;
     [discriminate|reflexivity|apply Nat.leb_le; vm_compute; reflexivity]).
Defined.

End TreeExamples.

Section SessionExamples.
Import ssh.


(** A remote whose input cannot be piped. *)
Lemma connect_error_comes_from_witness :
  let s := newSession github in
  let e := Errorf "cannot pipe remote stdin: %s" (LibraryError "ssh: Stdin already set") in
  (connected s = true /\ e = ErrAlreadyConnected) \/
  (connected s = false /\
   (snd (agent_auth no_stdin (endpoint_user s)) = Some e \/
    (exists a, agent_auth no_stdin (endpoint_user s) = (Some a, None) /\
       (dial_error no_stdin "tcp" (getHostWithPort s) (clientConfig a) = Some e \/
        (exists e', NewSession_error no_stdin = Some e' /\
                    e = Errorf "cannot open SSH session: %s" e') \/
        (exists e', StdinPipe_error no_stdin = Some e' /\
                    e = Errorf "cannot pipe remote stdin: %s" e') \/
        (exists e', StdoutPipe_error no_stdin = Some e' /\
                    e = Errorf "cannot pipe remote stdout: %s" e'))))).
Proof.
  apply (connect_error_comes_from no_stdin (newSession github)
           (snd (fst (connect no_stdin (newSession github) idle))) idle
           (snd (connect no_stdin (newSession github) idle))).
  vm_compute. reflexivity.
Defined.

(** [Close] on the connected session of the examples. *)
Lemma Close_disconnects_witness :
  exists s' w',
    Close willing connected_session connected_net
      = (returned (Close_error willing), s', w') /\
    connected s' = false /\ same_but_auth (set_connected true s') connected_session /\
    auth s' = auth connected_session /\
    (0%nat ∉ conns w') /\ (forall ch, (0%nat, ch) ∉ chans w') /\
    nothing_left_open connected_net w' /\
    Close willing s' w' = (returned None, s', w').
Proof.
  apply (Close_disconnects willing willing connected_session connected_net 0%nat);
    reflexivity.
Defined.

(** [connect] and [Close] on a new session and an idle network. *)
Lemma connect_then_Close_witness :
  exists s2 w2,
    Close willing connected_session connected_net
      = (returned (Close_error willing), s2, w2) /\
    connected s2 = false /\ endpoint s2 = endpoint (newSession github) /\
    nothing_left_open idle w2 /\
    ((exists s3 w3, connect willing s2 w2 = (returned None, s3, w3)) <->
     (exists s3 w3, connect willing (newSession github) idle = (returned None, s3, w3))).
Proof.
  apply (connect_then_Close willing willing willing (newSession github)
           connected_session idle connected_net).
  reflexivity.
Defined.

(** A session with its client set, on a remote whose input cannot be piped. *)
Lemma openSSHSession_leaves_the_channel_witness :
  let s := set_client (Some 0%nat) (newSession github) in
  let w := mkNet 1 [0%nat] [] [] in
  exists e s' w',
    openSSHSession no_stdin s w = (returned (Some e), s', w') /\
    session_ s' = Some (next w) /\
    chans w' = (0%nat, next w) :: chans w /\ conns w' = conns w /\
    connected s' = connected s /\ client s' = Some 0%nat.
Proof.
  apply (openSSHSession_leaves_the_channel no_stdin
           (set_client (Some 0%nat) (newSession github)) (mkNet 1 [0%nat] [] []) 0%nat).
  - reflexivity.
  - reflexivity.
  - left. discriminate.
Defined.

(** Ten calls on a new session, against remotes that fail in different ways. *)
Lemma session_owns_what_is_open_witness :
  let r := do_calls session_calls (newSession github) idle in
  owns (snd (fst r)) (snd r) /\
  length (fst (fst r)) = length session_calls /\
  Forall (fun o => o <> panicked) (fst (fst r)).
Proof.
  apply (session_owns_what_is_open session_calls (newSession github)
           (snd (fst (do_calls session_calls (newSession github) idle))) idle
           (snd (do_calls session_calls (newSession github) idle))
           (fst (fst (do_calls session_calls (newSession github) idle)))).
  - unfold session_calls.
    repeat (constructor; [try exact I; intros u H; cbn in *; congruence|]).
    constructor.
  - split; reflexivity.
  - vm_compute. reflexivity.
Defined.

End SessionExamples.
